(** * ItiP: a shallow embedding of the RAG pipeline core

    The Python sources [utils.py], [ingestion.py], [rag_pipeline.py] and
    [app.py] are translated function by function.  Python [str] values are
    sequences of code points; the model keeps the code points 0..255
    (Latin-1) as [list ascii], with Python's own character tables
    ([str.isspace], [str.lower], the [\w] class of [re]) restricted to that
    range.  The messages of the chat hold their text as a list of code
    points of any size, since two literals of [app.py] leave Latin-1.
    Python [int] is [Z]; a [dict] with string keys is a [gmap]. *)

From Stdlib Require Import ZArith Ascii String DecimalString DecimalZ.
From stdpp Require Import gmap strings list fin_maps.

Open Scope Z_scope.

Abbreviation pystr := (list ascii).

(** A Python string literal. *)
Definition lit (s : string) : pystr := list_ascii_of_string s.

(** ** Character tables *)

Module Chr.

Definition code (c : ascii) : N := N_of_ascii c.

Definition between (lo hi : N) (c : ascii) : bool :=
  ((lo <=? code c) && (code c <=? hi))%N.

(** [str.isspace] for one code point, which is also the class [\s]. *)
Definition is_space (c : ascii) : bool :=
  between 9 13 c || between 28 32 c || (code c =? 133)%N || (code c =? 160)%N.

Definition is_upper (c : ascii) : bool :=
  between 65 90 c || between 192 214 c || between 216 222 c.

(** [str.lower] for one code point. *)
Definition lower (c : ascii) : ascii :=
  if is_upper c then ascii_of_N (code c + 32) else c.

(** The class [\w]: [str.isalnum] or the underscore. *)
Definition is_word (c : ascii) : bool :=
  between 48 57 c || between 65 90 c || (code c =? 95)%N || between 97 122 c
  || (code c =? 170)%N || between 178 179 c || (code c =? 181)%N
  || between 185 186 c || between 188 190 c || between 192 214 c
  || between 216 246 c || between 248 255 c.

Definition newline : ascii := ascii_of_N 10.

Definition is_newline (c : ascii) : bool := (code c =? 10)%N.

(** The class [.!?] of sentence terminators. *)
Definition is_terminator (c : ascii) : bool :=
  (code c =? 46)%N || (code c =? 33)%N || (code c =? 63)%N.

(** The class [^\S\n]: whitespace other than the newline. *)
Definition is_space_not_nl (c : ascii) : bool :=
  is_space c && negb (is_newline c).

(** The class [.] (no DOTALL flag): anything but the newline. *)
Definition is_dot (c : ascii) : bool := negb (is_newline c).

End Chr.

(** ** String primitives of Python *)

Module Py.

Definition len (s : pystr) : Z := Z.of_nat (length s).

Fixpoint lstrip (s : pystr) : pystr :=
  match s with
  | c :: s' => if Chr.is_space c then lstrip s' else s
  | [] => []
  end.

Definition rstrip (s : pystr) : pystr := rev (lstrip (rev s)).

(** [s.strip()] *)
Definition strip (s : pystr) : pystr := rstrip (lstrip s).

(** [s.lower()] *)
Definition lower (s : pystr) : pystr := map Chr.lower s.

(** Clamping of one slice bound, as [PySlice_AdjustIndices] does. *)
Definition clamp (n i : Z) : Z :=
  if i <? 0 then Z.max (i + n) 0 else Z.min i n.

(** [s[lo:hi]] *)
Definition slice (s : pystr) (lo hi : Z) : pystr :=
  let n := len s in
  let lo' := clamp n lo in
  let hi' := clamp n hi in
  take (Z.to_nat (hi' - lo')) (drop (Z.to_nat lo') s).

Fixpoint startswith (p s : pystr) : bool :=
  match p, s with
  | [], _ => true
  | c :: p', d :: s' => Ascii.eqb c d && startswith p' s'
  | _ :: _, [] => false
  end.

(** [p in s] for two strings. *)
Fixpoint contains (p s : pystr) : bool :=
  startswith p s ||
  match s with
  | [] => false
  | _ :: s' => contains p s'
  end.

(** [sep.join(parts)] *)
Fixpoint join (sep : pystr) (parts : list pystr) : pystr :=
  match parts with
  | [] => []
  | [p] => p
  | p :: rest => p ++ sep ++ join sep rest
  end.

(** [str(n)] for an [int]. *)
Definition str_of_int (n : Z) : pystr :=
  lit (NilEmpty.string_of_int (Z.to_int n)).

End Py.

(** ** The fragment of Python's [re] the sources use

    A backtracking matcher with greedy quantifiers and ordered alternation.
    The continuation receives the character before the current position
    (for [\b]) and the remaining input. *)

Module Re.

Inductive regex : Type :=
| Cls (p : ascii -> bool)         (* one character of a class *)
| Star (p : ascii -> bool)        (* class*, greedy *)
| Str (l : pystr)                 (* a literal string *)
| Cat (r1 r2 : regex)
| Alt (r1 r2 : regex)
| Opt (r : regex)                 (* r?, greedy *)
| WordB                           (* \b *)
| Dollar.                         (* $ without MULTILINE *)

(** class+ *)
Definition Plus (p : ascii -> bool) : regex := Cat (Cls p) (Star p).

Definition cont : Type := option ascii -> pystr -> option pystr.

Fixpoint star (p : ascii -> bool) (prev : option ascii) (s : pystr) (k : cont)
  : option pystr :=
  match s with
  | c :: s' =>
      if p c then
        match star p (Some c) s' k with
        | Some r => Some r
        | None => k prev s
        end
      else k prev s
  | [] => k prev s
  end.

Fixpoint literal (l : pystr) (prev : option ascii) (s : pystr) (k : cont)
  : option pystr :=
  match l with
  | [] => k prev s
  | c :: l' =>
      match s with
      | d :: s' => if Ascii.eqb c d then literal l' (Some d) s' k else None
      | [] => None
      end
  end.

Definition word_at (c : option ascii) : bool :=
  match c with Some c => Chr.is_word c | None => false end.

Fixpoint rmatch (r : regex) (prev : option ascii) (s : pystr) (k : cont)
  : option pystr :=
  match r with
  | Cls p =>
      match s with
      | c :: s' => if p c then k (Some c) s' else None
      | [] => None
      end
  | Star p => star p prev s k
  | Str l => literal l prev s k
  | Cat r1 r2 => rmatch r1 prev s (fun prev' s' => rmatch r2 prev' s' k)
  | Alt r1 r2 =>
      match rmatch r1 prev s k with
      | Some r => Some r
      | None => rmatch r2 prev s k
      end
  | Opt r1 =>
      match rmatch r1 prev s k with
      | Some r => Some r
      | None => k prev s
      end
  | WordB => if xorb (word_at prev) (word_at (head s)) then k prev s else None
  | Dollar =>
      match s with
      | [] => k prev s
      | [c] => if Chr.is_newline c then k prev s else None
      | _ => None
      end
  end.

(** The last continuation: the match ends here, with [rest] unread. *)
Definition finish : cont := fun _ rest => Some rest.

(** The match object of [re.search]: start and end offsets. *)
Record match_obj : Type := { m_start : Z; m_end : Z }.

(** Scan the start positions from the left, [i] being the offset of [s]. *)
Fixpoint search_from (r : regex) (prev : option ascii) (s : pystr) (i : Z)
  : option match_obj :=
  match rmatch r prev s finish with
  | Some rest => Some {| m_start := i; m_end := i + (Py.len s - Py.len rest) |}
  | None =>
      match s with
      | [] => None
      | c :: s' => search_from r (Some c) s' (i + 1)
      end
  end.

(** [re.search(r, s)] *)
Definition search (r : regex) (s : pystr) : option match_obj :=
  search_from r None s 0.

End Re.

(** ** utils.py *)

Definition CHUNK_MIN : Z := 800.
Definition CHUNK_MAX : Z := 1200.
Definition CHUNK_OVERLAP : Z := 200.

(** The pattern [[.!?]\s+[^\S\n]*$] of [char_chunk_text]. *)
Definition sentence_break : Re.regex :=
  Re.Cat (Re.Cls Chr.is_terminator)
    (Re.Cat (Re.Plus Chr.is_space)
       (Re.Cat (Re.Star Chr.is_space_not_nl) Re.Dollar)).

(** What is left of that pattern after the first whitespace character:
    [$], and [[^\S\n]*$]. *)
Definition sentence_dollar : Re.cont :=
  fun prev s => Re.rmatch Re.Dollar prev s Re.finish.

Definition sentence_tail : Re.cont :=
  fun prev s => Re.star Chr.is_space_not_nl prev s sentence_dollar.

(** One pass through the body of the [while] loop: the chunk appended and
    the value of [end] after the [if]. *)
Definition chunk_step (text : pystr) (n chunk_min chunk_max start : Z)
  : pystr * Z :=
  let end_ := Z.min (start + chunk_max) n in
  let window := Py.slice text start end_ in
  match Re.search sentence_break window with
  | Some m =>
      if chunk_min <=? Py.len window then
        let end_ := start + Re.m_end m in
        (Py.slice text start end_, end_)
      else (window, end_)
  | None => (window, end_)
  end.

(** The [while start < n] loop.  [fuel] bounds the number of times the loop
    test is evaluated; [None] means the bound was reached. *)
Fixpoint chunk_loop (fuel : nat) (text : pystr) (n chunk_min chunk_max overlap : Z)
  (start : Z) (chunks : list pystr) : option (list pystr) :=
  match fuel with
  | O => None
  | S fuel' =>
      if start <? n then
        let '(chunk, end_) := chunk_step text n chunk_min chunk_max start in
        let chunks := chunks ++ [chunk] in
        if n <=? end_ then Some chunks
        else chunk_loop fuel' text n chunk_min chunk_max overlap
               (Z.max 0 (end_ - overlap)) chunks
      else Some chunks
  end.

(** [[c.strip() for c in chunks if c.strip()]] *)
Definition strip_nonempty (chunks : list pystr) : list pystr :=
  omap (fun c => match Py.strip c with [] => None | s => Some s end) chunks.

(** The chunks of the loop before the final trimming. *)
Definition raw_chunks (fuel : nat) (text : pystr) (chunk_min chunk_max overlap : Z)
  : option (list pystr) :=
  let text := Py.strip text in
  chunk_loop fuel text (Py.len text) chunk_min chunk_max overlap 0 [].

Definition char_chunk_text (fuel : nat) (text : pystr) (chunk_min chunk_max overlap : Z)
  : option (list pystr) :=
  strip_nonempty <$> raw_chunks fuel text chunk_min chunk_max overlap.

(** *** Metadata and citations *)

(** The values a metadata [dict] holds. *)
Inductive pyval : Type :=
| VNone
| VStr (s : pystr)
| VInt (n : Z).

Global Instance pyval_eq_dec : EqDecision pyval.
Proof. solve_decision. Defined.

(** [str(v)], which is also what an f-string field prints. *)
Definition py_str (v : pyval) : pystr :=
  match v with
  | VNone => lit "None"
  | VStr s => s
  | VInt n => Py.str_of_int n
  end.

(** [d.get(key)] and [d.get(key, default)] *)
Definition get (d : gmap string pyval) (key : string) : pyval :=
  default VNone (d !! key).

Definition get_or (d : gmap string pyval) (key : string) (dflt : pyval) : pyval :=
  default dflt (d !! key).

Inductive exn : Type :=
| RuntimeError (msg : pystr)
| ValueError (msg : pystr)
| TypeError
| KeyError (key : string)
| ExternalError (msg : pystr).     (* raised inside a library or the OS *)

(** The outcome of a call: a value, an exception, or a loop cut short by
    its iteration bound. *)
Inductive result (A : Type) : Type :=
| Ok (a : A)
| Raise (e : exn)
| OutOfFuel.

Arguments Ok {A} a.
Arguments Raise {A} e.
Arguments OutOfFuel {A}.

Global Instance result_ret : MRet result := fun A a => Ok a.

Global Instance result_bind : MBind result := fun A B f r =>
  match r with
  | Ok a => f a
  | Raise e => Raise e
  | OutOfFuel => OutOfFuel
  end.

Definition slash : ascii := ascii_of_N 47.
Definition dot : ascii := ascii_of_N 46.

Definition is_slash (c : ascii) : bool := Ascii.eqb c slash.
Definition is_dot_char (c : ascii) : bool := Ascii.eqb c dot.

Fixpoint take_until (p : ascii -> bool) (s : pystr) : pystr :=
  match s with
  | c :: s' => if p c then [] else c :: take_until p s'
  | [] => []
  end.

(** [os.path.basename] on POSIX: what follows the last slash. *)
Definition basename (p : pystr) : pystr := rev (take_until is_slash (rev p)).

(** [os.path.splitext(p)[1]]: from the last dot of the last component on,
    unless only dots come before it in that component. *)
Definition splitext_ext (p : pystr) : pystr :=
  let r := rev (basename p) in
  let post := take_until is_dot_char r in
  match drop (length post) r with
  | [] => []
  | _ :: pre => if forallb is_dot_char pre then [] else dot :: rev post
  end.

Definition basename_val (v : pyval) : result pyval :=
  match v with
  | VStr s => Ok (VStr (basename s))
  | _ => Raise TypeError
  end.

Definition build_chunk_metadata (source : pyval) (page : pyval) (chunk_id : Z)
  : result (gmap string pyval) :=
  src ← basename_val source;
  let meta : gmap string pyval :=
    <["chunk_id" := VStr (lit "chunk_" ++ Py.str_of_int chunk_id)]>
      (<["source" := src]> ∅) in
  Ok (match page with
      | VNone => meta
      | _ => <["page" := page]> meta
      end).

Definition format_citation (meta : gmap string pyval) : pystr :=
  let source := get_or meta "source" (VStr (lit "unknown")) in
  let page := get meta "page" in
  let chunk_id := get_or meta "chunk_id" (VStr (lit "chunk_?")) in
  match page with
  | VNone => lit "[" ++ py_str source ++ lit " " ++ py_str chunk_id ++ lit "]"
  | _ => lit "[" ++ py_str source ++ lit " p." ++ py_str page ++ lit " "
           ++ py_str chunk_id ++ lit "]"
  end.

(** The [uniq] list and the [seen] set of the deduplication loops. *)
Definition dedup_step (st : list pystr * gset pystr) (c : pystr)
  : list pystr * gset pystr :=
  let '(uniq, seen) := st in
  if decide (c ∈ seen) then st else (uniq ++ [c], seen ∪ {[c]}).

Definition dedup_loop (cites : list pystr) : list pystr * gset pystr :=
  foldl dedup_step ([], ∅) cites.

Definition join_citations (metadatas : list (gmap string pyval)) : pystr :=
  let '(uniq, _) := dedup_loop (map format_citation metadatas) in
  Py.join (lit " ") uniq.

(** *** The topical guard *)

Definition greetings : list pystr :=
  [lit "hi"; lit "hello"; lit "hey"; lit "good morning"; lit "good afternoon";
   lit "good evening"; lit "how are you"; lit "thanks"; lit "thank you"].

Definition assistant_phrases : list pystr :=
  [lit "what can you do"; lit "what are you"; lit "who are you"; lit "help"].

Definition word (s : string) : Re.regex := Re.Str (lit s).

(** [\b(a|b|...)\b] *)
Definition one_of_words (alts : Re.regex) : Re.regex :=
  Re.Cat Re.WordB (Re.Cat alts Re.WordB).

(** [\ba.*b\b] *)
Definition word_then_word (a b : string) : Re.regex :=
  Re.Cat Re.WordB
    (Re.Cat (word a) (Re.Cat (Re.Star Chr.is_dot) (Re.Cat (word b) Re.WordB))).

Definition unrelated_patterns : list Re.regex :=
  [ one_of_words
      (Re.Alt (word "weather") (Re.Alt (word "news") (Re.Alt (word "sports")
        (Re.Alt (Re.Cat (word "movie") (Re.Opt (word "s")))
          (Re.Alt (word "music") (Re.Cat (word "song") (Re.Opt (word "s"))))))));
    one_of_words (Re.Alt (word "recipe") (Re.Alt (word "cooking") (word "food")));
    one_of_words (Re.Alt (word "travel") (Re.Alt (word "vacation") (word "hotel")));
    word_then_word "write" "story";
    word_then_word "play" "game";
    word_then_word "tell" "joke" ].

(** [any(re.search(p, q) for p in unrelated_patterns)] *)
Definition matches_unrelated (q : pystr) : bool :=
  existsb (fun p => bool_decide (is_Some (Re.search p q))) unrelated_patterns.

(** [any(t in q for t in tokens)] *)
Definition any_in (tokens : list pystr) (q : pystr) : bool :=
  existsb (fun t => Py.contains t q) tokens.

Definition guard_unrelated (question : pystr) : bool :=
  let q := Py.strip (Py.lower question) in
  if any_in greetings q then false
  else if any_in assistant_phrases q then false
  else matches_unrelated q.

(** ** ingestion.py *)

(** A parsed record [{"text": ..., "metadata": ...}] and a chunk of the same
    shape. *)
Record record : Type := { rec_text : pystr; rec_metadata : gmap string pyval }.
Record chunk : Type := { text : pystr; metadata : gmap string pyval }.

(** What [ingest] asks of the world outside the program. *)
Record world : Type := {
  has_pypdf2 : bool;                               (* PyPDF2 is not None *)
  has_docx : bool;                                 (* docx is not None *)
  read_text : pystr -> result pystr;               (* open(path).read() *)
  pdf_pages : pystr -> result (list pystr);        (* extract_text() or "" per page *)
  docx_paragraphs : pystr -> result (list pystr);  (* p.text per paragraph *)
  makedirs : pystr -> result unit                  (* os.makedirs(path, exist_ok=True) *)
}.

(** [ensure_dirs()] of utils.py: the two directories are made one after the
    other, and what [os.makedirs] raises is raised. *)
Definition ensure_dirs (w : world) : result unit :=
  _ ← makedirs w (lit "./uploads");
  makedirs w (lit "./vectorstore").

Definition nl : pystr := [Chr.newline].

Definition parse_txt (w : world) (path : pystr) : result (list record) :=
  content ← read_text w path;
  Ok [ {| rec_text := content;
          rec_metadata := <["source" := VStr (basename path)]> ∅ |} ].

(** [enumerate(reader.pages, start=i)] *)
Fixpoint pdf_records (path : pystr) (i : Z) (pages : list pystr) : list record :=
  match pages with
  | [] => []
  | t :: rest =>
      {| rec_text := t;
         rec_metadata := <["page" := VInt i]> (<["source" := VStr (basename path)]> ∅) |}
      :: pdf_records path (i + 1) rest
  end.

Definition parse_pdf (w : world) (path : pystr) : result (list record) :=
  if has_pypdf2 w then
    pages ← pdf_pages w path;
    Ok (pdf_records path 1 pages)
  else Raise (RuntimeError (lit "PyPDF2 not installed. Install it to parse PDFs.")).

Definition parse_docx (w : world) (path : pystr) : result (list record) :=
  if has_docx w then
    paragraphs ← docx_paragraphs w path;
    let content := concat (map (fun p => p ++ nl) paragraphs) in
    let meta : gmap string pyval := <["source" := VStr (basename path)]> ∅ in
    let meta :=
      match Py.strip <$> head paragraphs with
      | Some (c :: title) => <["title" := VStr (c :: title)]> meta
      | _ => meta
      end in
    Ok [ {| rec_text := content; rec_metadata := meta |} ]
  else Raise (RuntimeError (lit "python-docx not installed. Install it to parse DOCX.")).

Definition parse_file (w : world) (path : pystr) : result (list record) :=
  let ext := Py.lower (splitext_ext path) in
  if decide (ext = lit ".pdf") then parse_pdf w path
  else if decide (ext = lit ".docx") then parse_docx w path
  else if decide (ext = lit ".txt") then parse_txt w path
  else Raise (ValueError (lit "Unsupported file type: " ++ ext)).

(** [char_chunk_text(text)] with the default sizes, run for at most one
    loop test per character and one more. *)
Definition chunk_default (t : pystr) : result (list pystr) :=
  match char_chunk_text (S (length t)) t CHUNK_MIN CHUNK_MAX CHUNK_OVERLAP with
  | Some chunks => Ok chunks
  | None => OutOfFuel
  end.

(** The body of the inner [for ch in ...] loop; the state is [chunks] and
    [cid]. *)
Definition chunk_one (base_meta : gmap string pyval) (st : list chunk * Z) (ch : pystr)
  : result (list chunk * Z) :=
  let '(chunks, cid) := st in
  let meta := base_meta in
  upd ← build_chunk_metadata (get_or meta "source" (VStr (lit "unknown")))
           (get meta "page") cid;
  Ok (chunks ++ [ {| text := ch; metadata := upd ∪ meta |} ], cid + 1).

Fixpoint for_each {A S : Type} (body : S -> A -> result S) (st : S) (l : list A)
  : result S :=
  match l with
  | [] => Ok st
  | a :: l' => st' ← body st a; for_each body st' l'
  end.

(** The body of the outer [for rec in records] loop. *)
Definition chunk_record (st : list chunk * Z) (rec : record) : result (list chunk * Z) :=
  pieces ← chunk_default (rec_text rec);
  for_each (chunk_one (rec_metadata rec)) st pieces.

Definition chunk_records (records : list record) : result (list chunk) :=
  st ← for_each chunk_record ([], 1) records;
  Ok st.1.

(** The body of the [for p in paths] loop; the state is [all_chunks]. *)
Definition ingest_file (w : world) (all_chunks : list chunk) (p : pystr)
  : result (list chunk) :=
  records ← parse_file w p;
  chunks ← chunk_records records;
  Ok (all_chunks ++ chunks).

(** The [for p in paths] loop of [ingest]. *)
Definition ingest_loop (w : world) (paths : list pystr) : result (list chunk) :=
  for_each (ingest_file w) [] paths.

Definition ingest (w : world) (paths : list pystr) : result (list chunk) :=
  _ ← ensure_dirs w;
  ingest_loop w paths.

(** The [chunk_id] entries of a list of chunks. *)
Definition chunk_ids (chunks : list chunk) : list pyval :=
  map (fun c => get (metadata c) "chunk_id") chunks.

(** ** rag_pipeline.py *)

Record document : Type := { page_content : pystr; doc_metadata : gmap string pyval }.

(** One message of a rendered chat prompt. *)
Record message : Type := { role : pystr; content : pystr }.

Definition _format_docs (docs : list document) : pystr :=
  Py.join (nl ++ nl) (map page_content docs).

(** The tag built in the first loop of [_citations_from_docs]. *)
Definition doc_citation (d : document) : pystr :=
  let m := doc_metadata d in
  let source := get_or m "source" (VStr (lit "unknown")) in
  let page := get m "page" in
  let chunk_id := get_or m "chunk_id" (VStr (lit "chunk_?")) in
  match page with
  | VNone => lit "[" ++ py_str source ++ lit " " ++ py_str chunk_id ++ lit "]"
  | _ => lit "[" ++ py_str source ++ lit " p." ++ py_str page ++ lit " "
           ++ py_str chunk_id ++ lit "]"
  end.

Definition _citations_from_docs (docs : list document) : pystr :=
  let cites := map doc_citation docs in
  let '(uniq, _) := dedup_loop cites in
  Py.join (lit " ") uniq.

(** [payload.get(key, "")] on a payload of strings. *)
Definition get_text (payload : gmap string pystr) (key : string) : pystr :=
  default [] (payload !! key).

Definition forced_payload : gmap string pystr :=
  <["question" := lit "Summarize the documents."]>
    (<["citations" := []]> (<["context" := []]> ∅)).

Definition grounded_or_idk (payload : gmap string pystr) : gmap string pystr :=
  let ctx := Py.strip (get_text payload "context") in
  let cits := Py.strip (get_text payload "citations") in
  match ctx, cits with
  | _ :: _, _ :: _ => payload
  | _, _ => forced_payload
  end.

(** The dictionary step of the summary chain, applied to the gathered
    documents. *)
Definition summary_inputs (docs : list document) : gmap string pystr :=
  <["citations" := match docs with [] => [] | _ => _citations_from_docs docs end]>
    (<["context" := match docs with [] => [] | _ => _format_docs docs end]> ∅).

Definition summary_system : pystr :=
  lit "Summarize the uploaded smart contract documents using only the provided context."
  ++ nl ++
  lit "Provide a structured summary with sections: purpose, key clauses, risks, missing info, definitions."
  ++ nl ++
  lit "Include citations after each point. If information isn't present, say 'I don't know'.".

(** Filling a template variable fails on a payload without it. *)
Definition template_var (payload : gmap string pystr) (key : string) : result pystr :=
  match payload !! key with
  | Some v => Ok v
  | None => Raise (KeyError key)
  end.

Definition summary_prompt (payload : gmap string pystr) : result (list message) :=
  ctx ← template_var payload "context";
  cits ← template_var payload "citations";
  Ok [ {| role := lit "system"; content := summary_system |};
       {| role := lit "human";
          content := lit "Context:" ++ nl ++ ctx ++ nl ++ nl ++ lit "Citations: " ++ cits |} ].

Definition qa_system : pystr :=
  lit "You are a smart-contract assistant. Answer only using the retrieved context."
  ++ nl ++
  lit "If the answer is not in the context, say you don't know."
  ++ nl ++
  lit "Always include citations in the format [source.pdf p.X chunk_Y].".

Definition qa_prompt (payload : gmap string pystr) : result (list message) :=
  question ← template_var payload "question";
  ctx ← template_var payload "context";
  cits ← template_var payload "citations";
  Ok [ {| role := lit "system"; content := qa_system |};
       {| role := lit "human";
          content := lit "Question: " ++ question ++ nl ++ nl ++ lit "Context:" ++ nl
                     ++ ctx ++ nl ++ nl ++ lit "Answer with citations: " ++ cits |} ].

(** The services the chains call. *)
Record services : Type := {
  api_key : option pystr;                     (* os.environ.get("NVIDIA_API_KEY") *)
  nvidia_installed : bool;                    (* NVIDIAEmbeddings, ChatNVIDIA are not None *)
  reorder_installed : bool;                   (* LongContextReorder is not None *)
  open_collection : result unit;              (* Chroma(...) *)
  retrieve : pystr -> result (list document); (* retriever.invoke(q) *)
  reorder : list document -> list document;   (* reordering.transform_documents(docs) *)
  llm_stream : list message -> list pystr * option exn
                                              (* the chunks streamed, then a failure if any *)
}.

Definition key_missing : pystr :=
  lit "NVIDIA_API_KEY is not set. Please set it to use NVIDIA endpoints." ++ nl ++
  lit "Get a key at https://build.nvidia.com and set NVIDIA_API_KEY environment variable.".

Definition check_key (sv : services) : result unit :=
  match api_key sv with
  | Some (_ :: _) => Ok ()
  | _ => Raise (RuntimeError key_missing)
  end.

Definition check_nvidia (sv : services) : result unit :=
  if nvidia_installed sv then Ok ()
  else Raise (RuntimeError
    (lit "langchain-nvidia-ai-endpoints is not installed. Please install it from requirements.txt.")).

Definition get_embeddings (sv : services) : result unit :=
  _ ← check_key sv; check_nvidia sv.

Definition get_llm (sv : services) : result unit :=
  _ ← check_key sv; check_nvidia sv.

Definition get_retriever (sv : services) : result unit :=
  _ ← get_embeddings sv; open_collection sv.

Definition check_reorder (sv : services) : result unit :=
  if reorder_installed sv then Ok ()
  else Raise (RuntimeError
    (lit "LongContextReorder not available. Update langchain or install langchain-community per requirements.txt.")).

(** A built chain holds the handles it was built from; the services being
    fixed, the model keeps only which chain it is. *)
Inductive chain : Type := QAChain | SummaryChain.

Definition build_qa_chain (sv : services) : result chain :=
  _ ← get_retriever sv; _ ← check_reorder sv; _ ← get_llm sv; Ok QAChain.

Definition build_summary_chain (sv : services) : result chain :=
  _ ← get_retriever sv; _ ← check_reorder sv; _ ← get_llm sv; Ok SummaryChain.

(** The calls that leave the program while a chain runs. *)
Inductive event : Type :=
| Retrieved (query : pystr)
| Generated (prompt : list message).

(** A run of a chain: the calls made, the chunks streamed and the exception
    that ended the stream, if any. *)
Record run : Type := { calls : list event; streamed : list pystr; failure : option exn }.

Definition generate (sv : services) (before : list event) (prompt : result (list message))
  : run :=
  match prompt with
  | Ok p =>
      let '(chunks, err) := llm_stream sv p in
      {| calls := before ++ [Generated p]; streamed := chunks; failure := err |}
  | Raise e => {| calls := before; streamed := []; failure := Some e |}
  | OutOfFuel => {| calls := before; streamed := []; failure := None |}
  end.

(** [summary_chain.stream({})] *)
Definition summary_stream (sv : services) : run :=
  let query := lit "contract" in
  match retrieve sv query with
  | Ok docs =>
      let docs := reorder sv docs in
      generate sv [Retrieved query]
        (summary_prompt (grounded_or_idk (summary_inputs docs)))
  | Raise e => {| calls := [Retrieved query]; streamed := []; failure := Some e |}
  | OutOfFuel => {| calls := [Retrieved query]; streamed := []; failure := None |}
  end.

Definition qa_inputs (question : pystr) (docs : list document) : gmap string pystr :=
  <["citations" := _citations_from_docs docs]>
    (<["question" := question]> (<["context" := _format_docs docs]> ∅)).

(** [qa_chain.stream({"question": question})] *)
Definition qa_stream (sv : services) (question : pystr) : run :=
  match question with
  | [] => generate sv [] (qa_prompt (qa_inputs question []))
  | _ =>
      match retrieve sv question with
      | Ok docs =>
          let docs := reorder sv docs in
          generate sv [Retrieved question] (qa_prompt (qa_inputs question docs))
      | Raise e => {| calls := [Retrieved question]; streamed := []; failure := Some e |}
      | OutOfFuel => {| calls := [Retrieved question]; streamed := []; failure := None |}
      end
  end.

(** ** app.py *)

Record app_state : Type := { qa_chain : option chain; summary_chain : option chain }.

(** [ensure_chains()]: the globals after the call, and whether it raised.
    The first assignment stays when the second build raises. *)
Definition ensure_chains (sv : services) (st : app_state) : app_state * result unit :=
  let step1 :=
    match qa_chain st with
    | None =>
        match build_qa_chain sv with
        | Ok c => (Some c, Ok ())
        | Raise e => (None, Raise e)
        | OutOfFuel => (None, OutOfFuel)
        end
    | Some c => (Some c, Ok ())
    end in
  match step1 with
  | (qa, Ok _) =>
      match summary_chain st with
      | None =>
          match build_summary_chain sv with
          | Ok c => ({| qa_chain := qa; summary_chain := Some c |}, Ok ())
          | Raise e => ({| qa_chain := qa; summary_chain := None |}, Raise e)
          | OutOfFuel => ({| qa_chain := qa; summary_chain := None |}, OutOfFuel)
          end
      | Some c => ({| qa_chain := qa; summary_chain := Some c |}, Ok ())
      end
  | (qa, r) => ({| qa_chain := qa; summary_chain := summary_chain st |}, r)
  end.

(** [str(e)] *)
Definition exn_str (e : exn) : pystr :=
  match e with
  | RuntimeError msg => msg
  | ValueError msg => msg
  | TypeError => lit "TypeError"
  | KeyError key => lit "'" ++ lit key ++ lit "'"
  | ExternalError msg => msg
  end.

(** A text by its code points.  The strings the program computes with lie
    in Latin-1 and are [pystr]s; the chat also shows two literals of app.py
    that hold the bullet sign U+2022. *)
Definition unicode : Type := list N.

Definition wide (s : pystr) : unicode := map Chr.code s.

Definition bullet : N := 8226.

(** A message of the chat, [{"role": ..., "content": ...}]. *)
Record chat_message : Type := { chat_role : pystr; chat_content : unicode }.

Definition user (c : pystr) : chat_message :=
  {| chat_role := lit "user"; chat_content := wide c |}.

Definition assistant_says (c : unicode) : chat_message :=
  {| chat_role := lit "assistant"; chat_content := c |}.

Definition assistant (c : pystr) : chat_message := assistant_says (wide c).

(** The canned replies. *)
Definition greeting_reply : unicode :=
  wide (lit "Hello! I'm your Smart Contract Assistant. I can help you analyze uploaded contract documents. You can:"
        ++ nl ++ nl)
  ++ bullet :: wide (lit " Upload documents in the sidebar" ++ nl)
  ++ bullet :: wide (lit " Ask questions about contract content" ++ nl)
  ++ bullet :: wide (lit " Generate summaries of your documents" ++ nl ++ nl
                     ++ lit "How can I assist you today?").

Definition how_are_you_reply : pystr :=
  lit "I'm doing well, thank you! I'm ready to help you analyze your contract documents. Have you uploaded any documents yet?".

Definition about_reply : unicode :=
  wide (lit "I'm a Smart Contract Assistant powered by RAG (Retrieval Augmented Generation). I can:"
        ++ nl ++ nl)
  ++ bullet :: wide (lit " **Analyze contract documents** - Upload PDF, DOCX, or TXT files"
                     ++ nl)
  ++ bullet :: wide (lit " **Answer questions** about contract content with citations"
                     ++ nl)
  ++ bullet :: wide (lit " **Generate summaries** of uploaded documents" ++ nl)
  ++ bullet :: wide (lit " **Provide insights** based on your specific contract data"
                     ++ nl ++ nl
                     ++ lit "To get started, upload your documents using the sidebar, then ask me anything about them!").

Definition thanks_reply : pystr :=
  lit "You're welcome! Is there anything else I can help you with regarding your contract documents?".

Definition off_topic_reply : pystr :=
  lit "I'm focused on helping with contract document analysis. Please upload your documents and ask questions related to their content, or I can help generate summaries of your uploaded materials.".

Definition no_index_reply : pystr :=
  lit "I don't have any documents indexed yet. Please upload and index documents first using the sidebar, then I can answer questions about them.".

(** What one call of [stream_answer] does: the histories it yields, the
    globals it leaves, the outside calls it makes, and the exception that
    escapes it, if any. *)
Record answer : Type := {
  yields : list (list chat_message);
  globals : app_state;
  outside : list event;
  escaped : option exn
}.

Definition reply_once (st : app_state) (history : list chat_message) (c : unicode)
  : answer :=
  {| yields := [history ++ [assistant_says c]]; globals := st; outside := [];
     escaped := None |}.

(** The histories yielded while the chunks arrive: the last message grows
    by one chunk per yield.  The source yields one list each time and
    updates its last message in place; the model keeps what the list holds
    at each yield. *)
Fixpoint growing (history : list chat_message) (acc : pystr) (chunks : list pystr)
  : list (list chat_message) :=
  match chunks with
  | [] => []
  | part :: rest =>
      (history ++ [assistant (acc ++ part)]) :: growing history (acc ++ part) rest
  end.

Definition stream_answer (sv : services) (st : app_state) (question : pystr)
  (history : list chat_message) : answer :=
  let history := history ++ [user question] in
  let q_lower := Py.strip (Py.lower question) in
  if any_in [lit "hi"; lit "hello"; lit "hey"; lit "good morning";
             lit "good afternoon"; lit "good evening"] q_lower
  then reply_once st history greeting_reply
  else if any_in [lit "how are you"] q_lower
  then reply_once st history (wide how_are_you_reply)
  else if any_in [lit "what can you do"; lit "what are you"; lit "who are you"; lit "help"]
            q_lower
  then reply_once st history about_reply
  else if any_in [lit "thanks"; lit "thank you"] q_lower
  then reply_once st history (wide thanks_reply)
  else if guard_unrelated question
  then reply_once st history (wide off_topic_reply)
  else
    match ensure_chains sv st with
    | (st', Raise (RuntimeError msg)) => reply_once st' history (wide msg)
    | (st', Raise e) =>
        {| yields := []; globals := st'; outside := []; escaped := Some e |}
    | (st', OutOfFuel) =>
        {| yields := []; globals := st'; outside := []; escaped := None |}
    | (st', Ok _) =>
        match qa_chain st' with
        | None => reply_once st' history (wide no_index_reply)
        | Some _ =>
            let r := qa_stream sv question in
            let partial := growing history [] (streamed r) in
            {| yields :=
                 [history ++ [assistant []]] ++ partial ++
                 match failure r with
                 | Some e => [history ++ [assistant (lit "Answer error: " ++ exn_str e)]]
                 | None => []
                 end;
               globals := st';
               outside := calls r;
               escaped := None |}
        end
    end.

(** ** Definitions the statements below compare the code with *)

(** Whether the loop body takes its first branch on a window: the pattern
    matches and the window has [chunk_min] characters. *)
Definition takes_sentence_cut (chunk_min : Z) (window : pystr) : bool :=
  bool_decide (is_Some (Re.search sentence_break window))
  && (chunk_min <=? Py.len window).

(** The values of [start] at the passes of the [while] loop, in order: the
    loop of [chunk_loop], keeping the starts instead of the chunks. *)
Fixpoint pass_starts (fuel : nat) (text : pystr) (n chunk_min chunk_max overlap : Z)
  (start : Z) : option (list Z) :=
  match fuel with
  | O => None
  | S fuel' =>
      if start <? n then
        let '(_, end_) := chunk_step text n chunk_min chunk_max start in
        if n <=? end_ then Some [start]
        else cons start <$> pass_starts fuel' text n chunk_min chunk_max overlap
                              (Z.max 0 (end_ - overlap))
      else Some []
  end.

(** The sentence boundaries of a window as the specification words them:
    for each terminator followed by whitespace, the offset where that
    whitespace ends.  [i] is the offset of [s] in the window. *)
Fixpoint spec_boundaries (s : pystr) (i : Z) : list Z :=
  match s with
  | [] => []
  | c :: s' =>
      let here :=
        match s' with
        | d :: _ =>
            if Chr.is_terminator c && Chr.is_space d
            then [i + 1 + Py.len s' - Py.len (Py.lstrip s')]
            else []
        | [] => []
        end in
      here ++ spec_boundaries s' (i + 1)
  end.

Definition spec_last_boundary (window : pystr) : option Z :=
  last (spec_boundaries window 0).

(** The loop body as the specification words it: cut at the last boundary
    of the window when the segment up to it has [chunk_min] characters, and
    at the hard boundary otherwise. *)
Definition spec_chunk_step (text : pystr) (n chunk_min chunk_max start : Z)
  : pystr * Z :=
  let end_ := Z.min (start + chunk_max) n in
  let window := Py.slice text start end_ in
  match spec_last_boundary window with
  | Some b =>
      if chunk_min <=? b then (Py.slice text start (start + b), start + b)
      else (window, end_)
  | None => (window, end_)
  end.

(** The hard boundary of the pass that starts at [start], and the window
    up to it. *)
Definition hard_end (text : pystr) (chunk_max start : Z) : Z :=
  Z.min (start + chunk_max) (Py.len text).

Definition window_at (text : pystr) (chunk_max start : Z) : pystr :=
  Py.slice text start (hard_end text chunk_max start).

(** Every chunk but the last satisfies [P]. *)
Fixpoint all_but_last (P : pystr -> Prop) (l : list pystr) : Prop :=
  match l with
  | [] => True
  | [_] => True
  | w :: rest => P w /\ all_but_last P rest
  end.

(** The chunk bounds read on the chunks handed out, that is after the
    trimming: none is longer than [chunk_max], and each one that is not the
    last handed out has [chunk_min] characters or comes from a pass that
    found no qualifying sentence boundary. *)
Definition chunk_bounds_as_stated (text : pystr) (chunk_min chunk_max overlap : Z)
  : Prop :=
  forall fuel windows,
    raw_chunks fuel text chunk_min chunk_max overlap = Some windows ->
    (forall c, c ∈ strip_nonempty windows -> Py.len c <= chunk_max)
    /\ (forall i w, windows !! i = Some w -> Py.strip w ≠ [] ->
          (exists j w', (i < j)%nat /\ windows !! j = Some w' /\ Py.strip w' ≠ []) ->
          chunk_min <= Py.len (Py.strip w) \/ takes_sentence_cut chunk_min w = false).

(** A sentence that ends in a long run of spaces, then a few more letters. *)
Definition spaced_text : pystr :=
  replicate 700 "a"%char ++ lit "." ++ replicate 499 " "%char ++ replicate 10 "b"%char.

(** A sentence boundary in the middle of the first window. *)
Definition two_sentences : pystr :=
  replicate 998 "a"%char ++ lit ". " ++ replicate 500 "b"%char.

(** A token whose two ends are not whitespace. *)
Definition solid_ends (t : pystr) : bool :=
  match t, rev t with
  | c :: _, d :: _ => negb (Chr.is_space c) && negb (Chr.is_space d)
  | _, _ => false
  end.

(** The [chunk_id] entry made for the counter value [k]. *)
Definition chunk_id_of (k : Z) : pyval := VStr (lit "chunk_" ++ Py.str_of_int k).

(** A batch of two plain-text files. *)
Definition path_a : pystr := lit "./uploads/a.txt".
Definition path_b : pystr := lit "./uploads/b.txt".

Definition two_files : world :=
  {| has_pypdf2 := true;
     has_docx := true;
     read_text := fun path =>
       if decide (path = path_a) then Ok (lit "The buyer pays within thirty days.")
       else if decide (path = path_b) then Ok (lit "The seller ships within ten days.")
       else Raise (ExternalError (lit "No such file or directory"));
     pdf_pages := fun _ => Raise (ExternalError (lit "No such file or directory"));
     docx_paragraphs := fun _ => Raise (ExternalError (lit "No such file or directory"));
     makedirs := fun _ => Ok () |}.

(** What [ingest] returns for that batch. *)
Definition two_files_chunks : list chunk :=
  [ {| text := lit "The buyer pays within thirty days.";
       metadata := <["chunk_id" := chunk_id_of 1]> (<["source" := VStr (lit "a.txt")]> ∅) |};
    {| text := lit "The seller ships within ten days.";
       metadata := <["chunk_id" := chunk_id_of 1]> (<["source" := VStr (lit "b.txt")]> ∅) |} ].

(** The prompt of the summary chain when nothing grounds it. *)
Definition context_free_prompt : list message :=
  [ {| role := lit "system"; content := summary_system |};
    {| role := lit "human";
       content := lit "Context:" ++ nl ++ nl ++ nl ++ lit "Citations: " |} ].

(** A citation tag opens with a square bracket. *)
Definition mentions_tag (s : pystr) : bool := existsb (Ascii.eqb "["%char) s.

(** The state of the application before anything is indexed, and services
    that are all there, with an empty collection behind the retriever. *)
Definition no_chains : app_state := {| qa_chain := None; summary_chain := None |}.

Definition empty_index : services :=
  {| api_key := Some (lit "nvapi-key");
     nvidia_installed := true;
     reorder_installed := true;
     open_collection := Ok ();
     retrieve := fun _ => Ok [];
     reorder := fun docs => docs;
     llm_stream := fun _ => ([lit "I don't "; lit "know."], None) |}.

Definition clause_question : pystr := lit "What is the termination clause?".

(** Deduplication by string equality that keeps first occurrences, as the
    specification words it: a tag stays, its later copies go. *)
Fixpoint first_occurrences (l : list pystr) : list pystr :=
  match l with
  | [] => []
  | x :: rest => x :: filter (fun y => y ≠ x) (first_occurrences rest)
  end.

(** The two shapes of a citation tag. *)
Definition tag_with_page (source page chunk_id : pystr) : pystr :=
  lit "[" ++ source ++ lit " p." ++ page ++ lit " " ++ chunk_id ++ lit "]".

Definition tag_without_page (source chunk_id : pystr) : pystr :=
  lit "[" ++ source ++ lit " " ++ chunk_id ++ lit "]".

(** ** The rest of utils.py *)

(** The class [a-zA-Z0-9._-]. *)
Definition filename_char (c : ascii) : bool :=
  Chr.between 97 122 c || Chr.between 65 90 c || Chr.between 48 57 c
  || (Chr.code c =? 46)%N || (Chr.code c =? 95)%N || (Chr.code c =? 45)%N.

Definition underscore : ascii := ascii_of_N 95.

(** [re.sub(r"[^a-zA-Z0-9._-]", "_", name)]: each character outside the
    class becomes an underscore. *)
Definition sanitize_filename (name : pystr) : pystr :=
  map (fun c => if filename_char c then c else underscore) name.

(** [path.endswith("/")] *)
Definition ends_with_slash (p : pystr) : bool :=
  match rev p with
  | c :: _ => is_slash c
  | [] => false
  end.

(** [os.path.join(a, b)] on POSIX. *)
Definition path_join (a b : pystr) : pystr :=
  if Py.startswith [slash] b then b
  else match a with
       | [] => b
       | _ => if ends_with_slash a then a ++ b else a ++ slash :: b
       end.

(** What [os.path.join(a, b)] puts before a relative [b]: the directory,
    with a slash added where one is missing. *)
Definition join_prefix (a : pystr) : pystr :=
  match a with
  | [] => []
  | _ => if ends_with_slash a then a else a ++ [slash]
  end.

(** [os.path.splitext(p)] *)
Definition splitext (p : pystr) : pystr * pystr :=
  let ext := splitext_ext p in
  (take (length p - length ext) p, ext).

(** The candidate [os.path.join(dest_dir, f"{root}_{i}{ext}")]. *)
Definition unique_candidate (dest_dir root ext : pystr) (i : Z) : pystr :=
  path_join dest_dir (root ++ lit "_" ++ Py.str_of_int i ++ ext).

(** The [while True] loop of [make_unique_path]; [exists_] is
    [os.path.exists] and [fuel] bounds the candidates tried. *)
Fixpoint unique_loop (exists_ : pystr -> bool) (fuel : nat)
  (dest_dir root ext : pystr) (i : Z) : option pystr :=
  match fuel with
  | O => None
  | S fuel' =>
      let candidate := unique_candidate dest_dir root ext i in
      if exists_ candidate
      then unique_loop exists_ fuel' dest_dir root ext (i + 1)
      else Some candidate
  end.

Definition make_unique_path (exists_ : pystr -> bool) (fuel : nat)
  (dest_dir base_name : pystr) : option pystr :=
  let base_name := sanitize_filename base_name in
  let full := path_join dest_dir base_name in
  if exists_ full then
    let '(root, ext) := splitext base_name in
    unique_loop exists_ fuel dest_dir root ext 1
  else Some full.

(** [sum(len(t[0]) for t in retrieved)] *)
Definition total_chars (retrieved : list (pystr * gmap string pyval)) : Z :=
  foldl (fun acc t => acc + Py.len t.1) 0 retrieved.

Definition low_confidence (retrieved : list (pystr * gmap string pyval)) : bool :=
  if Z.of_nat (length retrieved) <? 1 then true
  else total_chars retrieved <? 800.

(** ** evaluation.py *)

Definition has_citation (t : pystr) : bool :=
  Py.contains (lit "[") t && Py.contains (lit "]") t && Py.contains (lit "chunk_") t.

(** ** The rest of rag_pipeline.py *)

(** [build_vectorstore(chunks)]; [add_texts] is the method of the
    collection.  The result tells whether [add_texts] was called. *)
Definition build_vectorstore (sv : services)
  (add_texts : list pystr -> list (gmap string pyval) -> result unit)
  (chunks : list chunk) : result bool :=
  let texts := map text chunks in
  let metadatas := map metadata chunks in
  _ ← get_embeddings sv;
  _ ← open_collection sv;
  match texts with
  | [] => Ok false
  | _ => _ ← add_texts texts metadatas; Ok true
  end.

(** ** The rest of app.py *)

(** What the upload widget hands over: nothing, an object with the
    attributes [path], [orig_name] and [name] ([None] when absent), a
    string, or a [pathlib.Path] given by its string. *)
Inductive upload : Type :=
| NoUpload
| UploadObj (path orig_name name : option pystr)
| UploadStr (s : pystr)
| UploadPath (s : pystr).

(** Truth value of an optional string: neither [None] nor empty. *)
Definition truthy (s : option pystr) : bool :=
  match s with
  | Some (_ :: _) => true
  | _ => false
  end.

(** [bool(f)] *)
Definition upload_truthy (f : upload) : bool :=
  match f with
  | NoUpload => false
  | UploadObj _ _ _ => true
  | UploadStr s => truthy (Some s)
  | UploadPath _ => true
  end.

Definition _get_file_info (f : upload) : option pystr * option pystr :=
  let '(temp_path, orig_name) :=
    match f with
    | UploadObj path orig_name name =>
        (match path with None => name | Some _ => path end, orig_name)
    | UploadStr s | UploadPath s => (Some s, Some (basename s))
    | NoUpload => (None, None)
    end in
  let orig_name :=
    if truthy temp_path && negb (truthy orig_name)
    then basename <$> temp_path
    else orig_name in
  (temp_path, orig_name).

Definition SUPPORTED_EXTENSIONS : list pystr := [lit ".pdf"; lit ".docx"; lit ".txt"].

Definition uploads_dir : pystr := lit "./uploads".

(** What [save_uploads] asks of the file system, whose state is a [disk].
    Nothing is assumed of the answers: each call may raise what it will and
    leave the disk as it will. *)
Record filesystem (disk : Type) : Type := {
  (* os.makedirs(path, exist_ok=True) *)
  fs_makedirs : disk -> pystr -> disk * result unit;
  (* os.path.exists(path) *)
  fs_exists : disk -> pystr -> bool;
  (* with open(dest, "wb") as out, open(temp_path, "rb") as inp:
         out.write(inp.read())                                    *)
  fs_copy : disk -> pystr -> pystr -> disk * result unit
}.

Arguments fs_makedirs {disk} _ _ _.
Arguments fs_exists {disk} _ _ _.
Arguments fs_copy {disk} _ _ _ _.

(** [ensure_dirs()] with the disk as state. *)
Definition ensure_dirs_on {disk : Type} (fs : filesystem disk) (d : disk)
  : disk * result unit :=
  match fs_makedirs fs d (lit "./uploads") with
  | (d1, Ok _) => fs_makedirs fs d1 (lit "./vectorstore")
  | (d1, r) => (d1, r)
  end.

(** The [for f in files] loop of [save_uploads], with the disk and
    [saved_paths] as state.  [fuel] bounds the candidates that one call of
    [make_unique_path] tries. *)
Fixpoint save_loop {disk : Type} (fs : filesystem disk) (fuel : nat) (d : disk)
  (saved_paths : list pystr) (files : list upload) : disk * result (list pystr) :=
  match files with
  | [] => (d, Ok saved_paths)
  | f :: rest =>
      if upload_truthy f then
        match _get_file_info f with
        | (Some (t :: temp), Some (o :: orig)) =>
            let temp_path := t :: temp in
            let orig_name := o :: orig in
            let ext := Py.lower (splitext_ext orig_name) in
            if bool_decide (ext ∈ SUPPORTED_EXTENSIONS) then
              match make_unique_path (fs_exists fs d) fuel uploads_dir orig_name with
              | None => (d, OutOfFuel)
              | Some dest =>
                  match fs_copy fs d dest temp_path with
                  | (d', Ok _) => save_loop fs fuel d' (saved_paths ++ [dest]) rest
                  | (d', Raise e) => (d', Raise e)
                  | (d', OutOfFuel) => (d', OutOfFuel)
                  end
              end
            else save_loop fs fuel d saved_paths rest
        | _ => save_loop fs fuel d saved_paths rest
        end
      else save_loop fs fuel d saved_paths rest
  end.

Definition save_uploads {disk : Type} (fs : filesystem disk) (fuel : nat) (d : disk)
  (files : list upload) : disk * result (list pystr) :=
  match ensure_dirs_on fs d with
  | (d0, Ok _) => save_loop fs fuel d0 [] files
  | (d0, Raise e) => (d0, Raise e)
  | (d0, OutOfFuel) => (d0, OutOfFuel)
  end.

(** [str(len(l))] *)
Definition count_str {A : Type} (l : list A) : pystr :=
  Py.str_of_int (Z.of_nat (length l)).

(** [index_files(uploaded_files)]: the disk as [save_uploads] leaves it and,
    unless an exception of [save_uploads] escapes, the status message and
    whether a vector store is returned.  [w] is what [ingest] is answered
    when the disk is in a given state. *)
Definition index_files {disk : Type} (fs : filesystem disk) (fuel : nat)
  (w : disk -> world) (sv : services)
  (add_texts : list pystr -> list (gmap string pyval) -> result unit)
  (d : disk) (uploaded_files : list upload) : disk * result (pystr * bool) :=
  match save_uploads fs fuel d uploaded_files with
  | (d', Ok []) => (d', Ok (lit "No supported files uploaded.", false))
  | (d', Ok paths) =>
      let outcome :=
        chunks ← ingest (w d') paths;
        _ ← build_vectorstore sv add_texts chunks;
        Ok (lit "Indexed " ++ count_str chunks ++ lit " chunks from "
            ++ count_str paths ++ lit " files.") in
      (d', match outcome with
           | Ok msg => Ok (msg, true)
           | Raise (RuntimeError msg) => Ok (msg, false)
           | Raise e => Ok (lit "Indexing error: " ++ exn_str e, false)
           | OutOfFuel => OutOfFuel
           end)
  | (d', Raise e) => (d', Raise e)
  | (d', OutOfFuel) => (d', OutOfFuel)
  end.

(** What one call of [stream_summary] does. *)
Record summary : Type := {
  s_yields : list pystr;
  s_globals : app_state;
  s_outside : list event;
  s_escaped : option exn
}.

Definition summary_unavailable : pystr :=
  lit "Summary chain is not available. Please index documents first.".

Definition stream_summary (sv : services) (st : app_state) : summary :=
  match ensure_chains sv st with
  | (st', Raise (RuntimeError msg)) =>
      {| s_yields := [msg]; s_globals := st'; s_outside := []; s_escaped := None |}
  | (st', Raise e) =>
      {| s_yields := []; s_globals := st'; s_outside := []; s_escaped := Some e |}
  | (st', OutOfFuel) =>
      {| s_yields := []; s_globals := st'; s_outside := []; s_escaped := None |}
  | (st', Ok _) =>
      match summary_chain st' with
      | None =>
          {| s_yields := [summary_unavailable]; s_globals := st'; s_outside := [];
             s_escaped := None |}
      | Some _ =>
          let r := summary_stream sv in
          {| s_yields :=
               [lit "Summarizing documents..."] ++ streamed r ++
               [match failure r with
                | Some e => lit "Summary error: " ++ exn_str e
                | None => nl ++ nl ++ lit "Done."
                end];
             s_globals := st';
             s_outside := calls r;
             s_escaped := None |}
      end
  end.

(** [summarize_sync()]: the text returned, in the same record, as its only
    yield. *)
Definition summarize_sync (sv : services) (st : app_state) : summary :=
  match ensure_chains sv st with
  | (st', Raise (RuntimeError msg)) =>
      {| s_yields := [msg]; s_globals := st'; s_outside := []; s_escaped := None |}
  | (st', Raise e) =>
      {| s_yields := []; s_globals := st'; s_outside := []; s_escaped := Some e |}
  | (st', OutOfFuel) =>
      {| s_yields := []; s_globals := st'; s_outside := []; s_escaped := None |}
  | (st', Ok _) =>
      match summary_chain st' with
      | None =>
          {| s_yields := [summary_unavailable]; s_globals := st'; s_outside := [];
             s_escaped := None |}
      | Some _ =>
          let r := summary_stream sv in
          let buf :=
            [lit "Summarizing documents..." ++ nl] ++ streamed r ++
            [match failure r with
             | Some e => nl ++ nl ++ lit "Summary error: " ++ exn_str e
             | None => nl ++ nl ++ lit "Done."
             end] in
          {| s_yields := [concat buf]; s_globals := st'; s_outside := calls r;
             s_escaped := None |}
      end
  end.

(** ** Predicates of the statements on further code *)

(** A chunk text as the chunker hands it out: not empty, trimmed, and at
    most [CHUNK_MAX] characters long. *)
Definition chunk_text_ok (t : pystr) : Prop :=
  t ≠ [] /\ Py.strip t = t /\ Py.len t <= CHUNK_MAX.

(** The metadata of a chunk cut from a record with metadata [base]: the
    source is the base name of the record's source, ["unknown"] when the
    record has none, and every key but [source] and [chunk_id] is as in the
    record. *)
Definition inherits (base : gmap string pyval) (c : chunk) : Prop :=
  (exists s, get_or base "source" (VStr (lit "unknown")) = VStr s
             /\ metadata c !! "source" = Some (VStr (basename s)))
  /\ (forall key, key ≠ "source" -> key ≠ "chunk_id" ->
        metadata c !! key = base !! key).

(** The canned replies of [stream_answer]. *)
Definition canned_replies : list unicode :=
  [greeting_reply; wide how_are_you_reply; about_reply; wide thanks_reply;
   wide off_topic_reply].

(** The tokens that [stream_answer] answers with its greeting. *)
Definition greeting_tokens : list pystr :=
  [lit "hi"; lit "hello"; lit "hey"; lit "good morning"; lit "good afternoon";
   lit "good evening"].

(** The windows put back together: the first one, then each following one
    without its first [overlap] characters. *)
Definition stitch (overlap : Z) (windows : list pystr) : pystr :=
  match windows with
  | [] => []
  | w :: rest => w ++ concat (map (drop (Z.to_nat overlap)) rest)
  end.

(** Each window starts with the last [overlap] characters of the one
    before, which is [chunk_max] characters long. *)
Fixpoint overlapping (chunk_max overlap : Z) (windows : list pystr) : Prop :=
  match windows with
  | w :: (w' :: _) as rest =>
      take (Z.to_nat overlap) w' = drop (Z.to_nat (chunk_max - overlap)) w
      /\ Py.len w = chunk_max
      /\ overlapping chunk_max overlap rest
  | _ => True
  end.

(** The words the blocked patterns spell out; of [\bwrite.*story\b] and its
    like, the closing word. *)
Definition block_words : list pystr :=
  [lit "weather"; lit "news"; lit "sports"; lit "movie"; lit "music"; lit "song";
   lit "recipe"; lit "cooking"; lit "food";
   lit "travel"; lit "vacation"; lit "hotel";
   lit "story"; lit "game"; lit "joke"].

(** Literals of which every string matched by a pattern contains one, where
    the shape of the pattern shows it. *)
Fixpoint anchors (r : Re.regex) : option (list pystr) :=
  match r with
  | Re.Str l => Some [l]
  | Re.Cat r1 r2 =>
      match anchors r2 with
      | Some ws => Some ws
      | None => anchors r1
      end
  | Re.Alt r1 r2 =>
      match anchors r1, anchors r2 with
      | Some ws1, Some ws2 => Some (ws1 ++ ws2)
      | _, _ => None
      end
  | _ => None
  end.

(** The temporary path and the name under which [save_uploads] takes a file
    up, if it does: the three tests that make its loop [continue]. *)
Definition accepted (f : upload) : option (pystr * pystr) :=
  if upload_truthy f then
    match _get_file_info f with
    | (Some (t :: temp), Some (o :: orig)) =>
        if bool_decide (Py.lower (splitext_ext (o :: orig)) ∈ SUPPORTED_EXTENSIONS)
        then Some (t :: temp, o :: orig)
        else None
    | _ => None
    end
  else None.

(** * Properties *)

(** ** Python strings *)

Section PyFacts.

Implicit Types s t a b : pystr.

Lemma lstrip_length s : (length (Py.lstrip s) <= length s)%nat.
Proof.
  induction s as [|c s IH]; simpl; [lia|].
  destruct (Chr.is_space c); simpl; lia.
Qed.

Lemma lstrip_app_solid a c t :
  Chr.is_space c = false -> Py.lstrip (a ++ c :: t) = Py.lstrip a ++ c :: t.
Proof.
  intros Hc. induction a as [|d a IH]; simpl.
  - by rewrite Hc.
  - destruct (Chr.is_space d); [exact IH | reflexivity].
Qed.

Lemma lstrip_solid c t : Chr.is_space c = false -> Py.lstrip (c :: t) = c :: t.
Proof. intros Hc. simpl. by rewrite Hc. Qed.

Lemma rstrip_length s : (length (Py.rstrip s) <= length s)%nat.
Proof.
  unfold Py.rstrip. rewrite length_rev.
  etransitivity; [apply lstrip_length|]. by rewrite length_rev.
Qed.

Lemma strip_length s : (length (Py.strip s) <= length s)%nat.
Proof.
  unfold Py.strip. etransitivity; [apply rstrip_length | apply lstrip_length].
Qed.

Lemma strip_len s : Py.len (Py.strip s) <= Py.len s.
Proof. unfold Py.len. pose proof (strip_length s). lia. Qed.

Lemma rstrip_app_solid a c t :
  Chr.is_space c = false -> Py.rstrip (a ++ c :: t) = a ++ c :: Py.rstrip t.
Proof.
  intros Hc. unfold Py.rstrip.
  rewrite rev_app_distr. simpl. rewrite <- app_assoc. simpl.
  rewrite lstrip_app_solid by done.
  rewrite rev_app_distr. simpl. rewrite rev_involutive.
  rewrite <- app_assoc. reflexivity.
Qed.

Lemma lstrip_head s :
  match Py.lstrip s with c :: _ => Chr.is_space c = false | [] => True end.
Proof.
  induction s as [|c s IH]; simpl; [done|].
  destruct (Chr.is_space c) eqn:E; [exact IH | exact E].
Qed.

Lemma rstrip_cons_solid c t :
  Chr.is_space c = false -> Py.rstrip (c :: t) = c :: Py.rstrip t.
Proof. intros Hc. exact (rstrip_app_solid [] c t Hc). Qed.

Lemma strip_idem s : Py.strip (Py.strip s) = Py.strip s.
Proof.
  unfold Py.strip. pose proof (lstrip_head s) as Hh.
  destruct (Py.lstrip s) as [|c u] eqn:Eu; [reflexivity|].
  rewrite (rstrip_cons_solid c u Hh).
  rewrite (lstrip_solid c _ Hh).
  rewrite (rstrip_cons_solid c _ Hh).
  f_equal. unfold Py.rstrip. rewrite rev_involutive.
  pose proof (lstrip_head (rev u)) as Hr.
  destruct (Py.lstrip (rev u)) as [|d v] eqn:Ev; [reflexivity|].
  rewrite (lstrip_solid d v Hr). reflexivity.
Qed.

End PyFacts.

Section SliceFacts.

Implicit Types s : pystr.

Lemma slice_len s lo hi :
  0 <= lo <= hi -> hi <= Py.len s -> Py.len (Py.slice s lo hi) = hi - lo.
Proof.
  intros Hlo Hhi. unfold Py.slice, Py.clamp, Py.len in *.
  destruct (Z.ltb_spec lo 0); [lia|]. destruct (Z.ltb_spec hi 0); [lia|].
  rewrite length_take, length_drop. lia.
Qed.

Lemma slice_all s : Py.slice s 0 (Py.len s) = s.
Proof.
  unfold Py.slice, Py.clamp, Py.len.
  destruct (Z.ltb_spec 0 0); [lia|].
  destruct (Z.ltb_spec (Z.of_nat (length s)) 0); [lia|].
  rewrite Z.min_id, Z.min_l by lia. simpl.
  rewrite Z.sub_0_r, Nat2Z.id. apply firstn_all.
Qed.

End SliceFacts.

(** ** The sentence pattern only matches up to the end of its input *)

Section SentenceBreak.

Local Abbreviation finish := Re.finish.
Local Abbreviation dollar := sentence_dollar.
Local Abbreviation tail := sentence_tail.

Lemma newline_is_space c : Chr.is_newline c = true -> Chr.is_space c = true.
Proof.
  unfold Chr.is_newline, Chr.is_space, Chr.between. intros H%N.eqb_eq.
  rewrite H. reflexivity.
Qed.

Lemma dollar_spaces prev s r :
  dollar prev s = Some r -> forallb Chr.is_space s = true.
Proof.
  unfold dollar. simpl. destruct s as [|c [|d s]]; try done.
  destruct (Chr.is_newline c) eqn:E; [|done].
  intros _. simpl. by rewrite (newline_is_space c E).
Qed.

Lemma tail_spaces s : forall prev r,
  tail prev s = Some r -> forallb Chr.is_space s = true.
Proof.
  unfold tail. induction s as [|c s IH]; intros prev r; simpl.
  - done.
  - destruct (Chr.is_space_not_nl c) eqn:E.
    + destruct (Re.star Chr.is_space_not_nl (Some c) s dollar) eqn:E1.
      * intros _. apply andb_true_iff in E as [-> _]. simpl. eauto.
      * apply (dollar_spaces prev (c :: s)).
    + apply (dollar_spaces prev (c :: s)).
Qed.

Lemma spaces_to_end s : forall prev,
  forallb Chr.is_space s = true -> Re.star Chr.is_space prev s tail = Some [].
Proof.
  induction s as [|c s IH]; intros prev; simpl.
  - done.
  - intros [-> Hs]%andb_true_iff. by rewrite IH.
Qed.

Lemma space_run_to_end s : forall prev r,
  Re.star Chr.is_space prev s tail = Some r -> r = [].
Proof.
  induction s as [|c s IH]; intros prev r; simpl.
  - unfold tail, dollar, finish. simpl. congruence.
  - destruct (Chr.is_space c) eqn:E.
    + destruct (Re.star Chr.is_space (Some c) s tail) as [r'|] eqn:E1.
      * intros [= <-]. eauto.
      * intros H. pose proof (tail_spaces _ _ _ H) as Hall.
        simpl in Hall. apply andb_true_iff in Hall as [_ Hall].
        rewrite (spaces_to_end s (Some c) Hall) in E1. done.
    + intros H. pose proof (tail_spaces _ _ _ H) as Hall.
      simpl in Hall. rewrite E in Hall. done.
Qed.

Lemma sentence_break_rest prev s r :
  Re.rmatch sentence_break prev s finish = Some r -> r = [].
Proof.
  unfold sentence_break, Re.Plus. simpl.
  destruct s as [|c s]; [done|].
  destruct (Chr.is_terminator c); [|done].
  destruct s as [|d s]; [done|].
  destruct (Chr.is_space d); [|done].
  apply space_run_to_end.
Qed.

Lemma search_from_unfold r prev s i :
  Re.search_from r prev s i =
  match Re.rmatch r prev s finish with
  | Some rest => Some {| Re.m_start := i; Re.m_end := i + (Py.len s - Py.len rest) |}
  | None =>
      match s with
      | [] => None
      | c :: s' => Re.search_from r (Some c) s' (i + 1)
      end
  end.
Proof. destruct s; reflexivity. Qed.

Lemma sentence_break_needs_two prev s r :
  Re.rmatch sentence_break prev s finish = Some r -> 2 <= Py.len s.
Proof.
  unfold sentence_break, Re.Plus, Py.len. simpl.
  destruct s as [|c [|d s]]; simpl; try done.
  - by destruct (Chr.is_terminator c).
  - intros _. lia.
Qed.

Lemma sentence_break_search_from s : forall prev i m,
  Re.search_from sentence_break prev s i = Some m ->
  Re.m_end m = i + Py.len s /\ 2 <= Py.len s.
Proof.
  induction s as [|c s IH]; intros prev i m; rewrite search_from_unfold.
  - destruct (Re.rmatch sentence_break prev [] finish) eqn:E; [|done].
    by apply sentence_break_needs_two in E.
  - destruct (Re.rmatch sentence_break prev (c :: s) finish) as [r|] eqn:E.
    + pose proof (sentence_break_rest _ _ _ E) as ->.
      apply sentence_break_needs_two in E.
      intros [= <-]. simpl. split; [|done]. unfold Py.len. simpl. lia.
    + intros H. apply IH in H as [-> ?]. unfold Py.len in *. simpl. lia.
Qed.

(** [m.end()] of the pattern of [char_chunk_text] is always [len(window)]. *)
Lemma sentence_break_end window m :
  Re.search sentence_break window = Some m -> Re.m_end m = Py.len window.
Proof. intros H. apply sentence_break_search_from in H as [-> _]. lia. Qed.

Lemma sentence_break_two window m :
  Re.search sentence_break window = Some m -> 2 <= Py.len window.
Proof. intros H. by apply sentence_break_search_from in H as [_ ?]. Qed.

End SentenceBreak.

(** ** The chunker *)

Section Chunker.

Variables (text : pystr) (chunk_min chunk_max overlap : Z).

Local Abbreviation n := (Py.len text).

Local Abbreviation hard_end := (hard_end text chunk_max).
Local Abbreviation window_at := (window_at text chunk_max).

Lemma window_len start :
  0 <= chunk_max -> 0 <= start <= n -> Py.len (window_at start) = hard_end start - start.
Proof.
  intros Hmax Hs. unfold window_at, hard_end. apply slice_len; lia.
Qed.

(** Both branches of the loop body cut at the hard boundary: the match,
    when there is one, ends where the window ends. *)
Lemma chunk_step_hard start :
  0 <= chunk_max -> 0 <= start <= n ->
  chunk_step text n chunk_min chunk_max start = (window_at start, hard_end start).
Proof.
  intros Hmax Hs. unfold chunk_step.
  fold (hard_end start). fold (window_at start).
  destruct (Re.search sentence_break (window_at start)) as [m|] eqn:E; [|done].
  destruct (chunk_min <=? Py.len (window_at start)); [|done].
  rewrite (sentence_break_end _ _ E), window_len by done.
  replace (start + (hard_end start - start)) with (hard_end start) by lia.
  reflexivity.
Qed.

Lemma chunk_step_end start :
  0 <= start <= n ->
  (chunk_step text n chunk_min chunk_max start).2 = hard_end start
  \/ (chunk_max < 0 /\ start < (chunk_step text n chunk_min chunk_max start).2).
Proof.
  intros Hs. destruct (Z.le_gt_cases 0 chunk_max) as [Hmax|Hmax].
  - left. by rewrite chunk_step_hard.
  - unfold chunk_step. fold (hard_end start). fold (window_at start).
    destruct (Re.search sentence_break (window_at start)) as [m|] eqn:E; [|by left].
    destruct (chunk_min <=? Py.len (window_at start)); [|by left].
    right. split; [lia|]. simpl.
    rewrite (sentence_break_end _ _ E).
    pose proof (sentence_break_two _ _ E). lia.
Qed.

(** The loop leaves when the window reaches the end of the text. *)
Lemma chunk_step_exit start :
  0 <= start <= n -> n <= start + chunk_max ->
  n <= (chunk_step text n chunk_min chunk_max start).2.
Proof.
  intros Hs Hreach. rewrite chunk_step_hard by lia. unfold hard_end. simpl. lia.
Qed.

(** Otherwise the next start lies strictly after the current one. *)
Lemma chunk_step_progress start :
  overlap < chunk_max -> 0 <= start <= n ->
  (chunk_step text n chunk_min chunk_max start).2 < n ->
  start < Z.max 0 ((chunk_step text n chunk_min chunk_max start).2 - overlap).
Proof.
  intros Hov Hs Hlt.
  destruct (chunk_step_end start Hs) as [He|[Hneg He]].
  - rewrite He in *. unfold hard_end in *. lia.
  - lia.
Qed.

Lemma chunk_loop_total fuel : forall start chunks,
  overlap < chunk_max -> 0 <= start ->
  (Z.to_nat (n - start) < fuel)%nat ->
  is_Some (chunk_loop fuel text n chunk_min chunk_max overlap start chunks).
Proof.
  induction fuel as [|fuel IH]; intros start chunks Hov Hs Hfuel; [lia|].
  simpl. destruct (Z.ltb_spec start n) as [Hlt|Hge]; [|by eexists].
  pose proof (chunk_step_progress start Hov ltac:(lia)) as Hprog.
  destruct (chunk_step text n chunk_min chunk_max start) as [chunk e].
  simpl in Hprog.
  destruct (Z.leb_spec n e) as [Hle|Hgt]; [by eexists|].
  apply IH; [done|lia|]. specialize (Hprog Hgt). lia.
Qed.

(** More fuel does not change a result. *)
Lemma chunk_loop_mono fuel : forall fuel' start chunks r,
  (fuel <= fuel')%nat ->
  chunk_loop fuel text n chunk_min chunk_max overlap start chunks = Some r ->
  chunk_loop fuel' text n chunk_min chunk_max overlap start chunks = Some r.
Proof.
  induction fuel as [|fuel IH]; intros fuel' start chunks r Hle; [done|].
  destruct fuel' as [|fuel']; [lia|]. simpl.
  destruct (start <? n); [|done].
  destruct (chunk_step text n chunk_min chunk_max start) as [chunk e].
  destruct (n <=? e); [done|]. apply IH. lia.
Qed.

Lemma all_but_last_cons (P : pystr -> Prop) w l :
  P w -> all_but_last P l -> all_but_last P (w :: l).
Proof. destruct l; simpl; auto. Qed.

Lemma all_but_last_lookup (P : pystr -> Prop) l :
  all_but_last P l ->
  forall i w, l !! i = Some w -> (S i < length l)%nat -> P w.
Proof.
  induction l as [|x l IH]; intros H i w Hi Hlen; [done|].
  destruct l as [|y l]; [simpl in Hlen; lia|].
  destruct H as [Hx Hrest]. destruct i as [|i].
  - by injection Hi as <-.
  - apply (IH Hrest i w Hi). simpl in *. lia.
Qed.

(** The chunks the loop appends are the windows of its passes: none is
    longer than [chunk_max], and all but the last are full. *)
Lemma chunk_loop_windows fuel : forall start chunks r,
  0 <= chunk_max -> 0 <= start ->
  chunk_loop fuel text n chunk_min chunk_max overlap start chunks = Some r ->
  exists ws, r = chunks ++ ws
    /\ Forall (fun w => Py.len w <= chunk_max) ws
    /\ all_but_last (fun w => Py.len w = chunk_max) ws.
Proof.
  induction fuel as [|fuel IH]; intros start chunks r Hmax Hs; [done|].
  simpl. destruct (Z.ltb_spec start n) as [Hlt|Hge].
  - rewrite chunk_step_hard by lia.
    pose proof (window_len start Hmax ltac:(lia)) as Hlen.
    destruct (Z.leb_spec n (hard_end start)) as [Hle|Hgt].
    + intros [= <-]. exists [window_at start]. split; [done|].
      split; [|done]. constructor; [|done]. unfold hard_end in *. lia.
    + intros H. apply IH in H as (ws & -> & Hall & Hfull); [|done|lia].
      exists (window_at start :: ws). split; [by rewrite <- app_assoc|].
      unfold hard_end in *. split.
      * constructor; [lia|done].
      * apply all_but_last_cons; [lia|done].
  - intros [= <-]. exists []. by rewrite app_nil_r.
Qed.

(** The chunks the loop appends are those of its passes, one per start;
    a pass that is not the last has its hard boundary inside the text. *)
Lemma chunk_loop_passes fuel : forall start chunks r,
  0 <= chunk_max -> 0 <= start ->
  chunk_loop fuel text n chunk_min chunk_max overlap start chunks = Some r ->
  exists starts,
    pass_starts fuel text n chunk_min chunk_max overlap start = Some starts
    /\ r = chunks ++ map (fun s => (chunk_step text n chunk_min chunk_max s).1) starts
    /\ Forall (fun s => 0 <= s < n) starts
    /\ (forall i s, starts !! i = Some s -> (S i < length starts)%nat ->
          s + chunk_max < n).
Proof.
  induction fuel as [|fuel IH]; intros start chunks r Hmax Hs; [done|].
  simpl. destruct (Z.ltb_spec start n) as [Hlt|Hge].
  - pose proof (chunk_step_hard start Hmax ltac:(lia)) as Hstep.
    destruct (chunk_step text n chunk_min chunk_max start) as [chunk e] eqn:E.
    injection Hstep as -> ->.
    destruct (Z.leb_spec n (hard_end start)) as [Hle|Hgt].
    + intros [= <-]. exists [start]. split; [done|]. simpl. rewrite E. simpl.
      split; [done|]. split; [constructor; [lia|done]|].
      intros i s Hi Hlen. simpl in Hlen. lia.
    + intros H. apply IH in H as (starts & -> & -> & Hin & Hfull); [|done|lia].
      exists (start :: starts). split; [done|]. simpl. rewrite E. simpl.
      split; [by rewrite <- app_assoc|]. split; [constructor; [lia|done]|].
      intros [|i] s Hi Hlen.
      * injection Hi as <-. unfold hard_end in Hgt. lia.
      * apply (Hfull i s Hi). simpl in Hlen. lia.
  - intros [= <-]. exists []. rewrite app_nil_r.
    split; [done|]. split; [done|]. split; [done|]. intros i s Hi. done.
Qed.

End Chunker.

Section ChunkerResults.

Variables (text : pystr) (chunk_min chunk_max overlap : Z).

Lemma strip_nonempty_elem (ws : list pystr) c :
  c ∈ strip_nonempty ws -> exists w, w ∈ ws /\ c = Py.strip w /\ c ≠ [].
Proof.
  unfold strip_nonempty. intros (w & Hw & Hc)%list_elem_of_omap.
  exists w. split; [done|]. destruct (Py.strip w) eqn:E; [done|].
  by injection Hc as <-.
Qed.

Lemma raw_chunks_total fuel :
  overlap < chunk_max -> (length (Py.strip text) < fuel)%nat ->
  is_Some (raw_chunks fuel text chunk_min chunk_max overlap).
Proof.
  intros Hov Hfuel. unfold raw_chunks.
  apply chunk_loop_total; [done|lia|]. unfold Py.len. lia.
Qed.

Lemma raw_chunks_mono fuel fuel' r :
  (fuel <= fuel')%nat ->
  raw_chunks fuel text chunk_min chunk_max overlap = Some r ->
  raw_chunks fuel' text chunk_min chunk_max overlap = Some r.
Proof. unfold raw_chunks. apply chunk_loop_mono. Qed.

End ChunkerResults.

(** C9.  Whenever [overlap < chunk_max], [char_chunk_text] returns: one loop
    test per character of the trimmed text and one more are enough, and
    more fuel gives the same chunks.  In a pass that starts inside the text,
    the loop leaves when the window reaches the end of the text, and
    otherwise the next start lies strictly after the current one. *)
Theorem char_chunk_text_terminates (text : pystr) (chunk_min chunk_max overlap : Z) :
  overlap < chunk_max ->
  (forall fuel, (length (Py.strip text) < fuel)%nat ->
     is_Some (char_chunk_text fuel text chunk_min chunk_max overlap))
  /\ (forall fuel fuel' r, (fuel <= fuel')%nat ->
        char_chunk_text fuel text chunk_min chunk_max overlap = Some r ->
        char_chunk_text fuel' text chunk_min chunk_max overlap = Some r)
  /\ (forall start, 0 <= start < Py.len (Py.strip text) ->
        let end_ :=
          (chunk_step (Py.strip text) (Py.len (Py.strip text)) chunk_min chunk_max
             start).2 in
        (Py.len (Py.strip text) <= start + chunk_max ->
           Py.len (Py.strip text) <= end_)
        /\ (end_ < Py.len (Py.strip text) -> start < Z.max 0 (end_ - overlap))).
Proof.
  intros Hov. split; [|split].
  - intros fuel Hfuel. unfold char_chunk_text.
    destruct (raw_chunks_total text chunk_min chunk_max overlap fuel Hov Hfuel)
      as [ws ->]. by eexists.
  - intros fuel fuel' r Hle. unfold char_chunk_text.
    destruct (raw_chunks fuel text chunk_min chunk_max overlap) as [ws|] eqn:E; [|done].
    by rewrite (raw_chunks_mono _ _ _ _ _ _ _ Hle E).
  - intros start Hs end_. subst end_. split.
    + apply chunk_step_exit. lia.
    + apply chunk_step_progress; [done|lia].
Qed.

Lemma char_chunk_text_terminates_witness :
  CHUNK_OVERLAP < CHUNK_MAX
  /\ is_Some (char_chunk_text 12 (lit "Clause one.") CHUNK_MIN CHUNK_MAX CHUNK_OVERLAP).
Proof.
  split; [reflexivity|].
  apply (char_chunk_text_terminates (lit "Clause one.") CHUNK_MIN CHUNK_MAX CHUNK_OVERLAP).
  - reflexivity.
  - vm_compute. lia.
Defined.

(** C4, as the code has it.  With [0 <= chunk_max] and
    [overlap < chunk_max] the chunker returns, and every chunk it hands out
    is at most [chunk_max] long.  The chunks of the loop are those of its
    passes, one per start.  For a pass that is not the last, the chunk
    measured before the trimming has [chunk_min] characters when the pass
    takes the sentence branch (the pattern matches the window and the
    window has [chunk_min] characters), and is otherwise the hard cut
    [text[start : start + chunk_max]]. *)
Theorem chunk_bounds_before_trimming
  (text : pystr) (chunk_min chunk_max overlap : Z) (fuel : nat) :
  0 <= chunk_max -> overlap < chunk_max -> (length (Py.strip text) < fuel)%nat ->
  let t := Py.strip text in
  let n := Py.len t in
  exists windows starts,
    raw_chunks fuel text chunk_min chunk_max overlap = Some windows
    /\ char_chunk_text fuel text chunk_min chunk_max overlap
       = Some (strip_nonempty windows)
    /\ pass_starts fuel t n chunk_min chunk_max overlap 0 = Some starts
    /\ windows = map (fun s => (chunk_step t n chunk_min chunk_max s).1) starts
    /\ (forall c, c ∈ strip_nonempty windows -> Py.len c <= chunk_max)
    /\ (forall i s, starts !! i = Some s -> (S i < length starts)%nat ->
          let window := Py.slice t s (Z.min (s + chunk_max) n) in
          let chunk := (chunk_step t n chunk_min chunk_max s).1 in
          if takes_sentence_cut chunk_min window
          then chunk_min <= Py.len chunk
          else chunk = Py.slice t s (s + chunk_max)).
Proof.
  intros Hmax Hov Hfuel t n.
  destruct (raw_chunks_total text chunk_min chunk_max overlap fuel Hov Hfuel)
    as [ws Hws].
  assert (chunk_loop fuel t n chunk_min chunk_max overlap 0 [] = Some ws) as Hloop
    by exact Hws.
  destruct (chunk_loop_passes t chunk_min chunk_max overlap fuel 0 [] ws Hmax
              ltac:(lia) Hloop) as (starts & Hstarts & Hmap & Hin & Hfull).
  simpl in Hmap.
  destruct (chunk_loop_windows t chunk_min chunk_max overlap fuel 0 [] ws Hmax
              ltac:(lia) Hloop) as (ws' & Heq & Hall & _).
  simpl in Heq. subst ws'.
  exists ws, starts.
  split; [exact Hws|].
  split; [unfold char_chunk_text; by rewrite Hws|].
  split; [done|]. split; [done|]. split.
  - intros c (w & Hw & -> & _)%strip_nonempty_elem.
    rewrite Forall_forall in Hall. specialize (Hall w Hw).
    pose proof (strip_len w). lia.
  - intros i s Hi Hlast window chunk. subst window chunk.
    rewrite Forall_forall in Hin.
    assert (0 <= s < n) as Hs by (apply Hin; by eapply list_elem_of_lookup_2).
    pose proof (Hfull i s Hi Hlast) as Hinside.
    subst n.
    rewrite (chunk_step_hard t chunk_min chunk_max s Hmax ltac:(lia)).
    unfold window_at, hard_end. simpl.
    rewrite Z.min_l by lia.
    unfold takes_sentence_cut.
    destruct (bool_decide _); simpl; [|done].
    destruct (Z.leb_spec chunk_min (Py.len (Py.slice t s (s + chunk_max)))); done.
Qed.

Lemma chunk_bounds_before_trimming_witness :
  0 <= 13 /\ 2 < 13 /\ (length (Py.strip (lit "  Hello world. Foo bar baz ")) < 30)%nat
  /\ exists windows starts,
       raw_chunks 30 (lit "  Hello world. Foo bar baz ") 5 13 2 = Some windows
       /\ char_chunk_text 30 (lit "  Hello world. Foo bar baz ") 5 13 2
          = Some (strip_nonempty windows)
       /\ pass_starts 30 (lit "Hello world. Foo bar baz") 24 5 13 2 0 = Some starts
       /\ windows
          = map (fun s => (chunk_step (lit "Hello world. Foo bar baz") 24 5 13 s).1)
              starts
       /\ (forall c, c ∈ strip_nonempty windows -> Py.len c <= 13)
       /\ (forall i s, starts !! i = Some s -> (S i < length starts)%nat ->
             let window :=
               Py.slice (lit "Hello world. Foo bar baz") s (Z.min (s + 13) 24) in
             let chunk := (chunk_step (lit "Hello world. Foo bar baz") 24 5 13 s).1 in
             if takes_sentence_cut 5 window
             then 5 <= Py.len chunk
             else chunk = Py.slice (lit "Hello world. Foo bar baz") s (s + 13)).
Proof.
  assert (H1 : 0 <= 13) by lia.
  assert (H2 : 2 < 13) by lia.
  assert (H3 : (length (Py.strip (lit "  Hello world. Foo bar baz ")) < 30)%nat)
    by (vm_compute; lia).
  split; [exact H1|]. split; [exact H2|]. split; [exact H3|].
  exact (chunk_bounds_before_trimming (lit "  Hello world. Foo bar baz ") 5 13 2 30
           H1 H2 H3).
Defined.

(** C4, counterexample.  On [spaced_text] the first pass finds a qualifying
    sentence boundary, and the chunk handed out for it, which is not the
    last, has 701 characters, fewer than [CHUNK_MIN]. *)
Lemma chunk_bounds_fail_after_trimming :
  ~ chunk_bounds_as_stated spaced_text CHUNK_MIN CHUNK_MAX CHUNK_OVERLAP.
Proof.
  intros H.
  destruct (H 3%nat [Py.slice spaced_text 0 1200; Py.slice spaced_text 1000 1210])
    as [_ Hmin]; [by vm_compute|].
  destruct (Hmin 0%nat (Py.slice spaced_text 0 1200)) as [Hlen|Hcut].
  - reflexivity.
  - by vm_compute.
  - exists 1%nat, (Py.slice spaced_text 1000 1210). split; [lia|].
    split; [reflexivity|by vm_compute].
  - vm_compute in Hlen. by apply Hlen.
  - vm_compute in Hcut. done.
Qed.

(** C3.  Whatever the window, a match of the pattern ends where the window
    ends, so the first branch of the loop body never cuts before the hard
    boundary.  On [two_sentences] the first window holds a sentence boundary
    at offset 1000, past [CHUNK_MIN]: the loop body worded by the
    specification cuts there, the loop body of the code cuts at the hard
    boundary 1200, and so do the chunks handed out. *)
Theorem sentence_boundary_not_used :
  (forall window,
     match Re.search sentence_break window with
     | Some m => Re.m_end m = Py.len window
     | None => True
     end)
  /\ Py.len two_sentences = 1500
  /\ spec_last_boundary (window_at two_sentences CHUNK_MAX 0) = Some 1000
  /\ spec_chunk_step two_sentences 1500 CHUNK_MIN CHUNK_MAX 0
     = (Py.slice two_sentences 0 1000, 1000)
  /\ chunk_step two_sentences 1500 CHUNK_MIN CHUNK_MAX 0
     = (Py.slice two_sentences 0 1200, 1200)
  /\ char_chunk_text 3 two_sentences CHUNK_MIN CHUNK_MAX CHUNK_OVERLAP
     = Some [Py.slice two_sentences 0 1200; Py.slice two_sentences 1000 1500].
Proof.
  split.
  - intros window.
    destruct (Re.search sentence_break window) as [m|] eqn:E; [|done].
    by apply sentence_break_end.
  - repeat split; vm_compute; reflexivity.
Qed.

(** C8, counterexample.  A text of one space is not empty and is shorter
    than [CHUNK_MIN], and the chunker hands out no chunk for it. *)
Lemma blank_text_no_chunk :
  lit " " ≠ [] /\ Py.len (lit " ") < CHUNK_MIN
  /\ char_chunk_text 1 (lit " ") CHUNK_MIN CHUNK_MAX CHUNK_OVERLAP = Some []
  /\ forall fuel,
       char_chunk_text fuel (lit " ") CHUNK_MIN CHUNK_MAX CHUNK_OVERLAP
       ≠ Some [lit " "].
Proof.
  split; [done|]. split; [reflexivity|]. split; [reflexivity|].
  intros [|fuel]; [done|]. vm_compute. done.
Qed.

(** C8, as the code has it.  When the trimmed text is not empty and is
    shorter than [chunk_min], with [chunk_min <= chunk_max], the chunker
    hands out exactly one chunk, the trimmed text. *)
Theorem short_text_one_chunk
  (text : pystr) (chunk_min chunk_max overlap : Z) (fuel : nat) :
  Py.strip text ≠ [] -> Py.len (Py.strip text) < chunk_min ->
  chunk_min <= chunk_max -> (0 < fuel)%nat ->
  char_chunk_text fuel text chunk_min chunk_max overlap = Some [Py.strip text].
Proof.
  intros Hne Hshort Hmax Hfuel.
  destruct fuel as [|fuel]; [lia|].
  unfold char_chunk_text, raw_chunks. simpl.
  assert (0 < Py.len (Py.strip text)) as Hpos.
  { unfold Py.len. destruct (Py.strip text); [done|simpl; lia]. }
  destruct (Z.ltb_spec 0 (Py.len (Py.strip text))); [|lia].
  rewrite chunk_step_hard by lia.
  unfold window_at, hard_end. rewrite Z.min_r by lia.
  destruct (Z.leb_spec (Py.len (Py.strip text)) (Py.len (Py.strip text))); [|lia].
  rewrite slice_all. simpl. rewrite strip_idem.
  by destruct (Py.strip text).
Qed.

Lemma short_text_one_chunk_witness :
  Py.strip (lit "  Party A pays. ") ≠ []
  /\ Py.len (Py.strip (lit "  Party A pays. ")) < CHUNK_MIN
  /\ CHUNK_MIN <= CHUNK_MAX /\ (0 < 1)%nat
  /\ char_chunk_text 1 (lit "  Party A pays. ") CHUNK_MIN CHUNK_MAX CHUNK_OVERLAP
     = Some [lit "Party A pays."].
Proof.
  assert (H1 : Py.strip (lit "  Party A pays. ") ≠ []) by (vm_compute; discriminate).
  assert (H2 : Py.len (Py.strip (lit "  Party A pays. ")) < CHUNK_MIN) by reflexivity.
  assert (H3 : CHUNK_MIN <= CHUNK_MAX) by (vm_compute; discriminate).
  assert (H4 : (0 < 1)%nat) by lia.
  split; [exact H1|]. split; [exact H2|]. split; [exact H3|]. split; [exact H4|].
  exact (short_text_one_chunk (lit "  Party A pays. ") CHUNK_MIN CHUNK_MAX
           CHUNK_OVERLAP 1 H1 H2 H3 H4).
Defined.

(** ** Substrings *)

Section Contains.

Implicit Types p s a b : pystr.

Lemma startswith_app p b : Py.startswith p (p ++ b) = true.
Proof.
  induction p as [|c p IH]; simpl; [done|].
  by rewrite Ascii.eqb_refl, IH.
Qed.

Lemma startswith_inv p : forall s,
  Py.startswith p s = true -> exists b, s = p ++ b.
Proof.
  induction p as [|c p IH]; intros s; simpl.
  - intros _. by exists s.
  - destruct s as [|d s]; [done|].
    intros [Hc Hp]%andb_true_iff. apply Ascii.eqb_eq in Hc as ->.
    destruct (IH s Hp) as [b ->]. by exists b.
Qed.

Lemma contains_unfold p s :
  Py.contains p s =
  Py.startswith p s || match s with [] => false | _ :: s' => Py.contains p s' end.
Proof. by destruct s. Qed.

Lemma contains_app p a b : Py.contains p (a ++ p ++ b) = true.
Proof.
  induction a as [|c a IH].
  - simpl. rewrite contains_unfold, startswith_app. done.
  - simpl. rewrite IH. apply orb_true_r.
Qed.

Lemma contains_inv p : forall s,
  Py.contains p s = true -> exists a b, s = a ++ p ++ b.
Proof.
  induction s as [|c s IH]; rewrite contains_unfold.
  - rewrite orb_false_r. intros [b ->]%startswith_inv. by exists [], b.
  - intros [H|H]%orb_true_iff.
    + apply startswith_inv in H as [b ->]. by exists [], b.
    + destruct (IH H) as (a & b & ->). by exists (c :: a), b.
Qed.

(** Lower-casing keeps an occurrence of a lower-case token. *)
Lemma contains_lower t s :
  Py.lower t = t -> Py.contains t s = true -> Py.contains t (Py.lower s) = true.
Proof.
  intros Ht (a & b & ->)%contains_inv. unfold Py.lower in *.
  rewrite !map_app, Ht. apply contains_app.
Qed.

(** Trimming keeps an occurrence of a token with solid ends. *)
Lemma contains_strip t s :
  solid_ends t = true -> Py.contains t s = true -> Py.contains t (Py.strip s) = true.
Proof.
  unfold solid_ends. intros Ht (a & b & ->)%contains_inv.
  destruct t as [|c t]; [done|].
  destruct (rev (c :: t)) as [|d u] eqn:Er; [done|].
  apply andb_true_iff in Ht as [Hc%negb_true_iff Hd%negb_true_iff].
  assert (c :: t = rev u ++ [d]) as Hlast.
  { rewrite <- (rev_involutive (c :: t)), Er. reflexivity. }
  unfold Py.strip. simpl. rewrite lstrip_app_solid by done.
  change (c :: t ++ b) with ((c :: t) ++ b). rewrite Hlast.
  rewrite <- !app_assoc. simpl.
  rewrite (app_assoc (Py.lstrip a) (rev u) (d :: b)).
  rewrite rstrip_app_solid by done.
  rewrite <- app_assoc.
  change (d :: Py.rstrip b) with ([d] ++ Py.rstrip b).
  rewrite (app_assoc (rev u) [d]). apply contains_app.
Qed.

Lemma any_in_intro tokens t q :
  t ∈ tokens -> Py.contains t q = true -> any_in tokens q = true.
Proof.
  intros Hin Hc. unfold any_in. apply existsb_exists.
  exists t. split; [by apply list_elem_of_In|done].
Qed.

End Contains.

(** ** The topical guard *)

Lemma allow_list_shape :
  Forall (fun t => Py.lower t = t /\ solid_ends t = true)
    (greetings ++ assistant_phrases).
Proof. repeat constructor. Qed.

Lemma guard_allows_token (question token : pystr) :
  token ∈ greetings ++ assistant_phrases ->
  Py.contains token (Py.lower question) = true ->
  guard_unrelated question = false.
Proof.
  intros Hin Hc.
  pose proof allow_list_shape as Hshape. rewrite Forall_forall in Hshape.
  destruct (Hshape token Hin) as [_ Hsolid].
  pose proof (contains_strip _ _ Hsolid Hc) as Hq.
  unfold guard_unrelated.
  apply elem_of_app in Hin as [Hin|Hin].
  - by rewrite (any_in_intro _ _ _ Hin Hq).
  - rewrite (any_in_intro _ _ _ Hin Hq). by destruct (any_in greetings _).
Qed.

(** C5.  A question that contains an allow-listed token is classed on-topic,
    whatever blocked pattern it matches; the question "hi, what's the
    weather" matches a blocked pattern and is allowed. *)
Theorem allow_list_precedence (question token : pystr) :
  token ∈ greetings ++ assistant_phrases ->
  Py.contains token question = true ->
  guard_unrelated question = false
  /\ matches_unrelated (Py.strip (Py.lower (lit "hi, what's the weather"))) = true
  /\ guard_unrelated (lit "hi, what's the weather") = false.
Proof.
  intros Hin Hc. split; [|split; vm_compute; reflexivity].
  apply (guard_allows_token question token Hin).
  pose proof allow_list_shape as Hshape. rewrite Forall_forall in Hshape.
  destruct (Hshape token Hin) as [Hlow _].
  by apply contains_lower.
Qed.

Lemma allow_list_precedence_witness :
  lit "help" ∈ greetings ++ assistant_phrases
  /\ Py.contains (lit "help") (lit "help me cook some food") = true
  /\ matches_unrelated (Py.strip (Py.lower (lit "help me cook some food"))) = true
  /\ guard_unrelated (lit "help me cook some food") = false.
Proof.
  assert (H1 : lit "help" ∈ greetings ++ assistant_phrases).
  { apply list_elem_of_In. vm_compute. tauto. }
  assert (H2 : Py.contains (lit "help") (lit "help me cook some food") = true)
    by reflexivity.
  split; [exact H1|]. split; [exact H2|]. split; [reflexivity|].
  exact (proj1 (allow_list_precedence (lit "help me cook some food") (lit "help") H1 H2)).
Defined.

(** C10.  The allow-list is tested by substring on the lower-cased question:
    a question with "hi" anywhere in it, inside a word too, is classed
    on-topic whatever blocked pattern it matches, as "is this about the
    weather" and "shipping news" show. *)
Theorem hi_substring_allows (question : pystr) :
  Py.contains (lit "hi") (Py.lower question) = true ->
  guard_unrelated question = false
  /\ matches_unrelated (Py.strip (Py.lower (lit "is this about the weather"))) = true
  /\ guard_unrelated (lit "is this about the weather") = false
  /\ matches_unrelated (Py.strip (Py.lower (lit "shipping news"))) = true
  /\ guard_unrelated (lit "shipping news") = false.
Proof.
  intros Hc. split; [|repeat split; vm_compute; reflexivity].
  apply (guard_allows_token question (lit "hi")); [|done].
  apply list_elem_of_In. vm_compute. tauto.
Qed.

Lemma hi_substring_allows_witness :
  Py.contains (lit "hi") (Py.lower (lit "Shipping NEWS and sports")) = true
  /\ matches_unrelated (Py.strip (Py.lower (lit "Shipping NEWS and sports"))) = true
  /\ guard_unrelated (lit "Shipping NEWS and sports") = false.
Proof.
  assert (H1 : Py.contains (lit "hi") (Py.lower (lit "Shipping NEWS and sports")) = true)
    by reflexivity.
  split; [exact H1|]. split; [reflexivity|].
  exact (proj1 (hi_substring_allows (lit "Shipping NEWS and sports") H1)).
Defined.

(** ** Citations *)

Section Dedup.

Implicit Types l cites uniq : list pystr.

Lemma first_occurrences_elem l x : x ∈ first_occurrences l <-> x ∈ l.
Proof.
  induction l as [|y l IH]; simpl; [done|].
  rewrite !elem_of_cons, list_elem_of_filter, IH.
  destruct (decide (x = y)); tauto.
Qed.

Lemma first_occurrences_NoDup l : NoDup (first_occurrences l).
Proof.
  induction l as [|y l IH]; simpl; constructor.
  - rewrite list_elem_of_filter. tauto.
  - by apply NoDup_filter.
Qed.

Lemma first_occurrences_sublist l : first_occurrences l `sublist_of` l.
Proof.
  induction l as [|y l IH]; simpl; [done|].
  apply sublist_skip. etransitivity; [apply sublist_filter|done].
Qed.

Lemma filter_fresh_cons uniq c l :
  filter (fun y => y ∉ uniq ++ [c]) l
  = filter (fun y => y ∉ uniq) (filter (fun y => y ≠ c) l).
Proof.
  rewrite list_filter_filter. apply list_filter_iff.
  intros y. rewrite elem_of_app, list_elem_of_singleton. tauto.
Qed.

Lemma filter_seen_cons uniq c l :
  c ∈ uniq ->
  filter (fun y => y ∉ uniq) (filter (fun y => y ≠ c) l)
  = filter (fun y => y ∉ uniq) l.
Proof.
  intros Hc. rewrite list_filter_filter. apply list_filter_iff.
  intros y. split; [tauto|]. intros Hy. split; [done|]. by intros ->.
Qed.

Lemma filter_fresh_nil l : filter (fun y => y ∉ []) l = l.
Proof.
  induction l as [|x l IH]; [done|].
  rewrite filter_cons_True by apply not_elem_of_nil. by rewrite IH.
Qed.

(** The loop keeps in [seen] what it has put in [uniq], and appends the
    first occurrences it has not seen. *)
Lemma dedup_fold cites : forall uniq (seen : gset pystr),
  (forall x, x ∈ seen <-> x ∈ uniq) ->
  (foldl dedup_step (uniq, seen) cites).1
  = uniq ++ filter (fun y => y ∉ uniq) (first_occurrences cites).
Proof.
  induction cites as [|c cites IH]; intros uniq seen Hseen; simpl.
  - by rewrite app_nil_r.
  - destruct (decide (c ∈ seen)) as [Hin|Hout].
    + rewrite (IH uniq seen Hseen).
      apply Hseen in Hin.
      rewrite filter_cons_False by tauto.
      by rewrite filter_seen_cons.
    + rewrite (IH (uniq ++ [c]) (seen ∪ {[c]})).
      * rewrite Hseen in Hout. rewrite filter_cons_True by done.
        rewrite filter_fresh_cons, <- app_assoc. reflexivity.
      * intros x. rewrite elem_of_union, elem_of_singleton, elem_of_app,
          list_elem_of_singleton, Hseen. done.
Qed.

Lemma dedup_loop_first cites : (dedup_loop cites).1 = first_occurrences cites.
Proof.
  unfold dedup_loop. rewrite dedup_fold by set_solver. simpl.
  apply filter_fresh_nil.
Qed.

Lemma first_occurrences_cons x l :
  first_occurrences (x :: l) = x :: filter (fun y => y ≠ x) (first_occurrences l).
Proof. reflexivity. Qed.

Lemma first_occurrences_replicate k (x : pystr) :
  first_occurrences (replicate (S k) x) = [x].
Proof.
  induction k as [|k IH]; [done|].
  change (replicate (S (S k)) x) with (x :: replicate (S k) x).
  rewrite first_occurrences_cons, IH.
  by rewrite filter_cons_False by tauto.
Qed.

End Dedup.

Lemma join_citations_first (metadatas : list (gmap string pyval)) :
  join_citations metadatas
  = Py.join (lit " ") (first_occurrences (map format_citation metadatas)).
Proof.
  unfold join_citations. rewrite <- dedup_loop_first.
  by destruct (dedup_loop (map format_citation metadatas)).
Qed.

(** C6.  [format_citation] prints the tag with the page when the map holds
    one and without it otherwise; [join_citations] joins with single spaces
    the first occurrences of the tags: each tag of the list once, in the
    order of the list, and a list that repeats one metadata map gives its
    tag once. *)
Theorem citation_tags (meta : gmap string pyval) (metadatas : list (gmap string pyval)) :
  let source := py_str (get_or meta "source" (VStr (lit "unknown"))) in
  let chunk_id := py_str (get_or meta "chunk_id" (VStr (lit "chunk_?"))) in
  let tags := first_occurrences (map format_citation metadatas) in
  format_citation meta
  = (if decide (get meta "page" = VNone) then tag_without_page source chunk_id
     else tag_with_page source (py_str (get meta "page")) chunk_id)
  /\ format_citation
       (<["chunk_id" := VStr (lit "chunk_7")]>
          (<["page" := VInt 3]> (<["source" := VStr (lit "lease.pdf")]> ∅)))
     = lit "[lease.pdf p.3 chunk_7]"
  /\ format_citation
       (<["chunk_id" := VStr (lit "chunk_2")]> (<["source" := VStr (lit "notes.txt")]> ∅))
     = lit "[notes.txt chunk_2]"
  /\ join_citations metadatas = Py.join (lit " ") tags
  /\ NoDup tags
  /\ tags `sublist_of` map format_citation metadatas
  /\ (forall t, t ∈ tags <-> exists m, m ∈ metadatas /\ t = format_citation m)
  /\ (forall k, join_citations (replicate (S k) meta) = format_citation meta).
Proof.
  intros source chunk_id tags. repeat split.
  - unfold format_citation, tag_with_page, tag_without_page. subst source chunk_id.
    destruct (get meta "page"); by rewrite ?decide_True, ?decide_False by done.
  - apply join_citations_first.
  - apply first_occurrences_NoDup.
  - apply first_occurrences_sublist.
  - subst tags. rewrite first_occurrences_elem.
    intros (m & -> & Hm)%list_elem_of_fmap. eauto.
  - subst tags. rewrite first_occurrences_elem.
    intros (m & Hm & ->). by apply list_elem_of_fmap_2.
  - intros k. rewrite join_citations_first.
    change (map format_citation (replicate (S k) meta))
      with (format_citation <$> replicate (S k) meta).
    rewrite fmap_replicate, first_occurrences_replicate. reflexivity.
Qed.

(** ** Ingestion *)

Section Ingestion.

Lemma for_each_cons {A S : Type} (body : S -> A -> result S) st a l :
  for_each body st (a :: l) = body st a ≫= fun st' => for_each body st' l.
Proof. reflexivity. Qed.

Lemma str_of_int_inj : Inj (=) (=) Py.str_of_int.
Proof.
  intros a b H. unfold Py.str_of_int, lit in H.
  apply (f_equal string_of_list_ascii) in H.
  rewrite !string_of_list_ascii_of_string in H.
  apply (f_equal NilEmpty.int_of_string) in H.
  rewrite !NilEmpty.isi in H. injection H as H.
  by apply DecimalZ.to_int_inj.
Qed.

Global Instance chunk_id_of_inj : Inj (=) (=) chunk_id_of.
Proof.
  intros a b [= H]. by apply str_of_int_inj.
Qed.

Lemma build_chunk_metadata_id source page cid upd :
  build_chunk_metadata source page cid = Ok upd ->
  upd !! "chunk_id" = Some (chunk_id_of cid).
Proof.
  unfold build_chunk_metadata.
  destruct (basename_val source) as [src| |]; simpl; [|done|done].
  intros [= <-]. destruct page; by simplify_map_eq.
Qed.

Lemma chunk_ids_app (l1 l2 : list chunk) :
  chunk_ids (l1 ++ l2) = chunk_ids l1 ++ chunk_ids l2.
Proof. apply map_app. Qed.

(** The inner loop numbers the pieces of a record from the counter on. *)
Lemma inner_loop_ids base pieces : forall chunks cid chunks' cid',
  for_each (chunk_one base) (chunks, cid) pieces = Ok (chunks', cid') ->
  chunk_ids chunks'
  = chunk_ids chunks ++ (chunk_id_of <$> seqZ cid (Z.of_nat (length pieces)))
  /\ cid' = cid + Z.of_nat (length pieces).
Proof.
  induction pieces as [|ch pieces IH]; intros chunks cid chunks' cid'.
  - simpl. intros [= <- <-]. rewrite app_nil_r. split; [done|lia].
  - simpl.
    destruct (build_chunk_metadata _ _ cid) as [upd| |] eqn:E; simpl; [|done|done].
    intros H. apply IH in H as [-> ->].
    rewrite chunk_ids_app. simpl. unfold get.
    rewrite (lookup_union_Some_l _ _ _ _ (build_chunk_metadata_id _ _ _ _ E)).
    simpl. rewrite (seqZ_cons cid) by lia. rewrite <- app_assoc. simpl.
    split; [|lia].
    replace (Z.succ cid) with (cid + 1) by lia.
    replace (Z.pred (Z.of_nat (S (length pieces))))
      with (Z.of_nat (length pieces)) by lia.
    reflexivity.
Qed.

(** The outer loop carries the counter from one record to the next. *)
Lemma outer_loop_ids records : forall chunks cid chunks' cid',
  for_each chunk_record (chunks, cid) records = Ok (chunks', cid') ->
  exists k, 0 <= k
    /\ chunk_ids chunks' = chunk_ids chunks ++ (chunk_id_of <$> seqZ cid k)
    /\ cid' = cid + k.
Proof.
  induction records as [|rec records IH]; intros chunks cid chunks' cid'.
  - simpl. intros [= <- <-]. exists 0. rewrite seqZ_nil by done. simpl.
    rewrite app_nil_r. split; [done|]. split; [done|lia].
  - rewrite for_each_cons.
    destruct (chunk_record (chunks, cid) rec) as [[chunks1 cid1]| |] eqn:E;
      simpl; [|done|done].
    unfold chunk_record in E.
    destruct (chunk_default (rec_text rec)) as [pieces| |]; simpl in E;
      [|done|done].
    apply inner_loop_ids in E as [E1 ->].
    intros H. apply IH in H as (k & Hk & -> & ->).
    exists (Z.of_nat (length pieces) + k). split; [lia|]. split; [|lia].
    rewrite E1, <- app_assoc. f_equal.
    rewrite seqZ_app by lia. by rewrite fmap_app.
Qed.

Lemma chunk_records_ids records chunks :
  chunk_records records = Ok chunks ->
  chunk_ids chunks = chunk_id_of <$> seqZ 1 (Z.of_nat (length chunks)).
Proof.
  unfold chunk_records.
  destruct (for_each chunk_record ([], 1) records) as [[chunks' cid']| |] eqn:E;
    simpl; [|done|done].
  intros [= <-]. apply outer_loop_ids in E as (k & Hk & E & _).
  simpl in E. rewrite E. do 2 f_equal.
  apply (f_equal length) in E.
  unfold chunk_ids in E. rewrite length_map, length_fmap, length_seqZ in E. lia.
Qed.

Lemma chunk_default_returns t : chunk_default t ≠ OutOfFuel.
Proof.
  unfold chunk_default, char_chunk_text.
  destruct (raw_chunks_total t CHUNK_MIN CHUNK_MAX CHUNK_OVERLAP (S (length t)))
    as [chunks ->]; [reflexivity| |done].
  pose proof (strip_length t). lia.
Qed.

(** The paths of a batch are ingested one after the other, each with its
    own call of [chunk_records]. *)
Lemma ingest_per_file w paths : forall acc all_chunks,
  for_each (ingest_file w) acc paths = Ok all_chunks ->
  exists per_file,
    all_chunks = acc ++ concat per_file
    /\ Forall2 (fun p cs => exists records,
                  parse_file w p = Ok records /\ chunk_records records = Ok cs)
         paths per_file.
Proof.
  induction paths as [|p paths IH]; intros acc all_chunks.
  - simpl. intros [= <-]. exists []. by rewrite app_nil_r.
  - rewrite for_each_cons.
    destruct (ingest_file w acc p) as [acc'| |] eqn:E; simpl; [|done|done].
    unfold ingest_file in E.
    destruct (parse_file w p) as [records| |] eqn:Ep; simpl in E; [|done|done].
    destruct (chunk_records records) as [cs| |] eqn:Ec; simpl in E; [|done|done].
    injection E as <-.
    intros H. apply IH in H as (per_file & -> & Hall).
    exists (cs :: per_file). simpl. rewrite <- app_assoc. split; [done|].
    constructor; [|done]. eauto.
Qed.

End Ingestion.

Lemma chunk_one_returns base st ch : chunk_one base st ch ≠ OutOfFuel.
Proof.
  destruct st as [chunks cid].
  unfold chunk_one, build_chunk_metadata, basename_val.
  by destruct (get_or base "source" _).
Qed.

Lemma inner_loop_returns base pieces : forall st,
  for_each (chunk_one base) st pieces ≠ OutOfFuel.
Proof.
  induction pieces as [|ch pieces IH]; intros st; [done|].
  rewrite for_each_cons. pose proof (chunk_one_returns base st ch).
  destruct (chunk_one base st ch); simpl; [apply IH|done|done].
Qed.

Lemma chunk_record_returns st rec : chunk_record st rec ≠ OutOfFuel.
Proof.
  unfold chunk_record. pose proof (chunk_default_returns (rec_text rec)).
  destruct (chunk_default (rec_text rec)); simpl; [|done|done].
  apply inner_loop_returns.
Qed.

(** The iteration bound of [chunk_default] is never reached. *)
Lemma chunk_records_returns (records : list record) :
  chunk_records records ≠ OutOfFuel.
Proof.
  unfold chunk_records.
  assert (forall st, for_each chunk_record st records ≠ OutOfFuel) as H.
  { induction records as [|rec records IH]; intros st; [done|].
    rewrite for_each_cons. pose proof (chunk_record_returns st rec).
    destruct (chunk_record st rec); simpl; [apply IH|done|done]. }
  specialize (H ([], 1)).
  by destruct (for_each chunk_record ([], 1) records).
Qed.

(** C1, counterexample.  A batch of two files, one chunk each: both chunks
    carry [chunk_1]. *)
Lemma batch_ids_repeat :
  ingest two_files [path_a; path_b] = Ok two_files_chunks
  /\ chunk_ids two_files_chunks = [chunk_id_of 1; chunk_id_of 1]
  /\ ~ NoDup (chunk_ids two_files_chunks).
Proof.
  split; [by vm_compute|]. split; [by vm_compute|].
  intros H. assert (E : chunk_ids two_files_chunks = [chunk_id_of 1; chunk_id_of 1])
    by (by vm_compute).
  rewrite E in H. apply NoDup_cons in H as [H _]. apply H. left.
Qed.

(** C1, as the code has it.  [ingest] runs [chunk_records] once per file and
    concatenates; the counter of [chunk_records] runs over all the records
    of its file and starts at 1 for each file, so the chunks of one file
    carry [chunk_1], [chunk_2], ... in order, without duplicates. *)
Theorem chunk_ids_restart_per_file (w : world) (paths : list pystr)
  (all_chunks : list chunk) :
  ingest w paths = Ok all_chunks ->
  exists per_file : list (list chunk),
    all_chunks = concat per_file
    /\ Forall2 (fun p cs => exists records,
                  parse_file w p = Ok records /\ chunk_records records = Ok cs)
         paths per_file
    /\ Forall (fun cs =>
                 chunk_ids cs = chunk_id_of <$> seqZ 1 (Z.of_nat (length cs))
                 /\ NoDup (chunk_ids cs))
         per_file.
Proof.
  intros H. unfold ingest in H.
  destruct (ensure_dirs w) as [[]| |]; simpl in H; [|done|done].
  apply ingest_per_file in H as (per_file & -> & Hall).
  exists per_file. split; [done|]. split; [done|].
  apply Forall_forall. intros cs Hcs.
  apply list_elem_of_lookup in Hcs as [i Hi].
  destruct (Forall2_lookup_r _ _ _ _ _ Hall Hi) as (p & _ & records & _ & Hrec).
  pose proof (chunk_records_ids _ _ Hrec) as Hids. split; [done|].
  rewrite Hids. apply (NoDup_fmap_2 _). apply NoDup_seqZ.
Qed.

Lemma chunk_ids_restart_per_file_witness :
  ingest two_files [path_a; path_b] = Ok two_files_chunks
  /\ exists per_file : list (list chunk),
       two_files_chunks = concat per_file
       /\ Forall2 (fun p cs => exists records,
                     parse_file two_files p = Ok records
                     /\ chunk_records records = Ok cs)
            [path_a; path_b] per_file
       /\ Forall (fun cs =>
                    chunk_ids cs = chunk_id_of <$> seqZ 1 (Z.of_nat (length cs))
                    /\ NoDup (chunk_ids cs))
            per_file.
Proof.
  assert (H : ingest two_files [path_a; path_b] = Ok two_files_chunks)
    by (vm_compute; reflexivity).
  split; [exact H|].
  exact (chunk_ids_restart_per_file two_files [path_a; path_b] two_files_chunks H).
Defined.

(** ** The summary chain *)

(** The guard also fires on a context or a citation string of whitespace
    only. *)
Lemma grounded_or_idk_blank (payload : gmap string pystr) :
  Py.strip (get_text payload "context") = []
  \/ Py.strip (get_text payload "citations") = [] ->
  grounded_or_idk payload = forced_payload.
Proof.
  unfold grounded_or_idk. intros [-> | ->]; [done|].
  by destruct (Py.strip (get_text payload "context")).
Qed.

(** C2.  When the context string or the citation string is empty, the
    prompt inputs become the empty context, the empty citations and the
    question "Summarize the documents."; the prompt built from them is the
    fixed context-free prompt, in which no message holds a square bracket.
    That is the case when no document is retrieved, and the model is then
    called with that prompt. *)
Theorem grounding_refusal (payload : gmap string pystr) :
  get_text payload "context" = [] \/ get_text payload "citations" = [] ->
  grounded_or_idk payload = forced_payload
  /\ forced_payload !! "context" = Some []
  /\ forced_payload !! "citations" = Some []
  /\ forced_payload !! "question" = Some (lit "Summarize the documents.")
  /\ summary_prompt (grounded_or_idk payload) = Ok context_free_prompt
  /\ Forall (fun m => mentions_tag (content m) = false) context_free_prompt
  /\ grounded_or_idk (summary_inputs []) = forced_payload
  /\ (forall sv docs,
        retrieve sv (lit "contract") = Ok docs -> reorder sv docs = [] ->
        calls (summary_stream sv)
        = [Retrieved (lit "contract"); Generated context_free_prompt]).
Proof.
  intros H.
  assert (grounded_or_idk payload = forced_payload) as Hforced.
  { apply grounded_or_idk_blank. destruct H as [-> | ->]; [by left|by right]. }
  split; [done|]. rewrite Hforced.
  split; [done|]. split; [done|]. split; [done|]. split; [done|].
  split; [by repeat constructor|]. split; [done|].
  intros sv docs Hdocs Hnone. unfold summary_stream. rewrite Hdocs, Hnone.
  change (summary_prompt (grounded_or_idk (summary_inputs [])))
    with (@Ok (list message) context_free_prompt).
  unfold generate. by destruct (llm_stream sv context_free_prompt).
Qed.

Lemma grounding_refusal_witness :
  (get_text (<["citations" := lit "[lease.pdf p.3 chunk_7]"]> ∅) "context" = []
   \/ get_text (<["citations" := lit "[lease.pdf p.3 chunk_7]"]> ∅) "citations" = [])
  /\ grounded_or_idk (<["citations" := lit "[lease.pdf p.3 chunk_7]"]> ∅)
     = forced_payload
  /\ summary_prompt (grounded_or_idk (<["citations" := lit "[lease.pdf p.3 chunk_7]"]> ∅))
     = Ok context_free_prompt.
Proof.
  assert (H : get_text (<["citations" := lit "[lease.pdf p.3 chunk_7]"]> ∅) "context" = []
              \/ get_text (<["citations" := lit "[lease.pdf p.3 chunk_7]"]> ∅) "citations"
                 = []) by (left; reflexivity).
  split; [exact H|].
  pose proof (grounding_refusal (<["citations" := lit "[lease.pdf p.3 chunk_7]"]> ∅) H)
    as (H1 & _ & _ & _ & H2 & _).
  exact (conj H1 H2).
Defined.

(** ** The answer operation *)

(** When [ensure_chains] returns, the answer chain is built: the test
    [qa_chain is None] that follows it in [stream_answer] never holds. *)
Lemma ensure_chains_builds (sv : services) (st : app_state) :
  match ensure_chains sv st with
  | (st', Ok _) => is_Some (qa_chain st')
  | _ => True
  end.
Proof.
  unfold ensure_chains.
  destruct (qa_chain st) as [c|].
  - destruct (summary_chain st); [by eexists|].
    destruct (build_summary_chain sv); by try eexists.
  - destruct (build_qa_chain sv) as [c| |]; [|done|done].
    destruct (summary_chain st); [by eexists|].
    destruct (build_summary_chain sv); by try eexists.
Qed.

(** C7.  Before anything is indexed, with every service in place, a
    question about the documents builds the chains, calls the retriever and
    the model, and streams the model's words: none of the histories yielded
    holds the reply that asks to index documents first.  Whatever the
    services and the state, the answer chain is there once [ensure_chains]
    has returned. *)
Theorem no_index_reply_unreachable :
  let a := stream_answer empty_index no_chains clause_question [] in
  guard_unrelated clause_question = false
  /\ yields a
     = [ [user clause_question; assistant []];
         [user clause_question; assistant (lit "I don't ")];
         [user clause_question; assistant (lit "I don't know.")] ]
  /\ (exists prompt,
        qa_prompt (qa_inputs clause_question []) = Ok prompt
        /\ outside a = [Retrieved clause_question; Generated prompt])
  /\ qa_chain (globals a) = Some QAChain
  /\ escaped a = None
  /\ Forall (fun history => assistant no_index_reply ∉ history) (yields a)
  /\ (forall sv st,
        match ensure_chains sv st with
        | (st', Ok _) => is_Some (qa_chain st')
        | _ => True
        end).
Proof.
  intros a. split; [reflexivity|]. split; [reflexivity|].
  split; [eexists; split; reflexivity|].
  split; [reflexivity|]. split; [reflexivity|].
  split; [|apply ensure_chains_builds].
  assert (yields a
          = [ [user clause_question; assistant []];
              [user clause_question; assistant (lit "I don't ")];
              [user clause_question; assistant (lit "I don't know.")] ]) as ->
    by reflexivity.
  repeat constructor; rewrite !elem_of_cons, elem_of_nil;
    intros [H|[H|[]]]; discriminate H.
Qed.

(** ** File names *)

Section FileNames.

Implicit Types s p name : pystr.

Lemma filename_char_not_slash c : filename_char c = true -> is_slash c = false.
Proof. destruct c as [[] [] [] [] [] [] [] []]; vm_compute; congruence. Qed.

Lemma filename_char_underscore : filename_char underscore = true.
Proof. reflexivity. Qed.

Lemma sanitize_char c :
  filename_char (if filename_char c then c else underscore) = true.
Proof. destruct (filename_char c) eqn:E; [exact E|reflexivity]. Qed.

Lemma sanitize_chars name : forallb filename_char (sanitize_filename name) = true.
Proof.
  induction name as [|c name IH]; [done|].
  simpl. by rewrite sanitize_char, IH.
Qed.

Lemma take_until_none (f : ascii -> bool) s :
  forallb (fun c => negb (f c)) s = true -> take_until f s = s.
Proof.
  induction s as [|c s IH]; [done|]. simpl.
  intros [Hc Hs]%andb_true_iff. apply negb_true_iff in Hc. rewrite Hc.
  by rewrite IH.
Qed.

(** A name without slash is its own base name. *)
Lemma basename_plain s :
  forallb (fun c => negb (is_slash c)) s = true -> basename s = s.
Proof.
  intros H. unfold basename. rewrite take_until_none.
  - apply rev_involutive.
  - rewrite forallb_forall in *. intros c Hc. apply H. by apply in_rev.
Qed.

Lemma forallb_impl (f g : ascii -> bool) s :
  (forall c, f c = true -> g c = true) -> forallb f s = true -> forallb g s = true.
Proof.
  intros Hfg. rewrite !forallb_forall. auto.
Qed.

Lemma sanitize_no_slash name :
  forallb (fun c => negb (is_slash c)) (sanitize_filename name) = true.
Proof.
  apply (forallb_impl filename_char); [|apply sanitize_chars].
  intros c Hc. by rewrite (filename_char_not_slash c Hc).
Qed.

Lemma sanitize_fixed name :
  forallb filename_char name = true -> sanitize_filename name = name.
Proof.
  induction name as [|c name IH]; [done|]. simpl.
  intros [-> Hs]%andb_true_iff. by rewrite IH.
Qed.

End FileNames.

(** X1.  [sanitize_filename] keeps the length of the name, leaves only
    letters, digits, dots, underscores and hyphens, changes nothing when
    applied again, and gives a name without directory part. *)
Theorem sanitize_filename_safe (name : pystr) :
  length (sanitize_filename name) = length name
  /\ forallb filename_char (sanitize_filename name) = true
  /\ sanitize_filename (sanitize_filename name) = sanitize_filename name
  /\ forallb (fun c => negb (is_slash c)) (sanitize_filename name) = true
  /\ basename (sanitize_filename name) = sanitize_filename name.
Proof.
  split; [apply length_map|]. split; [apply sanitize_chars|].
  split; [apply sanitize_fixed, sanitize_chars|].
  split; [apply sanitize_no_slash|].
  apply basename_plain, sanitize_no_slash.
Qed.

(** ** Confidence of a retrieval *)

Lemma total_chars_from (retrieved : list (pystr * gmap string pyval)) : forall acc,
  foldl (fun acc t => acc + Py.len t.1) acc retrieved = acc + total_chars retrieved.
Proof.
  unfold total_chars. induction retrieved as [|t l IH]; intros acc; simpl; [lia|].
  rewrite (IH (acc + Py.len t.1)), (IH (0 + Py.len t.1)). lia.
Qed.

Lemma total_chars_app (r1 r2 : list (pystr * gmap string pyval)) :
  total_chars (r1 ++ r2) = total_chars r1 + total_chars r2.
Proof.
  unfold total_chars at 1. rewrite foldl_app.
  fold (total_chars r1). apply total_chars_from.
Qed.

Lemma total_chars_nonneg (r : list (pystr * gmap string pyval)) : 0 <= total_chars r.
Proof.
  induction r as [|t r IH] using rev_ind; [done|].
  rewrite total_chars_app. unfold total_chars at 2. simpl. unfold Py.len. lia.
Qed.

(** X2.  [low_confidence] holds exactly when the retrieved texts have fewer
    than 800 characters in all: the test on the number of results adds
    nothing, and one result of 800 characters is enough.  More results never
    turn a confident retrieval into a low one. *)
Theorem low_confidence_threshold (retrieved extra : list (pystr * gmap string pyval)) :
  low_confidence retrieved = (total_chars retrieved <? 800)
  /\ total_chars (retrieved ++ extra) = total_chars retrieved + total_chars extra
  /\ implb (low_confidence (retrieved ++ extra)) (low_confidence retrieved) = true.
Proof.
  assert (forall r, low_confidence r = (total_chars r <? 800)) as Hlow.
  { intros [|t r]; [reflexivity|]. unfold low_confidence.
    destruct (Z.ltb_spec (Z.of_nat (length (t :: r))) 1) as [H|H]; [|done].
    simpl in H. lia. }
  split; [apply Hlow|]. split; [apply total_chars_app|].
  rewrite !Hlow, total_chars_app. pose proof (total_chars_nonneg extra).
  destruct (Z.ltb_spec (total_chars retrieved + total_chars extra) 800);
    destruct (Z.ltb_spec (total_chars retrieved) 800); simpl; try done; lia.
Qed.

(** ** Unique paths *)

Section UniquePath.

Implicit Types a b d root ext : pystr.

Lemma startswith_slash_cons c b : Py.startswith [slash] (c :: b) = is_slash c.
Proof.
  change (Py.startswith [slash] (c :: b)) with (Ascii.eqb slash c && true).
  unfold is_slash. by rewrite andb_true_r, Ascii.eqb_sym.
Qed.

Lemma startswith_slash_plain b :
  forallb (fun c => negb (is_slash c)) b = true -> Py.startswith [slash] b = false.
Proof.
  destruct b as [|c b]; [done|]. rewrite startswith_slash_cons.
  intros [Hc _]%andb_true_iff. by apply negb_true_iff in Hc.
Qed.

Lemma path_join_relative a b :
  Py.startswith [slash] b = false -> path_join a b = join_prefix a ++ b.
Proof.
  intros Hb. unfold path_join, join_prefix. rewrite Hb.
  destruct a as [|c a]; [done|].
  destruct (ends_with_slash (c :: a)); [done|].
  by rewrite <- app_assoc.
Qed.

Lemma join_prefix_starts a s : Py.startswith a (join_prefix a ++ s) = true.
Proof.
  unfold join_prefix. destruct a as [|c a]; [done|].
  destruct (ends_with_slash (c :: a)).
  - apply startswith_app.
  - rewrite <- app_assoc. apply startswith_app.
Qed.

Lemma candidate_name_relative root ext i :
  forallb (fun c => negb (is_slash c)) root = true ->
  Py.startswith [slash] (root ++ lit "_" ++ Py.str_of_int i ++ ext) = false.
Proof.
  destruct root as [|c root]; [done|].
  change ((c :: root) ++ lit "_" ++ Py.str_of_int i ++ ext)
    with (c :: (root ++ lit "_" ++ Py.str_of_int i ++ ext)).
  rewrite startswith_slash_cons.
  intros [Hc _]%andb_true_iff. by apply negb_true_iff in Hc.
Qed.

Lemma unique_candidate_inj d root ext i j :
  forallb (fun c => negb (is_slash c)) root = true ->
  unique_candidate d root ext i = unique_candidate d root ext j -> i = j.
Proof.
  intros Hroot. unfold unique_candidate.
  rewrite !path_join_relative by by apply candidate_name_relative.
  intros H. apply app_inv_head in H. apply app_inv_head in H.
  apply app_inv_head in H. apply app_inv_tail in H.
  by apply str_of_int_inj.
Qed.

(** The loop returns the first free candidate, if the fuel reaches one. *)
Lemma unique_loop_first (exists_ : pystr -> bool) d root ext (fuel : nat) :
  forall i k, i <= k -> (Z.to_nat (k - i) < fuel)%nat ->
  exists_ (unique_candidate d root ext k) = false ->
  exists j, i <= j <= k
    /\ unique_loop exists_ fuel d root ext i = Some (unique_candidate d root ext j)
    /\ exists_ (unique_candidate d root ext j) = false
    /\ forall t, i <= t < j -> exists_ (unique_candidate d root ext t) = true.
Proof.
  induction fuel as [|fuel IH]; intros i k Hik Hfuel Hfree; [lia|].
  simpl. destruct (exists_ (unique_candidate d root ext i)) eqn:Ei.
  - destruct (decide (i = k)) as [->|Hne]; [congruence|].
    destruct (IH (i + 1) k) as (j & Hj & Hloop & Hj_free & Hbelow); [lia|lia|done|].
    exists j. split; [lia|]. split; [done|]. split; [done|].
    intros t Ht. destruct (decide (t = i)) as [->|]; [done|]. apply Hbelow. lia.
  - exists i. split; [lia|]. split; [done|]. split; [done|]. intros t Ht. lia.
Qed.

Lemma splitext_root_plain name :
  forallb (fun c => negb (is_slash c)) name = true ->
  forallb (fun c => negb (is_slash c)) (splitext name).1 = true.
Proof.
  intros H. unfold splitext. simpl.
  rewrite forallb_forall in *. intros c Hc. apply H.
  apply list_elem_of_In. apply list_elem_of_In in Hc.
  by apply (subseteq_take _ _ c) in Hc.
Qed.

End UniquePath.

(** X3.  When some numbered candidate is free and the fuel reaches it,
    [make_unique_path] returns a path that does not exist yet and lies under
    [dest_dir]: the sanitized name itself when that is free, and otherwise
    the candidate with the least free number from 1 on. *)
Theorem make_unique_path_free (exists_ : pystr -> bool) (dest_dir base_name : pystr)
  (k : Z) (fuel : nat) :
  let base := sanitize_filename base_name in
  let root := (splitext base).1 in
  let ext := (splitext base).2 in
  1 <= k -> (Z.to_nat k <= fuel)%nat ->
  exists_ (unique_candidate dest_dir root ext k) = false ->
  exists p,
    make_unique_path exists_ fuel dest_dir base_name = Some p
    /\ exists_ p = false
    /\ Py.startswith dest_dir p = true
    /\ (p = path_join dest_dir base
        \/ exists j, 1 <= j <= k
             /\ p = unique_candidate dest_dir root ext j
             /\ exists_ (path_join dest_dir base) = true
             /\ forall t, 1 <= t < j ->
                  exists_ (unique_candidate dest_dir root ext t) = true).
Proof.
  intros base root ext Hk Hfuel Hfree. unfold make_unique_path.
  fold base. destruct (exists_ (path_join dest_dir base)) eqn:Efull.
  - destruct (splitext base) as [root' ext'] eqn:Es.
    subst root ext. simpl in *.
    destruct (unique_loop_first exists_ dest_dir root' ext' fuel 1 k)
      as (j & Hj & Hloop & Hj_free & Hbelow); [lia|lia|done|].
    exists (unique_candidate dest_dir root' ext' j).
    split; [done|]. split; [done|]. split.
    + unfold unique_candidate. rewrite path_join_relative.
      * apply join_prefix_starts.
      * apply candidate_name_relative.
        replace root' with (splitext base).1 by by rewrite Es.
        apply splitext_root_plain, sanitize_no_slash.
    + right. exists j. done.
  - exists (path_join dest_dir base). split; [done|]. split; [done|].
    split; [|by left].
    rewrite path_join_relative.
    + apply join_prefix_starts.
    + apply startswith_slash_plain, sanitize_no_slash.
Qed.

Lemma make_unique_path_free_witness :
  let exists_ := fun p : pystr =>
    bool_decide (p ∈ [lit "./uploads/lease.pdf"; lit "./uploads/lease_1.pdf"]) in
  1 <= 2 /\ (Z.to_nat 2 <= 2)%nat
  /\ exists_ (unique_candidate (lit "./uploads") (lit "lease") (lit ".pdf") 2) = false
  /\ exists p,
       make_unique_path exists_ 2 (lit "./uploads") (lit "lease.pdf") = Some p
       /\ exists_ p = false
       /\ Py.startswith (lit "./uploads") p = true
       /\ (p = path_join (lit "./uploads") (lit "lease.pdf")
           \/ exists j, 1 <= j <= 2
                /\ p = unique_candidate (lit "./uploads") (lit "lease") (lit ".pdf") j
                /\ exists_ (path_join (lit "./uploads") (lit "lease.pdf")) = true
                /\ forall t, 1 <= t < j ->
                     exists_ (unique_candidate (lit "./uploads") (lit "lease")
                                (lit ".pdf") t) = true).
Proof.
  intros exists_.
  assert (H1 : 1 <= 2) by lia.
  assert (H2 : (Z.to_nat 2 <= 2)%nat) by (vm_compute; lia).
  assert (H3 : exists_ (unique_candidate (lit "./uploads") (lit "lease") (lit ".pdf") 2)
               = false) by reflexivity.
  split; [exact H1|]. split; [exact H2|]. split; [exact H3|].
  exact (make_unique_path_free exists_ (lit "./uploads") (lit "lease.pdf") 2 2 H1 H2 H3).
Defined.

(** ** Metadata of the chunks *)

Section ChunkMetadata.

Lemma take_until_clean (f : ascii -> bool) (s : pystr) :
  forallb (fun c => negb (f c)) (take_until f s) = true.
Proof.
  induction s as [|c s IH]; [done|]. simpl.
  destruct (f c) eqn:E; [done|]. simpl. by rewrite E, IH.
Qed.

Lemma basename_no_slash (p : pystr) :
  forallb (fun c => negb (is_slash c)) (basename p) = true.
Proof.
  unfold basename. pose proof (take_until_clean is_slash (rev p)) as H.
  rewrite forallb_forall in *. intros c Hc. apply H. by apply in_rev.
Qed.

Lemma basename_idem (p : pystr) : basename (basename p) = basename p.
Proof. apply basename_plain, basename_no_slash. Qed.

Lemma contains_intro (p s a b : pystr) : s = a ++ p ++ b -> Py.contains p s = true.
Proof. intros ->. apply contains_app. Qed.

Lemma build_chunk_metadata_lookup (s : pystr) (page : pyval) (cid : Z) :
  exists meta,
    build_chunk_metadata (VStr s) page cid = Ok meta
    /\ meta !! "source" = Some (VStr (basename s))
    /\ meta !! "chunk_id" = Some (chunk_id_of cid)
    /\ get meta "page" = page
    /\ (forall key, key ≠ "source" -> key ≠ "chunk_id" -> key ≠ "page" ->
          meta !! key = None)
    /\ (page ≠ VNone -> meta !! "page" = Some page)
    /\ (page = VNone -> meta !! "page" = None).
Proof.
  unfold build_chunk_metadata. simpl. eexists. split; [reflexivity|].
  unfold get. destruct page; simplify_map_eq; repeat split; try done;
    intros; by simplify_map_eq.
Qed.

Lemma chunk_one_inherits base chunks cid ch chunks' cid' :
  chunk_one base (chunks, cid) ch = Ok (chunks', cid') ->
  exists c, chunks' = chunks ++ [c] /\ text c = ch /\ inherits base c.
Proof.
  unfold chunk_one. cbv zeta.
  destruct (get_or base "source" (VStr (lit "unknown"))) as [|s|n] eqn:Es;
    [done| |done].
  destruct (build_chunk_metadata_lookup s (get base "page") cid)
    as (upd & -> & Hsrc & Hid & _ & Hother & Hpage & Hnopage).
  simpl. intros [= <- <-]. eexists. split; [reflexivity|]. split; [reflexivity|].
  split.
  - exists s. split; [done|]. simpl. by apply lookup_union_Some_l.
  - intros key Hk1 Hk2. simpl. destruct (decide (key = "page")) as [->|Hk3].
    + unfold get in *. destruct (base !! "page") as [[|t|n]|] eqn:Ep; simpl in *.
      * rewrite lookup_union_r by by apply Hnopage. done.
      * by apply lookup_union_Some_l, Hpage.
      * by apply lookup_union_Some_l, Hpage.
      * rewrite lookup_union_r by by apply Hnopage. done.
    + rewrite lookup_union_r by by apply Hother. done.
Qed.

Lemma inner_loop_inherits base pieces : forall chunks cid chunks' cid',
  for_each (chunk_one base) (chunks, cid) pieces = Ok (chunks', cid') ->
  exists group, chunks' = chunks ++ group
    /\ map text group = pieces /\ Forall (inherits base) group.
Proof.
  induction pieces as [|ch pieces IH]; intros chunks cid chunks' cid'.
  - simpl. intros [= <- <-]. exists []. by rewrite app_nil_r.
  - rewrite for_each_cons.
    destruct (chunk_one base (chunks, cid) ch) as [[chunks1 cid1]| |] eqn:E;
      simpl; [|done|done].
    apply chunk_one_inherits in E as (c & -> & Hc & Hin).
    intros H. apply IH in H as (group & -> & Hg & Hall).
    exists (c :: group). rewrite <- app_assoc. split; [done|].
    split; [simpl; by rewrite Hc, Hg|by constructor].
Qed.

Lemma outer_loop_inherits records : forall chunks cid chunks' cid',
  for_each chunk_record (chunks, cid) records = Ok (chunks', cid') ->
  exists groups, chunks' = chunks ++ concat groups
    /\ Forall2 (fun r group =>
                  chunk_default (rec_text r) = Ok (map text group)
                  /\ Forall (inherits (rec_metadata r)) group)
         records groups.
Proof.
  induction records as [|rec records IH]; intros chunks cid chunks' cid'.
  - simpl. intros [= <- <-]. exists []. simpl. by rewrite app_nil_r.
  - rewrite for_each_cons.
    destruct (chunk_record (chunks, cid) rec) as [[chunks1 cid1]| |] eqn:E;
      simpl; [|done|done].
    unfold chunk_record in E.
    destruct (chunk_default (rec_text rec)) as [pieces| |] eqn:Ep; simpl in E;
      [|done|done].
    apply inner_loop_inherits in E as (group & -> & Hg & Hall).
    intros H. apply IH in H as (groups & -> & Hgroups).
    exists (group :: groups). simpl. rewrite <- app_assoc. split; [done|].
    constructor; [|done]. by rewrite Hg.
Qed.

(** A record whose source is a string or missing never makes the loops
    raise. *)
Lemma chunk_one_ok base s st ch :
  get_or base "source" (VStr (lit "unknown")) = VStr s ->
  exists st', chunk_one base st ch = Ok st'.
Proof.
  intros Hs. destruct st as [chunks cid]. unfold chunk_one. cbv zeta. rewrite Hs.
  destruct (build_chunk_metadata_lookup s (get base "page") cid) as (upd & -> & _).
  by eexists.
Qed.

Lemma inner_loop_ok base pieces s :
  get_or base "source" (VStr (lit "unknown")) = VStr s ->
  forall st, exists st', for_each (chunk_one base) st pieces = Ok st'.
Proof.
  intros Hs. induction pieces as [|ch pieces IH]; intros st; [by eexists|].
  rewrite for_each_cons. destruct (chunk_one_ok base s st ch Hs) as [st1 ->].
  simpl. apply IH.
Qed.

Lemma chunk_record_ok rec s st :
  get_or (rec_metadata rec) "source" (VStr (lit "unknown")) = VStr s ->
  exists st', chunk_record st rec = Ok st'.
Proof.
  intros Hs. unfold chunk_record.
  pose proof (chunk_default_returns (rec_text rec)) as Hd.
  destruct (chunk_default (rec_text rec)) as [pieces| |] eqn:E; [| |done].
  - simpl. by apply (inner_loop_ok _ pieces s).
  - exfalso. unfold chunk_default in E. by destruct (char_chunk_text _ _ _ _ _).
Qed.

Lemma outer_loop_ok records :
  Forall (fun r => exists s,
            get_or (rec_metadata r) "source" (VStr (lit "unknown")) = VStr s)
    records ->
  forall st, exists st', for_each chunk_record st records = Ok st'.
Proof.
  induction 1 as [|rec records [s Hs] _ IH]; intros st; [by eexists|].
  rewrite for_each_cons. destruct (chunk_record_ok rec s st Hs) as [st1 ->].
  simpl. apply IH.
Qed.

(** The pieces of the default chunker are trimmed, not empty and at most
    [CHUNK_MAX] characters long. *)
Lemma chunk_default_pieces t pieces :
  chunk_default t = Ok pieces -> Forall chunk_text_ok pieces.
Proof.
  unfold chunk_default, char_chunk_text.
  destruct (raw_chunks _ t _ _ _) as [ws|] eqn:E; simpl; [|done].
  intros [= <-]. unfold raw_chunks in E.
  apply chunk_loop_windows in E as (ws' & Heq & Hall & _); [|done|done].
  simpl in Heq. subst ws'. apply Forall_forall.
  intros c (w & Hw & -> & Hne)%strip_nonempty_elem.
  split; [done|]. split; [apply strip_idem|].
  rewrite Forall_forall in Hall. specialize (Hall w Hw).
  pose proof (strip_len w). lia.
Qed.

End ChunkMetadata.

(** A bracketed text that holds a chunk id passes [has_citation]. *)
Lemma has_citation_shape (x y t : pystr) :
  t = lit "[" ++ (x ++ lit "chunk_" ++ y) ++ lit "]" -> has_citation t = true.
Proof.
  intros ->. unfold has_citation.
  assert (Py.contains (lit "[") (lit "[" ++ (x ++ lit "chunk_" ++ y) ++ lit "]") = true)
    as -> by apply (contains_app (lit "[") []).
  assert (Py.contains (lit "]") (lit "[" ++ (x ++ lit "chunk_" ++ y) ++ lit "]") = true)
    as ->.
  { apply (contains_intro _ _ (lit "[" ++ x ++ lit "chunk_" ++ y) []).
    by rewrite app_nil_r, <- !app_assoc. }
  apply (contains_intro _ _ (lit "[" ++ x) (y ++ lit "]")).
  by rewrite <- !app_assoc.
Qed.

(** X4.  For a source given as a string, [build_chunk_metadata] returns a
    map whose source is the base name of the given one and whose chunk id is
    ["chunk_"] followed by the counter; [format_citation] prints that map as
    the tag of base name, page if any, and chunk id, and [has_citation] of
    the evaluation accepts the tag. *)
Theorem built_metadata_citation (source : pystr) (page : pyval) (cid : Z) :
  exists meta,
    build_chunk_metadata (VStr source) page cid = Ok meta
    /\ meta !! "source" = Some (VStr (basename source))
    /\ meta !! "chunk_id" = Some (chunk_id_of cid)
    /\ format_citation meta
       = (if decide (page = VNone)
          then tag_without_page (basename source) (lit "chunk_" ++ Py.str_of_int cid)
          else tag_with_page (basename source) (py_str page)
                 (lit "chunk_" ++ Py.str_of_int cid))
    /\ has_citation (format_citation meta) = true.
Proof.
  destruct (build_chunk_metadata_lookup source page cid)
    as (meta & Hm & Hsrc & Hid & Hpage & _).
  exists meta. split; [done|]. split; [done|]. split; [done|].
  assert (format_citation meta
          = (if decide (page = VNone)
             then tag_without_page (basename source) (lit "chunk_" ++ Py.str_of_int cid)
             else tag_with_page (basename source) (py_str page)
                    (lit "chunk_" ++ Py.str_of_int cid))) as Hfmt.
  { unfold format_citation, get_or. rewrite Hsrc, Hid, Hpage. simpl.
    destruct page; by rewrite ?decide_True, ?decide_False by done. }
  split; [done|]. rewrite Hfmt.
  destruct (decide (page = VNone)); unfold tag_without_page, tag_with_page.
  - apply (has_citation_shape (basename source ++ lit " ") (Py.str_of_int cid)).
    by rewrite <- !app_assoc.
  - apply (has_citation_shape (basename source ++ lit " p." ++ py_str page ++ lit " ")
             (Py.str_of_int cid)).
    by rewrite <- !app_assoc.
Qed.

(** X5.  When every record has a string as source, or none, [chunk_records]
    returns: the chunks come record by record, their texts are the pieces
    the default chunker cuts from the record's text, each not empty, trimmed
    and at most [CHUNK_MAX] characters long, and each chunk carries the
    metadata of its record (page, title and any other key) with the source
    reduced to its base name. *)
Theorem chunk_records_content (records : list record) :
  Forall (fun r => exists s,
            get_or (rec_metadata r) "source" (VStr (lit "unknown")) = VStr s)
    records ->
  exists chunks groups,
    chunk_records records = Ok chunks
    /\ chunks = concat groups
    /\ Forall2 (fun r group =>
                  chunk_default (rec_text r) = Ok (map text group)
                  /\ Forall (inherits (rec_metadata r)) group)
         records groups
    /\ Forall (fun c => chunk_text_ok (text c)) chunks.
Proof.
  intros Htyped. unfold chunk_records.
  destruct (outer_loop_ok records Htyped ([], 1)) as [[chunks cid] Hloop].
  rewrite Hloop. simpl.
  apply outer_loop_inherits in Hloop as (groups & Hchunks & Hgroups).
  simpl in Hchunks. exists chunks, groups.
  split; [done|]. split; [done|]. split; [done|].
  subst chunks. clear Htyped. induction Hgroups as [|r g rs gs [Hd _] _ IH]; [done|].
  simpl. apply Forall_app. split; [|done].
  apply chunk_default_pieces in Hd. by rewrite Forall_fmap in Hd.
Qed.

Lemma chunk_records_content_witness :
  let page3 : record :=
    {| rec_text := lit "  Either party may terminate.  ";
       rec_metadata := <["page" := VInt 3]> (<["source" := VStr (lit "up/lease.pdf")]> ∅) |} in
  Forall (fun r => exists s,
            get_or (rec_metadata r) "source" (VStr (lit "unknown")) = VStr s)
    [page3]
  /\ exists chunks groups,
       chunk_records [page3] = Ok chunks
       /\ chunks = concat groups
       /\ Forall2 (fun r group =>
                     chunk_default (rec_text r) = Ok (map text group)
                     /\ Forall (inherits (rec_metadata r)) group)
            [page3] groups
       /\ Forall (fun c => chunk_text_ok (text c)) chunks.
Proof.
  intros page3.
  assert (H : Forall (fun r => exists s,
                        get_or (rec_metadata r) "source" (VStr (lit "unknown")) = VStr s)
                [page3]).
  { constructor; [|constructor]. exists (lit "up/lease.pdf"). reflexivity. }
  split; [exact H|]. exact (chunk_records_content [page3] H).
Defined.

(** ** Parsers and batches *)

Section Batches.

Variable w : world.

Lemma pdf_records_lookup path pages : forall first i t,
  pages !! i = Some t ->
  pdf_records path first pages !! i
  = Some {| rec_text := t;
            rec_metadata := <["page" := VInt (first + Z.of_nat i)]>
                              (<["source" := VStr (basename path)]> ∅) |}.
Proof.
  induction pages as [|t' pages IH]; intros first i t; [done|].
  destruct i as [|i]; simpl.
  - intros [= ->]. by rewrite Z.add_0_r.
  - intros H. rewrite (IH (first + 1) i t H). do 4 f_equal. lia.
Qed.

Lemma pdf_records_length path pages : forall first,
  length (pdf_records path first pages) = length pages.
Proof. induction pages as [|t pages IH]; intros first; simpl; by rewrite ?IH. Qed.

Lemma pdf_records_source path pages : forall first,
  Forall (fun r => rec_metadata r !! "source" = Some (VStr (basename path)))
    (pdf_records path first pages).
Proof.
  induction pages as [|t pages IH]; intros first; simpl; constructor; [|apply IH].
  by simplify_map_eq.
Qed.

(** Every record of a parsed file names the base name of the path. *)
Lemma parse_file_source path records :
  parse_file w path = Ok records ->
  Forall (fun r => rec_metadata r !! "source" = Some (VStr (basename path))) records.
Proof.
  unfold parse_file. repeat case_decide.
  - unfold parse_pdf. destruct (has_pypdf2 w); [|done].
    destruct (pdf_pages w path); simpl; [|done|done].
    intros [= <-]. apply pdf_records_source.
  - unfold parse_docx. destruct (has_docx w); [|done].
    destruct (docx_paragraphs w path) as [ps| |]; simpl; [|done|done].
    intros [= <-]. constructor; [|done]. simpl.
    destruct (Py.strip <$> head ps) as [[|c title]|]; by simplify_map_eq.
  - unfold parse_txt. destruct (read_text w path); simpl; [|done|done].
    intros [= <-]. constructor; [|done]. by simplify_map_eq.
  - done.
Qed.

Lemma source_typed path (r : record) :
  rec_metadata r !! "source" = Some (VStr (basename path)) ->
  get_or (rec_metadata r) "source" (VStr (lit "unknown")) = VStr (basename path).
Proof. unfold get_or. by intros ->. Qed.

Lemma for_each_app {A S : Type} (body : S -> A -> result S) (l1 l2 : list A) :
  forall st,
  for_each body st (l1 ++ l2) = for_each body st l1 ≫= fun st' => for_each body st' l2.
Proof.
  induction l1 as [|a l1 IH]; intros st; [done|].
  simpl. destruct (body st a); simpl; [apply IH|done|done].
Qed.

Lemma ingest_file_unfold acc p :
  ingest_file w acc p
  = parse_file w p ≫= fun records =>
    chunk_records records ≫= fun cs => Ok (acc ++ cs).
Proof. reflexivity. Qed.

(** The chunks gathered so far only sit in front of those of the files
    still to come. *)
Lemma ingest_from paths : forall acc,
  for_each (ingest_file w) acc paths
  = ingest_loop w paths ≫= fun chunks => Ok (acc ++ chunks).
Proof.
  unfold ingest_loop. induction paths as [|p paths IH]; intros acc.
  - simpl. by rewrite app_nil_r.
  - rewrite !for_each_cons, !ingest_file_unfold.
    destruct (parse_file w p) as [records| |]; simpl; [|done|done].
    destruct (chunk_records records) as [cs| |]; simpl; [|done|done].
    rewrite (IH (acc ++ cs)), (IH cs).
    destruct (for_each (ingest_file w) [] paths); simpl; [|done|done].
    by rewrite app_assoc.
Qed.

Lemma ingest_cons p paths :
  ingest_loop w (p :: paths)
  = parse_file w p ≫= fun records =>
    chunk_records records ≫= fun cs =>
    ingest_loop w paths ≫= fun rest => Ok (cs ++ rest).
Proof.
  unfold ingest_loop at 1. rewrite for_each_cons, ingest_file_unfold.
  destruct (parse_file w p) as [records| |]; simpl; [|done|done].
  destruct (chunk_records records) as [cs| |]; simpl; [|done|done].
  apply ingest_from.
Qed.

Lemma ingest_loop_app paths1 paths2 :
  ingest_loop w (paths1 ++ paths2)
  = ingest_loop w paths1 ≫= fun chunks1 =>
    ingest_loop w paths2 ≫= fun chunks2 => Ok (chunks1 ++ chunks2).
Proof.
  unfold ingest_loop at 1. rewrite for_each_app. fold (ingest_loop w paths1).
  destruct (ingest_loop w paths1) as [chunks1| |]; simpl; [|done|done].
  apply ingest_from.
Qed.

(** Once the directories are there, [ingest] is its loop. *)
Lemma ingest_ensured paths :
  ensure_dirs w = Ok () -> ingest w paths = ingest_loop w paths.
Proof. unfold ingest. by intros ->. Qed.

(** Making the directories again changes nothing: what the first call of
    [ensure_dirs] raises, every call raises. *)
Lemma ingest_app_eq paths1 paths2 :
  ingest w (paths1 ++ paths2)
  = ingest w paths1 ≫= fun chunks1 =>
    ingest w paths2 ≫= fun chunks2 => Ok (chunks1 ++ chunks2).
Proof.
  unfold ingest. destruct (ensure_dirs w) as [[]| |]; simpl; [|done|done].
  apply ingest_loop_app.
Qed.

Lemma parsed_records_chunk path records :
  parse_file w path = Ok records ->
  exists chunks groups,
    chunk_records records = Ok chunks
    /\ chunks = concat groups
    /\ Forall2 (fun r group =>
                  chunk_default (rec_text r) = Ok (map text group)
                  /\ Forall (inherits (rec_metadata r)) group)
         records groups
    /\ Forall (fun c => chunk_text_ok (text c)
                        /\ metadata c !! "source" = Some (VStr (basename path)))
         chunks.
Proof.
  intros Hparse. apply parse_file_source in Hparse.
  assert (Forall (fun r => exists s,
            get_or (rec_metadata r) "source" (VStr (lit "unknown")) = VStr s) records)
    as Htyped.
  { eapply Forall_impl; [exact Hparse|]. intros r Hr. simpl in Hr.
    exists (basename path). by apply source_typed. }
  unfold chunk_records.
  destruct (outer_loop_ok records Htyped ([], 1)) as [[chunks cid] Hloop].
  rewrite Hloop. simpl.
  apply outer_loop_inherits in Hloop as (groups & Hchunks & Hgroups).
  simpl in Hchunks. exists chunks, groups.
  split; [done|]. split; [done|]. split; [done|].
  subst chunks. clear Htyped.
  induction Hgroups as [|r g rs gs [Hd Hin] _ IH]; [done|].
  apply Forall_cons in Hparse as [Hr Hrs].
  simpl. apply Forall_app. split; [|by apply IH].
  apply chunk_default_pieces in Hd. rewrite Forall_fmap in Hd.
  apply Forall_forall. intros c Hc.
  rewrite Forall_forall in Hd, Hin. split; [by apply Hd|].
  destruct (Hin c Hc) as [(s & Hs & Hsrc) _].
  rewrite (source_typed path r Hr) in Hs. injection Hs as <-.
  by rewrite Hsrc, basename_idem.
Qed.

Lemma ingest_wellformed paths :
  Forall (fun p => exists records, parse_file w p = Ok records) paths ->
  exists chunks,
    ingest_loop w paths = Ok chunks
    /\ Forall (fun c =>
                 chunk_text_ok (text c)
                 /\ exists p, p ∈ paths
                      /\ metadata c !! "source" = Some (VStr (basename p))
                      /\ forallb (fun a => negb (is_slash a)) (basename p) = true)
         chunks.
Proof.
  induction 1 as [|p paths [records Hp] _ (rest & Hrest & Hall)].
  - exists []. split; [done|constructor].
  - destruct (parsed_records_chunk p records Hp) as (cs & _ & Hcs & _ & _ & Hok).
    exists (cs ++ rest). split.
    + rewrite ingest_cons, Hp. simpl. rewrite Hcs. simpl. by rewrite Hrest.
    + apply Forall_app. split.
      * eapply Forall_impl; [exact Hok|]. intros c [Ht Hs].
        split; [done|]. exists p. split; [left|]. split; [done|].
        apply basename_no_slash.
      * eapply Forall_impl; [exact Hall|]. intros c [Ht (q & Hq & Hs)].
        split; [done|]. exists q. split; [by right|done].
Qed.

End Batches.

(** X6.  When [ensure_dirs] returns and every file of the batch parses,
    [ingest] returns, and every chunk has a text that is not empty, trimmed
    and at most [CHUNK_MAX] characters long, and names as source the base
    name of a path of the batch, never a path with a directory. *)
Theorem ingest_chunks_wellformed (w : world) (paths : list pystr) :
  ensure_dirs w = Ok () ->
  Forall (fun p => exists records, parse_file w p = Ok records) paths ->
  exists chunks,
    ingest w paths = Ok chunks
    /\ Forall (fun c =>
                 chunk_text_ok (text c)
                 /\ exists p, p ∈ paths
                      /\ metadata c !! "source" = Some (VStr (basename p))
                      /\ forallb (fun a => negb (is_slash a)) (basename p) = true)
         chunks.
Proof.
  intros Hdirs Hparse. rewrite (ingest_ensured w paths Hdirs).
  by apply ingest_wellformed.
Qed.

Lemma ingest_chunks_wellformed_witness :
  ensure_dirs two_files = Ok ()
  /\ Forall (fun p => exists records, parse_file two_files p = Ok records)
       [path_a; path_b]
  /\ exists chunks,
       ingest two_files [path_a; path_b] = Ok chunks
       /\ Forall (fun c =>
                    chunk_text_ok (text c)
                    /\ exists p, p ∈ [path_a; path_b]
                         /\ metadata c !! "source" = Some (VStr (basename p))
                         /\ forallb (fun a => negb (is_slash a)) (basename p) = true)
            chunks.
Proof.
  assert (H : Forall (fun p => exists records, parse_file two_files p = Ok records)
                [path_a; path_b]).
  { repeat constructor; eexists; vm_compute; reflexivity. }
  assert (H0 : ensure_dirs two_files = Ok ()) by reflexivity.
  split; [exact H0|]. split; [exact H|].
  exact (ingest_chunks_wellformed two_files [path_a; path_b] H0 H).
Defined.

(** X7.  A batch is ingested as its parts are: [ingest] of two lists of
    paths put together gives the chunks of the first followed by the chunks
    of the second, chunk ids included, and raises what the first list
    raises, or else what the second raises. *)
Theorem ingest_app (w : world) (paths1 paths2 : list pystr) :
  ingest w (paths1 ++ paths2)
  = ingest w paths1 ≫= fun chunks1 =>
    ingest w paths2 ≫= fun chunks2 => Ok (chunks1 ++ chunks2).
Proof. apply ingest_app_eq. Qed.

(** X8.  What [ensure_dirs] raises, [ingest] raises before any file is
    read.  When [ensure_dirs] returns, the first file that fails to parse
    ends the batch: if the files before it parse, [ingest] raises the
    exception of that file and returns no chunk, whatever follows it. *)
Theorem ingest_fails_fast (w : world) (good rest : list pystr) (p : pystr) (e : exn) :
  (ensure_dirs w = Raise e -> ingest w (good ++ p :: rest) = Raise e)
  /\ (ensure_dirs w = Ok () ->
      Forall (fun q => exists records, parse_file w q = Ok records) good ->
      parse_file w p = Raise e ->
      ingest w (good ++ p :: rest) = Raise e).
Proof.
  split.
  - intros Hdirs. unfold ingest. by rewrite Hdirs.
  - intros Hdirs Hgood Hp. rewrite (ingest_ensured w _ Hdirs), ingest_loop_app.
    destruct (ingest_wellformed w good Hgood) as (chunks & -> & _). simpl.
    by rewrite ingest_cons, Hp.
Qed.

Lemma ingest_fails_fast_witness :
  ensure_dirs two_files = Ok ()
  /\ Forall (fun q => exists records, parse_file two_files q = Ok records) [path_a]
  /\ parse_file two_files (lit "./uploads/notes.md")
     = Raise (ValueError (lit "Unsupported file type: .md"))
  /\ ingest two_files ([path_a] ++ lit "./uploads/notes.md" :: [path_b])
     = Raise (ValueError (lit "Unsupported file type: .md")).
Proof.
  assert (H1 : Forall (fun q => exists records, parse_file two_files q = Ok records)
                 [path_a]).
  { repeat constructor; eexists; vm_compute; reflexivity. }
  assert (H2 : parse_file two_files (lit "./uploads/notes.md")
               = Raise (ValueError (lit "Unsupported file type: .md")))
    by reflexivity.
  assert (H0 : ensure_dirs two_files = Ok ()) by reflexivity.
  split; [exact H0|]. split; [exact H1|]. split; [exact H2|].
  exact (proj2 (ingest_fails_fast two_files [path_a] [path_b]
                  (lit "./uploads/notes.md")
                  (ValueError (lit "Unsupported file type: .md"))) H0 H1 H2).
Defined.

(** X9.  A path whose extension is [.pdf] in any case, with PyPDF2 there and
    a readable file, gives one record per page, in order, numbered from 1,
    each with the base name of the path as source; and every chunk cut from
    these records carries the number of a page of the file. *)
Theorem pdf_pages_numbered (w : world) (path : pystr) (pages : list pystr) :
  Py.lower (splitext_ext path) = lit ".pdf" ->
  has_pypdf2 w = true ->
  pdf_pages w path = Ok pages ->
  exists records chunks,
    parse_file w path = Ok records
    /\ length records = length pages
    /\ (forall i t, pages !! i = Some t ->
          records !! i
          = Some {| rec_text := t;
                    rec_metadata := <["page" := VInt (1 + Z.of_nat i)]>
                                      (<["source" := VStr (basename path)]> ∅) |})
    /\ chunk_records records = Ok chunks
    /\ Forall (fun c => exists i, (i < length pages)%nat
                 /\ metadata c !! "page" = Some (VInt (1 + Z.of_nat i)))
         chunks.
Proof.
  intros Hext Hlib Hpages.
  assert (parse_file w path = Ok (pdf_records path 1 pages)) as Hparse.
  { unfold parse_file. rewrite Hext, decide_True by done.
    unfold parse_pdf. by rewrite Hlib, Hpages. }
  destruct (parsed_records_chunk w path _ Hparse)
    as (chunks & groups & Hchunks & -> & Hgroups & _).
  exists (pdf_records path 1 pages), (concat groups).
  split; [done|]. split; [apply pdf_records_length|].
  split; [apply pdf_records_lookup|]. split; [done|].
  apply Forall_forall. intros c Hc.
  apply list_elem_of_In, in_concat in Hc as (g & Hg & Hc).
  apply list_elem_of_In in Hg, Hc.
  apply list_elem_of_lookup in Hg as [i Hi].
  destruct (Forall2_lookup_r _ _ _ _ _ Hgroups Hi) as (r & Hr & _ & Hin).
  assert (i < length pages)%nat as Hlt.
  { apply lookup_lt_Some in Hr. by rewrite pdf_records_length in Hr. }
  destruct (lookup_lt_is_Some_2 pages i Hlt) as [t Ht].
  rewrite (pdf_records_lookup path pages 1 i t Ht) in Hr. injection Hr as <-.
  exists i. split; [done|].
  rewrite Forall_forall in Hin. destruct (Hin c Hc) as [_ Hkeys].
  rewrite Hkeys by done. by simplify_map_eq.
Qed.

Lemma pdf_pages_numbered_witness :
  let w := {| has_pypdf2 := true; has_docx := false;
              read_text := fun _ => Raise (ExternalError []);
              pdf_pages := fun _ => Ok [lit "Page one."; lit "  "; lit "Page three."];
              docx_paragraphs := fun _ => Raise (ExternalError []);
              makedirs := fun _ => Ok () |} in
  Py.lower (splitext_ext (lit "./uploads/Lease.PDF")) = lit ".pdf"
  /\ has_pypdf2 w = true
  /\ pdf_pages w (lit "./uploads/Lease.PDF")
     = Ok [lit "Page one."; lit "  "; lit "Page three."]
  /\ exists records chunks,
       parse_file w (lit "./uploads/Lease.PDF") = Ok records
       /\ length records = 3%nat
       /\ (forall i t, [lit "Page one."; lit "  "; lit "Page three."] !! i = Some t ->
             records !! i
             = Some {| rec_text := t;
                       rec_metadata := <["page" := VInt (1 + Z.of_nat i)]>
                                         (<["source" := VStr (basename (lit "./uploads/Lease.PDF"))]> ∅) |})
       /\ chunk_records records = Ok chunks
       /\ Forall (fun c => exists i, (i < 3)%nat
                    /\ metadata c !! "page" = Some (VInt (1 + Z.of_nat i)))
            chunks.
Proof.
  intros w.
  assert (H1 : Py.lower (splitext_ext (lit "./uploads/Lease.PDF")) = lit ".pdf")
    by reflexivity.
  assert (H2 : has_pypdf2 w = true) by reflexivity.
  assert (H3 : pdf_pages w (lit "./uploads/Lease.PDF")
               = Ok [lit "Page one."; lit "  "; lit "Page three."]) by reflexivity.
  split; [exact H1|]. split; [exact H2|]. split; [exact H3|].
  exact (pdf_pages_numbered w (lit "./uploads/Lease.PDF")
           [lit "Page one."; lit "  "; lit "Page three."] H1 H2 H3).
Defined.

(** ** Prompt inputs *)

Section PromptInputs.

Lemma contains_trans (p q s : pystr) :
  Py.contains p q = true -> Py.contains q s = true -> Py.contains p s = true.
Proof.
  intros (a & b & ->)%contains_inv (a' & b' & ->)%contains_inv.
  apply (contains_intro p _ (a' ++ a) (b ++ b')). by rewrite <- !app_assoc.
Qed.

Lemma contains_refl (p : pystr) : Py.contains p p = true.
Proof. apply (contains_intro p p [] []). by rewrite app_nil_r. Qed.

Lemma join_cons sep (p : pystr) rest :
  Py.join sep (p :: rest)
  = match rest with [] => p | _ => p ++ sep ++ Py.join sep rest end.
Proof. by destruct rest. Qed.

(** A joined string holds each of its parts. *)
Lemma join_contains sep (parts : list pystr) t :
  t ∈ parts -> Py.contains t (Py.join sep parts) = true.
Proof.
  induction parts as [|p parts IH]; [by intros ?%elem_of_nil|].
  rewrite join_cons. intros [->|Hin]%elem_of_cons.
  - destruct parts; [apply contains_refl|].
    apply (contains_intro p _ [] _ eq_refl).
  - destruct parts as [|q parts]; [by apply elem_of_nil in Hin|].
    apply (contains_trans _ _ _ (IH Hin)).
    apply (contains_intro _ _ (p ++ sep) []). by rewrite app_nil_r, <- app_assoc.
Qed.

Lemma citations_from_docs_join docs :
  _citations_from_docs docs = join_citations (map doc_metadata docs).
Proof.
  unfold _citations_from_docs, join_citations. by rewrite map_map.
Qed.

Lemma strip_solid_head c (s : pystr) :
  Chr.is_space c = false -> Py.strip (c :: s) = c :: Py.rstrip s.
Proof.
  intros Hc. unfold Py.strip. rewrite lstrip_solid by done.
  by apply rstrip_cons_solid.
Qed.

Lemma format_citation_bracket meta :
  exists rest, format_citation meta = "["%char :: rest.
Proof. unfold format_citation. destruct (get meta "page"); by eexists. Qed.

(** The citation string of at least one document is not blank. *)
Lemma citations_not_blank d docs :
  Py.strip (_citations_from_docs (d :: docs)) ≠ [].
Proof.
  rewrite citations_from_docs_join, join_citations_first. simpl map.
  rewrite first_occurrences_cons, join_cons.
  destruct (format_citation_bracket (doc_metadata d)) as [rest ->].
  destruct (filter _ _); simpl; by rewrite strip_solid_head.
Qed.

End PromptInputs.

(** X10.  The inputs of the answer prompt lose nothing: the question is
    passed as it is, the text of every retrieved document lies in the
    context, its citation tag lies in the citation string, and that string
    is what [join_citations] gives for the metadata of the documents. *)
Theorem qa_inputs_complete (question : pystr) (docs : list document) (d : document) :
  d ∈ docs ->
  qa_inputs question docs !! "question" = Some question
  /\ (exists context, qa_inputs question docs !! "context" = Some context
        /\ Py.contains (page_content d) context = true)
  /\ (exists citations, qa_inputs question docs !! "citations" = Some citations
        /\ citations = join_citations (map doc_metadata docs)
        /\ Py.contains (format_citation (doc_metadata d)) citations = true).
Proof.
  intros Hd. unfold qa_inputs. split; [by simplify_map_eq|]. split.
  - eexists. split; [by simplify_map_eq|]. unfold _format_docs.
    apply join_contains. by apply list_elem_of_fmap_2.
  - eexists. split; [by simplify_map_eq|].
    split; [apply citations_from_docs_join|].
    rewrite citations_from_docs_join, join_citations_first.
    apply join_contains, first_occurrences_elem.
    apply (list_elem_of_fmap_2 format_citation).
    by apply (list_elem_of_fmap_2 doc_metadata).
Qed.

Lemma qa_inputs_complete_witness :
  let d := {| page_content := lit "Rent is due monthly.";
              doc_metadata := <["chunk_id" := chunk_id_of 4]>
                                (<["source" := VStr (lit "lease.pdf")]> ∅) |} in
  d ∈ [d; d]
  /\ qa_inputs (lit "When is rent due?") [d; d] !! "question"
     = Some (lit "When is rent due?")
  /\ (exists context, qa_inputs (lit "When is rent due?") [d; d] !! "context"
                      = Some context
        /\ Py.contains (page_content d) context = true)
  /\ (exists citations, qa_inputs (lit "When is rent due?") [d; d] !! "citations"
                        = Some citations
        /\ citations = join_citations (map doc_metadata [d; d])
        /\ Py.contains (format_citation (doc_metadata d)) citations = true).
Proof.
  intros d.
  assert (H : d ∈ [d; d]) by left.
  split; [exact H|]. exact (qa_inputs_complete (lit "When is rent due?") [d; d] d H).
Defined.

(** X11.  Whatever the payload, [grounded_or_idk] returns either the forced
    payload or the payload itself, the latter only when the context and the
    citations are both not blank; the summary prompt can always be built
    from what it returns, and applying it again changes nothing. *)
Theorem grounded_or_idk_total (payload : gmap string pystr) :
  (grounded_or_idk payload = forced_payload
   \/ (grounded_or_idk payload = payload
       /\ Py.strip (get_text payload "context") ≠ []
       /\ Py.strip (get_text payload "citations") ≠ []))
  /\ (exists prompt, summary_prompt (grounded_or_idk payload) = Ok prompt)
  /\ grounded_or_idk (grounded_or_idk payload) = grounded_or_idk payload.
Proof.
  assert (grounded_or_idk payload = forced_payload
          \/ (grounded_or_idk payload = payload
              /\ Py.strip (get_text payload "context") ≠ []
              /\ Py.strip (get_text payload "citations") ≠ [])) as Hcases.
  { unfold grounded_or_idk.
    destruct (Py.strip (get_text payload "context")); [by left|].
    destruct (Py.strip (get_text payload "citations")); [by left|by right]. }
  split; [exact Hcases|].
  destruct Hcases as [Hf|(Hp & Hc & Hk)].
  - rewrite Hf. split; [by eexists|reflexivity].
  - rewrite !Hp. split; [|done].
    unfold summary_prompt, template_var, get_text in *.
    destruct (payload !! "context"); [|done].
    destruct (payload !! "citations"); [|done]. by eexists.
Qed.

(** X12.  The guard of the summary chain lets documents through whenever
    their joined text is not blank: the prompt inputs are then the context
    and the citations of the documents, unchanged. *)
Theorem summary_inputs_pass (docs : list document) :
  Py.strip (_format_docs docs) ≠ [] ->
  grounded_or_idk (summary_inputs docs) = summary_inputs docs
  /\ summary_inputs docs !! "context" = Some (_format_docs docs)
  /\ summary_inputs docs !! "citations" = Some (_citations_from_docs docs).
Proof.
  intros Hctx. destruct docs as [|d docs]; [done|].
  assert (summary_inputs (d :: docs) !! "context" = Some (_format_docs (d :: docs)))
    as Hc by (unfold summary_inputs; by simplify_map_eq).
  assert (summary_inputs (d :: docs) !! "citations"
          = Some (_citations_from_docs (d :: docs)))
    as Hk by (unfold summary_inputs; by simplify_map_eq).
  split; [|done]. unfold grounded_or_idk, get_text. rewrite Hc, Hk. simpl default.
  pose proof (citations_not_blank d docs) as Hcits.
  destruct (Py.strip (_format_docs (d :: docs))); [done|].
  by destruct (Py.strip (_citations_from_docs (d :: docs))).
Qed.

Lemma summary_inputs_pass_witness :
  let d := {| page_content := lit "Rent is due monthly.";
              doc_metadata := <["source" := VStr (lit "lease.pdf")]> ∅ |} in
  Py.strip (_format_docs [d]) ≠ []
  /\ grounded_or_idk (summary_inputs [d]) = summary_inputs [d]
  /\ summary_inputs [d] !! "context" = Some (_format_docs [d])
  /\ summary_inputs [d] !! "citations" = Some (_citations_from_docs [d]).
Proof.
  intros d.
  assert (H : Py.strip (_format_docs [d]) ≠ []) by (vm_compute; discriminate).
  split; [exact H|]. exact (summary_inputs_pass [d] H).
Defined.

(** ** Chains *)

Section Chains.

Lemma check_key_spec sv :
  check_key sv = if truthy (api_key sv) then Ok () else Raise (RuntimeError key_missing).
Proof. unfold check_key, truthy. by destruct (api_key sv) as [[|c k]|]. Qed.

Lemma build_summary_as_qa sv :
  build_summary_chain sv
  = build_qa_chain sv ≫= fun _ => Ok SummaryChain.
Proof.
  unfold build_summary_chain, build_qa_chain.
  destruct (get_retriever sv) as [[]| |]; simpl; [|done|done].
  destruct (check_reorder sv) as [[]| |]; simpl; [|done|done].
  by destruct (get_llm sv) as [[]| |].
Qed.

(** The checks of [build_qa_chain] in the order they are made; the second
    look at the key and the package, in [get_llm], cannot fail. *)
Lemma build_qa_chain_steps sv :
  build_qa_chain sv
  = check_key sv ≫= fun _ => check_nvidia sv ≫= fun _ =>
    open_collection sv ≫= fun _ => check_reorder sv ≫= fun _ => Ok QAChain.
Proof.
  unfold build_qa_chain, get_retriever, get_embeddings, get_llm.
  destruct (check_key sv) as [[]| |]; simpl; [|done|done].
  destruct (check_nvidia sv) as [[]| |]; simpl; [|done|done].
  destruct (open_collection sv) as [[]| |]; simpl; [|done|done].
  by destruct (check_reorder sv) as [[]| |].
Qed.

Lemma check_nvidia_spec sv :
  (nvidia_installed sv = true /\ check_nvidia sv = Ok ())
  \/ (nvidia_installed sv = false /\ exists msg, check_nvidia sv = Raise (RuntimeError msg)).
Proof.
  unfold check_nvidia. destruct (nvidia_installed sv); [by left|right].
  split; [done|by eexists].
Qed.

Lemma check_reorder_spec sv :
  (reorder_installed sv = true /\ check_reorder sv = Ok ())
  \/ (reorder_installed sv = false
      /\ exists msg, check_reorder sv = Raise (RuntimeError msg)).
Proof.
  unfold check_reorder. destruct (reorder_installed sv); [by left|right].
  split; [done|by eexists].
Qed.

Lemma build_qa_chain_ok sv c :
  build_qa_chain sv = Ok c ->
  c = QAChain /\ truthy (api_key sv) = true /\ nvidia_installed sv = true
  /\ open_collection sv = Ok () /\ reorder_installed sv = true.
Proof.
  rewrite build_qa_chain_steps, check_key_spec.
  destruct (truthy (api_key sv)); simpl; [|done].
  destruct (check_nvidia_spec sv) as [[Hn ->]|[_ [msg ->]]]; simpl; [|done].
  destruct (open_collection sv) as [[]| |]; simpl; [|done|done].
  destruct (check_reorder_spec sv) as [[Hr ->]|[_ [msg ->]]]; simpl; [|done].
  by intros [= <-].
Qed.

(** A chain that is there stays, whatever the services. *)
Lemma ensure_chains_built sv c1 c2 :
  ensure_chains sv {| qa_chain := Some c1; summary_chain := Some c2 |}
  = ({| qa_chain := Some c1; summary_chain := Some c2 |}, Ok ()).
Proof. reflexivity. Qed.

Lemma ensure_chains_ok sv st st' :
  ensure_chains sv st = (st', Ok ()) ->
  exists c1 c2, st' = {| qa_chain := Some c1; summary_chain := Some c2 |}
    /\ (qa_chain st = None -> c1 = QAChain)
    /\ (forall c, qa_chain st = Some c -> c1 = c)
    /\ (summary_chain st = None -> c2 = SummaryChain)
    /\ (forall c, summary_chain st = Some c -> c2 = c).
Proof.
  unfold ensure_chains. destruct st as [[q|] [m|]]; simpl.
  - intros [= <-]. exists q, m. repeat split; congruence.
  - destruct (build_summary_chain sv) as [c| |] eqn:E; [|done|done].
    intros [= <-]. exists q, c. rewrite build_summary_as_qa in E.
    destruct (build_qa_chain sv); [|done|done]. simpl in E.
    repeat split; congruence.
  - destruct (build_qa_chain sv) as [c| |] eqn:E; [|done|done].
    intros [= <-]. exists c, m. apply build_qa_chain_ok in E as [-> _].
    repeat split; congruence.
  - destruct (build_qa_chain sv) as [c| |] eqn:E; [|done|done].
    rewrite build_summary_as_qa, E. simpl. intros [= <-].
    apply build_qa_chain_ok in E as [-> _].
    exists QAChain, SummaryChain. repeat split; congruence.
Qed.

(** [ensure_chains] raises what building the first missing chain raises. *)
Lemma ensure_chains_raise sv st st' e :
  ensure_chains sv st = (st', Raise e) -> build_qa_chain sv = Raise e.
Proof.
  unfold ensure_chains. destruct st as [[q|] [m|]]; simpl.
  - done.
  - rewrite build_summary_as_qa.
    destruct (build_qa_chain sv); simpl; congruence.
  - destruct (build_qa_chain sv); simpl; congruence.
  - rewrite build_summary_as_qa.
    destruct (build_qa_chain sv); simpl; congruence.
Qed.

Lemma build_qa_chain_raise sv e :
  build_qa_chain sv = Raise e ->
  (exists msg, e = RuntimeError msg) \/ open_collection sv = Raise e.
Proof.
  rewrite build_qa_chain_steps, check_key_spec.
  destruct (truthy (api_key sv)); simpl; [|intros [= <-]; left; by eexists].
  destruct (check_nvidia_spec sv) as [[Hn ->]|[_ [msg ->]]]; simpl;
    [|intros [= <-]; left; by eexists].
  destruct (open_collection sv) as [[]| |]; simpl; [|intros [= ->]; by right|done].
  destruct (check_reorder_spec sv) as [[Hr ->]|[_ [msg ->]]]; simpl; [done|].
  intros [= <-]; left; by eexists.
Qed.

End Chains.

(** X13.  The two chains are built under the same conditions: a key that
    is set and not empty, the NVIDIA package, a collection that opens and
    the reordering class.  When the key is missing both builders raise the
    message about the key, whatever else is missing; and whatever one
    raises, the other raises too. *)
Theorem build_chains_agree (sv : services) :
  build_summary_chain sv = build_qa_chain sv ≫= (fun _ => Ok SummaryChain)
  /\ (if truthy (api_key sv)
      then match build_qa_chain sv with
           | Ok c =>
               c = QAChain /\ nvidia_installed sv = true
               /\ open_collection sv = Ok () /\ reorder_installed sv = true
           | _ => nvidia_installed sv = false \/ open_collection sv ≠ Ok ()
                  \/ reorder_installed sv = false
           end
      else build_qa_chain sv = Raise (RuntimeError key_missing)).
Proof.
  split; [apply build_summary_as_qa|].
  rewrite build_qa_chain_steps, check_key_spec.
  destruct (truthy (api_key sv)); simpl; [|done].
  destruct (check_nvidia_spec sv) as [[Hn ->]|[Hn [msg ->]]]; simpl; [|by left].
  destruct (open_collection sv) as [[]| |] eqn:Eo; simpl;
    [|by right; left|by right; left].
  destruct (check_reorder_spec sv) as [[Hr ->]|[Hr [msg ->]]]; simpl;
    [done|by right; right].
Qed.

(** X14.  Once [ensure_chains] has returned, both chains are there, a chain
    that was there before is the same one, and calling [ensure_chains]
    again, with whatever services, builds nothing and returns. *)
Theorem ensure_chains_cached (sv sv' : services) (st st' : app_state) :
  ensure_chains sv st = (st', Ok ()) ->
  is_Some (qa_chain st') /\ is_Some (summary_chain st')
  /\ (forall c, qa_chain st = Some c -> qa_chain st' = Some c)
  /\ (forall c, summary_chain st = Some c -> summary_chain st' = Some c)
  /\ ensure_chains sv' st' = (st', Ok ()).
Proof.
  intros (c1 & c2 & -> & _ & Hq & _ & Hs)%ensure_chains_ok. simpl.
  split; [by eexists|]. split; [by eexists|].
  split; [intros c Hc; by rewrite (Hq c Hc)|].
  split; [intros c Hc; by rewrite (Hs c Hc)|].
  apply ensure_chains_built.
Qed.

Lemma ensure_chains_cached_witness :
  let broken := {| api_key := None; nvidia_installed := false;
                   reorder_installed := false;
                   open_collection := Raise (ExternalError []);
                   retrieve := fun _ => Raise (ExternalError []);
                   reorder := fun docs => docs;
                   llm_stream := fun _ => ([], None) |} in
  let built := {| qa_chain := Some QAChain; summary_chain := Some SummaryChain |} in
  ensure_chains empty_index no_chains = (built, Ok ())
  /\ is_Some (qa_chain built) /\ is_Some (summary_chain built)
  /\ (forall c, qa_chain no_chains = Some c -> qa_chain built = Some c)
  /\ (forall c, summary_chain no_chains = Some c -> summary_chain built = Some c)
  /\ ensure_chains broken built = (built, Ok ()).
Proof.
  intros broken built.
  assert (H : ensure_chains empty_index no_chains = (built, Ok ())) by reflexivity.
  split; [exact H|].
  exact (ensure_chains_cached empty_index broken no_chains built H).
Defined.

(** ** Answers *)

Section Answers.

Variables (sv : services) (st : app_state) (question : pystr)
  (history : list chat_message).

Local Abbreviation q_lower := (Py.strip (Py.lower question)).
Local Abbreviation asked := (history ++ [user question]).

Lemma any_in_app l1 l2 q : any_in (l1 ++ l2) q = any_in l1 q || any_in l2 q.
Proof. apply existsb_app. Qed.

(** The tokens behind the canned replies are those of the allow-list of
    [guard_unrelated]. *)
Lemma allow_list_split q :
  any_in (greetings ++ assistant_phrases) q
  = any_in greeting_tokens q || any_in [lit "how are you"] q
    || any_in [lit "thanks"; lit "thank you"] q || any_in assistant_phrases q.
Proof.
  change greetings
    with (greeting_tokens ++ [lit "how are you"] ++ [lit "thanks"; lit "thank you"]).
  rewrite !any_in_app. by rewrite !orb_assoc.
Qed.

Lemma stream_answer_unfold :
  stream_answer sv st question history
  = if any_in greeting_tokens q_lower then reply_once st asked greeting_reply
    else if any_in [lit "how are you"] q_lower
    then reply_once st asked (wide how_are_you_reply)
    else if any_in assistant_phrases q_lower then reply_once st asked about_reply
    else if any_in [lit "thanks"; lit "thank you"] q_lower
    then reply_once st asked (wide thanks_reply)
    else if guard_unrelated question then reply_once st asked (wide off_topic_reply)
    else
      match ensure_chains sv st with
      | (st', Raise (RuntimeError msg)) => reply_once st' asked (wide msg)
      | (st', Raise e) =>
          {| yields := []; globals := st'; outside := []; escaped := Some e |}
      | (st', OutOfFuel) =>
          {| yields := []; globals := st'; outside := []; escaped := None |}
      | (st', Ok _) =>
          match qa_chain st' with
          | None => reply_once st' asked (wide no_index_reply)
          | Some _ =>
              let r := qa_stream sv question in
              {| yields :=
                   [asked ++ [assistant []]] ++ growing asked [] (streamed r) ++
                   match failure r with
                   | Some e => [asked ++ [assistant (lit "Answer error: " ++ exn_str e)]]
                   | None => []
                   end;
                 globals := st';
                 outside := calls r;
                 escaped := None |}
          end
      end.
Proof. reflexivity. Qed.

Lemma asked_reply reply :
  asked ++ [assistant_says reply] = history ++ [user question; assistant_says reply].
Proof. by rewrite <- app_assoc. Qed.

Lemma growing_shape (h : list chat_message) chunks : forall acc,
  Forall (fun y => exists reply, y = h ++ [assistant_says reply]) (growing h acc chunks).
Proof.
  induction chunks as [|part chunks IH]; intros acc; simpl; constructor; eauto.
Qed.

Lemma growing_length (h : list chat_message) chunks : forall acc,
  length (growing h acc chunks) = length chunks.
Proof. induction chunks as [|part chunks IH]; intros acc; simpl; by rewrite ?IH. Qed.

Lemma growing_last (h : list chat_message) chunks : forall acc,
  last ((h ++ [assistant acc]) :: growing h acc chunks)
  = Some (h ++ [assistant (acc ++ concat chunks)]).
Proof.
  induction chunks as [|part chunks IH]; intros acc.
  - simpl. by rewrite app_nil_r.
  - simpl growing. rewrite last_cons_cons, IH. simpl. by rewrite app_assoc.
Qed.

(** When [ensure_chains] has returned, the answer chain runs. *)
Lemma stream_answer_chain st' :
  any_in (greetings ++ assistant_phrases) q_lower = false ->
  guard_unrelated question = false ->
  ensure_chains sv st = (st', Ok ()) ->
  stream_answer sv st question history
  = let r := qa_stream sv question in
    {| yields :=
         [asked ++ [assistant []]] ++ growing asked [] (streamed r) ++
         match failure r with
         | Some e => [asked ++ [assistant (lit "Answer error: " ++ exn_str e)]]
         | None => []
         end;
       globals := st';
       outside := calls r;
       escaped := None |}.
Proof.
  intros Hallow Hguard Hensure. rewrite stream_answer_unfold.
  rewrite allow_list_split in Hallow.
  apply orb_false_iff in Hallow as [Hallow ->].
  apply orb_false_iff in Hallow as [Hallow ->].
  apply orb_false_iff in Hallow as [-> ->].
  rewrite Hguard, Hensure.
  apply ensure_chains_ok in Hensure as (c1 & c2 & -> & _). reflexivity.
Qed.

End Answers.

(** X15.  A question that holds an allow-listed token, or that the topical
    guard blocks, is answered by one of the five canned replies in a single
    yield: no call leaves the program, the chains are left as they were and
    nothing is raised. *)
Theorem canned_replies_offline (sv : services) (st : app_state) (question : pystr)
  (history : list chat_message) :
  any_in (greetings ++ assistant_phrases) (Py.strip (Py.lower question)) = true
  \/ guard_unrelated question = true ->
  let a := stream_answer sv st question history in
  outside a = [] /\ globals a = st /\ escaped a = None
  /\ exists reply, reply ∈ canned_replies
       /\ yields a = [history ++ [user question; assistant_says reply]].
Proof.
  intros H a. subst a. rewrite stream_answer_unfold. unfold canned_replies.
  rewrite allow_list_split in H.
  destruct (any_in greeting_tokens _).
  { repeat split. eexists. split; [|simpl; by rewrite <- app_assoc].
    apply list_elem_of_In. simpl. tauto. }
  destruct (any_in [lit "how are you"] _).
  { repeat split. eexists. split; [|simpl; by rewrite <- app_assoc].
    apply list_elem_of_In. simpl. tauto. }
  destruct (any_in assistant_phrases _).
  { repeat split. eexists. split; [|simpl; by rewrite <- app_assoc].
    apply list_elem_of_In. simpl. tauto. }
  destruct (any_in [lit "thanks"; lit "thank you"] _).
  { repeat split. eexists. split; [|simpl; by rewrite <- app_assoc].
    apply list_elem_of_In. simpl. tauto. }
  destruct H as [H|H]; [done|]. rewrite H.
  repeat split. eexists. split; [|simpl; by rewrite <- app_assoc].
  apply list_elem_of_In. simpl. tauto.
Qed.

Lemma canned_replies_offline_witness :
  let a := stream_answer empty_index no_chains (lit "Thank you!") [] in
  (any_in (greetings ++ assistant_phrases) (Py.strip (Py.lower (lit "Thank you!")))
   = true
   \/ guard_unrelated (lit "Thank you!") = true)
  /\ outside a = [] /\ globals a = no_chains /\ escaped a = None
  /\ exists reply, reply ∈ canned_replies
       /\ yields a = [[] ++ [user (lit "Thank you!"); assistant_says reply]].
Proof.
  intros a.
  assert (H : any_in (greetings ++ assistant_phrases)
                (Py.strip (Py.lower (lit "Thank you!"))) = true
              \/ guard_unrelated (lit "Thank you!") = true) by (left; reflexivity).
  split; [exact H|].
  exact (canned_replies_offline empty_index no_chains (lit "Thank you!") [] H).
Defined.

(** X16.  Every history that [stream_answer] yields is the history it was
    given followed by the question and one assistant message.  An exception
    escapes only when opening the collection raises something that is not a
    [RuntimeError]: it is that exception, and nothing has been yielded. *)
Theorem stream_answer_histories (sv : services) (st : app_state) (question : pystr)
  (history : list chat_message) :
  let a := stream_answer sv st question history in
  Forall (fun y => exists reply, y = history ++ [user question; assistant_says reply])
    (yields a)
  /\ match escaped a with
     | Some e => open_collection sv = Raise e
                 /\ (forall msg, e ≠ RuntimeError msg) /\ yields a = []
     | None => True
     end.
Proof.
  intros a. subst a. rewrite stream_answer_unfold.
  assert (forall st' reply,
            Forall (fun y => exists reply, y = history ++ [user question; assistant_says reply])
              (yields (reply_once st' (history ++ [user question]) reply))) as Hone.
  { intros st' reply. constructor; [|done]. exists reply. by rewrite <- app_assoc. }
  repeat (match goal with |- context [if ?b then _ else _] => destruct b end;
          [by split; [apply Hone|]|]).
  destruct (ensure_chains sv st) as [st' [[]|e|]] eqn:E.
  - destruct (qa_chain st'); [|by split; [apply Hone|]].
    split; [|done]. simpl yields. constructor.
    + eexists. apply asked_reply.
    + apply Forall_app. split.
      * eapply Forall_impl; [apply growing_shape|].
        intros y [reply ->]. eexists. apply asked_reply.
      * destruct (failure _); [|done]. constructor; [|done].
        eexists. apply asked_reply.
  - apply ensure_chains_raise in E. destruct e as [msg| | | |];
      try (by split; [apply Hone|]);
      (split; [done|]); simpl;
      (apply build_qa_chain_raise in E as [[msg' ?]|E]; [done|]);
      by repeat split.
  - by split.
Qed.

(** X17.  When the question reaches the answer chain, the first yield holds
    an empty assistant message, one yield follows per streamed chunk, and
    the last yield holds the whole answer, the chunks put together; when the
    stream fails, one more yield replaces the partial answer by the error
    message.  The calls made are those of the chain. *)
Theorem stream_answer_final (sv : services) (st st' : app_state) (question : pystr)
  (history : list chat_message) :
  any_in (greetings ++ assistant_phrases) (Py.strip (Py.lower question)) = false ->
  guard_unrelated question = false ->
  ensure_chains sv st = (st', Ok ()) ->
  let a := stream_answer sv st question history in
  let r := qa_stream sv question in
  head (yields a) = Some (history ++ [user question; assistant []])
  /\ length (yields a)
     = (1 + length (streamed r) + match failure r with Some _ => 1 | None => 0 end)%nat
  /\ last (yields a)
     = Some (history ++
             [user question;
              assistant (match failure r with
                         | Some e => lit "Answer error: " ++ exn_str e
                         | None => concat (streamed r)
                         end)])
  /\ outside a = calls r /\ globals a = st' /\ escaped a = None.
Proof.
  intros Hallow Hguard Hensure a r. subst a.
  rewrite (stream_answer_chain sv st question history st' Hallow Hguard Hensure).
  fold r. simpl. split; [by rewrite <- app_assoc|]. split.
  { rewrite length_app, growing_length. destruct (failure r); simpl; lia. }
  split; [|done].
  unfold assistant. rewrite <- (asked_reply question history).
  destruct (failure r) as [e|].
  - rewrite app_comm_cons, last_snoc. reflexivity.
  - rewrite app_nil_r. apply (growing_last _ (streamed r) []).
Qed.

Lemma stream_answer_final_witness :
  let a := stream_answer empty_index no_chains clause_question [] in
  let r := qa_stream empty_index clause_question in
  any_in (greetings ++ assistant_phrases) (Py.strip (Py.lower clause_question)) = false
  /\ guard_unrelated clause_question = false
  /\ ensure_chains empty_index no_chains
     = ({| qa_chain := Some QAChain; summary_chain := Some SummaryChain |}, Ok ())
  /\ head (yields a) = Some ([] ++ [user clause_question; assistant []])
  /\ length (yields a)
     = (1 + length (streamed r) + match failure r with Some _ => 1 | None => 0 end)%nat
  /\ last (yields a)
     = Some ([] ++
             [user clause_question;
              assistant (match failure r with
                         | Some e => lit "Answer error: " ++ exn_str e
                         | None => concat (streamed r)
                         end)])
  /\ outside a = calls r
  /\ globals a = {| qa_chain := Some QAChain; summary_chain := Some SummaryChain |}
  /\ escaped a = None.
Proof.
  intros a r.
  assert (H1 : any_in (greetings ++ assistant_phrases)
                 (Py.strip (Py.lower clause_question)) = false) by reflexivity.
  assert (H2 : guard_unrelated clause_question = false) by reflexivity.
  assert (H3 : ensure_chains empty_index no_chains
               = ({| qa_chain := Some QAChain; summary_chain := Some SummaryChain |},
                  Ok ())) by reflexivity.
  split; [exact H1|]. split; [exact H2|]. split; [exact H3|].
  exact (stream_answer_final empty_index no_chains _ clause_question [] H1 H2 H3).
Defined.

(** X18.  A question with one of the greeting tokens anywhere in its
    lower-cased text, inside a word too ("hi" in "this" or "within"), gets
    the greeting reply: it never reaches the guard, the retriever or the
    model. *)
Theorem greeting_substring_reply (sv : services) (st : app_state)
  (question token : pystr) (history : list chat_message) :
  token ∈ greeting_tokens ->
  Py.contains token (Py.lower question) = true ->
  let a := stream_answer sv st question history in
  yields a = [history ++ [user question; assistant_says greeting_reply]]
  /\ outside a = [] /\ globals a = st /\ escaped a = None.
Proof.
  intros Hin Hc a. subst a. rewrite stream_answer_unfold.
  assert (token ∈ greetings ++ assistant_phrases) as Hallow.
  { apply elem_of_app. left. revert Hin. unfold greeting_tokens, greetings.
    rewrite !elem_of_cons. tauto. }
  pose proof allow_list_shape as Hshape. rewrite Forall_forall in Hshape.
  destruct (Hshape token Hallow) as [_ Hsolid].
  rewrite (any_in_intro _ _ _ Hin (contains_strip _ _ Hsolid Hc)).
  simpl. by rewrite <- app_assoc.
Qed.

Lemma greeting_substring_reply_witness :
  let a := stream_answer empty_index no_chains
             (lit "What does this clause say within 30 days?") [] in
  lit "hi" ∈ greeting_tokens
  /\ Py.contains (lit "hi") (Py.lower (lit "What does this clause say within 30 days?"))
     = true
  /\ yields a
     = [[] ++ [user (lit "What does this clause say within 30 days?");
               assistant_says greeting_reply]]
  /\ outside a = [] /\ globals a = no_chains /\ escaped a = None.
Proof.
  intros a.
  assert (H1 : lit "hi" ∈ greeting_tokens) by left.
  assert (H2 : Py.contains (lit "hi")
                 (Py.lower (lit "What does this clause say within 30 days?")) = true)
    by reflexivity.
  split; [exact H1|]. split; [exact H2|].
  exact (greeting_substring_reply empty_index no_chains
           (lit "What does this clause say within 30 days?") (lit "hi") [] H1 H2).
Defined.

(** ** Coverage of the text by the windows *)

Section Coverage.

Variables (t : pystr) (chunk_min chunk_max overlap : Z).

Local Abbreviation n := (Py.len t).

Lemma slice_take_drop (s : pystr) lo hi :
  0 <= lo <= hi -> hi <= Py.len s ->
  Py.slice s lo hi = take (Z.to_nat (hi - lo)) (drop (Z.to_nat lo) s).
Proof.
  intros Hlo Hhi. unfold Py.slice, Py.clamp, Py.len in *.
  destruct (Z.ltb_spec lo 0); [lia|]. destruct (Z.ltb_spec hi 0); [lia|].
  by rewrite !Z.min_l by lia.
Qed.

Lemma window_take_drop start :
  0 <= chunk_max -> 0 <= start <= n ->
  window_at t chunk_max start
  = take (Z.to_nat (hard_end t chunk_max start - start)) (drop (Z.to_nat start) t).
Proof.
  intros Hmax Hs. unfold window_at. apply slice_take_drop; unfold hard_end; lia.
Qed.

(** From a start inside the text, the loop appends windows that cover the
    text from that start on and overlap as asked. *)
Lemma chunk_loop_cover fuel : forall start chunks r,
  0 <= overlap < chunk_max -> 0 <= start < n ->
  chunk_loop fuel t n chunk_min chunk_max overlap start chunks = Some r ->
  exists w ws,
    r = chunks ++ w :: ws
    /\ w = window_at t chunk_max start
    /\ stitch overlap (w :: ws) = drop (Z.to_nat start) t
    /\ overlapping chunk_max overlap (w :: ws).
Proof.
  induction fuel as [|fuel IH]; intros start chunks r Hov Hs; [done|].
  simpl. destruct (Z.ltb_spec start n) as [_|]; [|lia].
  rewrite chunk_step_hard by lia.
  pose proof (window_take_drop start ltac:(lia) ltac:(lia)) as Hw.
  pose proof (window_len t chunk_max start ltac:(lia) ltac:(lia)) as Hlen.
  destruct (Z.leb_spec n (hard_end t chunk_max start)) as [Hlast|Hmore].
  - intros [= <-]. exists (window_at t chunk_max start), [].
    split; [done|]. split; [done|]. split; [|done].
    simpl. rewrite app_nil_r, Hw. apply take_ge.
    rewrite length_drop. unfold hard_end, Py.len in *. lia.
  - assert (hard_end t chunk_max start = start + chunk_max) as He
      by (unfold hard_end in *; lia).
    rewrite He in *.
    replace (Z.max 0 (start + chunk_max - overlap))
      with (start + chunk_max - overlap) by lia.
    intros H. apply IH in H as (w' & ws & -> & Hw' & Hstitch & Hover); [|done|lia].
    exists (window_at t chunk_max start), (w' :: ws).
    split; [by rewrite <- app_assoc|]. split; [done|].
    pose proof (window_len t chunk_max (start + chunk_max - overlap)
                  ltac:(lia) ltac:(lia)) as Hlen'.
    rewrite <- Hw' in Hlen'.
    assert (overlap <= Py.len w') as Hlong by (unfold hard_end in Hlen'; lia).
    split.
    + unfold stitch in *. rewrite map_cons, concat_cons.
      rewrite <- (drop_app_le w') by (unfold Py.len in Hlong; lia).
      rewrite Hstitch, drop_drop, Hw.
      replace (Z.to_nat (start + chunk_max - overlap) + Z.to_nat overlap)%nat
        with (Z.to_nat start + Z.to_nat (start + chunk_max - start))%nat by lia.
      rewrite <- drop_drop. apply take_drop.
    + split; [|split; [lia|done]].
      rewrite Hw', Hw.
      rewrite (window_take_drop (start + chunk_max - overlap)) by lia.
      rewrite take_take, skipn_firstn_comm, drop_drop.
      replace (Z.to_nat start + Z.to_nat (chunk_max - overlap))%nat
        with (Z.to_nat (start + chunk_max - overlap)) by lia.
      f_equal. unfold hard_end in *. lia.
Qed.

End Coverage.

(** X19.  With [0 <= overlap < chunk_max] the windows of the chunker cover
    the trimmed text without gap: the first window followed by every other
    window less its first [overlap] characters is the trimmed text, and each
    window starts with the last [overlap] characters of the one before. *)
Theorem chunks_cover_text (text : pystr) (chunk_min chunk_max overlap : Z) (fuel : nat) :
  0 <= overlap < chunk_max -> (length (Py.strip text) < fuel)%nat ->
  exists windows,
    raw_chunks fuel text chunk_min chunk_max overlap = Some windows
    /\ char_chunk_text fuel text chunk_min chunk_max overlap
       = Some (strip_nonempty windows)
    /\ stitch overlap windows = Py.strip text
    /\ overlapping chunk_max overlap windows.
Proof.
  intros Hov Hfuel.
  destruct (raw_chunks_total text chunk_min chunk_max overlap fuel) as [ws Hws];
    [lia|done|].
  exists ws. split; [done|]. split; [unfold char_chunk_text; by rewrite Hws|].
  unfold raw_chunks in Hws. destruct (Py.strip text) as [|c s] eqn:Et.
  - destruct fuel; [done|]. injection Hws as <-. done.
  - apply chunk_loop_cover in Hws as (w & ws' & -> & _ & Hstitch & Hover).
    + by split.
    + done.
    + unfold Py.len. simpl. lia.
Qed.

Lemma chunks_cover_text_witness :
  0 <= 2 < 15 /\ (length (Py.strip (lit "  Hello world. Foo bar baz ")) < 30)%nat
  /\ exists windows,
       raw_chunks 30 (lit "  Hello world. Foo bar baz ") 5 15 2 = Some windows
       /\ char_chunk_text 30 (lit "  Hello world. Foo bar baz ") 5 15 2
          = Some (strip_nonempty windows)
       /\ stitch 2 windows = Py.strip (lit "  Hello world. Foo bar baz ")
       /\ overlapping 15 2 windows.
Proof.
  assert (H1 : 0 <= 2 < 15) by lia.
  assert (H2 : (length (Py.strip (lit "  Hello world. Foo bar baz ")) < 30)%nat)
    by (vm_compute; lia).
  split; [exact H1|]. split; [exact H2|].
  exact (chunks_cover_text (lit "  Hello world. Foo bar baz ") 5 15 2 30 H1 H2).
Defined.

(** ** What the guard reads of a question *)

Section GuardReads.

Implicit Types s u a b q : pystr.

Lemma lower_idem_char c : Chr.lower (Chr.lower c) = Chr.lower c.
Proof. destruct c as [[] [] [] [] [] [] [] []]; vm_compute; reflexivity. Qed.

Lemma lower_space_char c : Chr.is_space (Chr.lower c) = Chr.is_space c.
Proof. destruct c as [[] [] [] [] [] [] [] []]; vm_compute; reflexivity. Qed.

Lemma lower_idem s : Py.lower (Py.lower s) = Py.lower s.
Proof.
  unfold Py.lower. rewrite map_map. apply map_ext. intros c. apply lower_idem_char.
Qed.

Lemma lower_lstrip s : Py.lstrip (Py.lower s) = Py.lower (Py.lstrip s).
Proof.
  induction s as [|c s IH]; simpl; [done|].
  rewrite lower_space_char. by destruct (Chr.is_space c).
Qed.

Lemma lower_rstrip s : Py.rstrip (Py.lower s) = Py.lower (Py.rstrip s).
Proof.
  unfold Py.rstrip. unfold Py.lower at 1. rewrite <- map_rev.
  fold (Py.lower (rev s)). rewrite lower_lstrip.
  unfold Py.lower. by rewrite map_rev.
Qed.

Lemma lower_strip s : Py.strip (Py.lower s) = Py.lower (Py.strip s).
Proof. unfold Py.strip. by rewrite lower_lstrip, lower_rstrip. Qed.

Lemma lstrip_suffix s : exists a, s = a ++ Py.lstrip s.
Proof.
  induction s as [|c s [a IH]]; simpl; [by exists []|].
  destruct (Chr.is_space c); [|by exists []].
  exists (c :: a). simpl. by f_equal.
Qed.

Lemma strip_infix s : exists a b, s = a ++ Py.strip s ++ b.
Proof.
  destruct (lstrip_suffix s) as [a Ha].
  destruct (lstrip_suffix (rev (Py.lstrip s))) as [b Hb].
  exists a, (rev b). unfold Py.strip, Py.rstrip.
  rewrite <- rev_app_distr, <- Hb, rev_involutive. exact Ha.
Qed.

Lemma contains_within t a s b :
  Py.contains t s = true -> Py.contains t (a ++ s ++ b) = true.
Proof.
  intros (a' & b' & ->)%contains_inv.
  replace (a ++ (a' ++ t ++ b') ++ b) with ((a ++ a') ++ t ++ (b' ++ b))
    by (by rewrite <- !app_assoc).
  apply contains_app.
Qed.

Lemma any_in_inv tokens q :
  any_in tokens q = true -> exists t, t ∈ tokens /\ Py.contains t q = true.
Proof.
  unfold any_in. intros (t & Hin & Hc)%existsb_exists.
  exists t. split; [by apply list_elem_of_In|done].
Qed.

Lemma any_in_within tokens a s b :
  any_in tokens s = true -> any_in tokens (a ++ s ++ b) = true.
Proof.
  intros (t & Hin & Hc)%any_in_inv.
  apply (any_in_intro _ t); [done|]. by apply contains_within.
Qed.

Lemma any_in_unstrip tokens s :
  any_in tokens (Py.strip s) = true -> any_in tokens s = true.
Proof.
  intros H. destruct (strip_infix s) as (a & b & Hs).
  rewrite Hs. by apply any_in_within.
Qed.

Lemma any_in_subset tokens tokens' q :
  (forall t, t ∈ tokens -> t ∈ tokens') ->
  any_in tokens q = true -> any_in tokens' q = true.
Proof.
  intros Hsub (t & Hin & Hc)%any_in_inv.
  apply (any_in_intro _ t); [by apply Hsub|done].
Qed.

Lemma star_reads p : forall s prev k res,
  Re.star p prev s k = Some res ->
  exists u s' prev', s = u ++ s' /\ k prev' s' = Some res.
Proof.
  induction s as [|c s IH]; intros prev k res; simpl.
  - intros H. by exists [], [], prev.
  - destruct (p c); [|intros H; by exists [], (c :: s), prev].
    destruct (Re.star p (Some c) s k) as [r|] eqn:E.
    + intros [= <-]. apply IH in E as (u & s' & prev' & -> & Hk).
      by exists (c :: u), s', prev'.
    + intros H. by exists [], (c :: s), prev.
Qed.

Lemma literal_reads l : forall s prev k res,
  Re.literal l prev s k = Some res ->
  exists s' prev', s = l ++ s' /\ k prev' s' = Some res.
Proof.
  induction l as [|c l IH]; intros s prev k res; simpl.
  - intros H. by exists s, prev.
  - destruct s as [|d s]; [done|].
    destruct (Ascii.eqb c d) eqn:E; [|done]. apply Ascii.eqb_eq in E as ->.
    intros (s' & prev' & -> & Hk)%IH. by exists s', prev'.
Qed.

(** What a successful match has read: a prefix of the input that holds one
    of the anchors of the pattern. *)
Lemma rmatch_reads r : forall prev s k res,
  Re.rmatch r prev s k = Some res ->
  exists u s' prev',
    s = u ++ s' /\ k prev' s' = Some res
    /\ forall ws, anchors r = Some ws -> any_in ws u = true.
Proof.
  induction r as [p|p|l|r1 IH1 r2 IH2|r1 IH1 r2 IH2|r1 IH1| |];
    intros prev s k res; simpl.
  - destruct s as [|c s]; [done|]. destruct (p c); [|done].
    intros H. by exists [c], s, (Some c).
  - intros (u & s' & prev' & -> & Hk)%star_reads. by exists u, s', prev'.
  - intros (s' & prev' & -> & Hk)%literal_reads.
    exists l, s', prev'. split; [done|]. split; [done|].
    intros ws [= <-]. unfold any_in. simpl. by rewrite contains_refl.
  - intros (u1 & s1 & prev1 & -> & H2 & Hw1)%IH1.
    apply IH2 in H2 as (u2 & s2 & prev2 & -> & Hk & Hw2).
    exists (u1 ++ u2), s2, prev2. split; [by rewrite app_assoc|]. split; [done|].
    intros ws Hws. destruct (anchors r2) as [ws2|].
    + injection Hws as <-.
      rewrite <- (app_nil_r u2). apply any_in_within. by apply Hw2.
    + change (u1 ++ u2) with ([] ++ u1 ++ u2). apply any_in_within. by apply Hw1.
  - destruct (Re.rmatch r1 prev s k) as [res1|] eqn:E1.
    + intros [= <-]. apply IH1 in E1 as (u & s' & prev' & -> & Hk & Hw).
      exists u, s', prev'. split; [done|]. split; [done|].
      intros ws Hws. destruct (anchors r1) as [ws1|]; [|done].
      destruct (anchors r2) as [ws2|]; [|done]. injection Hws as <-.
      apply (any_in_subset ws1); [|by apply Hw].
      intros t Ht. apply elem_of_app. by left.
    + intros (u & s' & prev' & -> & Hk & Hw)%IH2.
      exists u, s', prev'. split; [done|]. split; [done|].
      intros ws Hws. destruct (anchors r1) as [ws1|]; [|done].
      destruct (anchors r2) as [ws2|]; [|done]. injection Hws as <-.
      apply (any_in_subset ws2); [|by apply Hw].
      intros t Ht. apply elem_of_app. by right.
  - destruct (Re.rmatch r1 prev s k) as [res1|] eqn:E1.
    + intros [= <-]. apply IH1 in E1 as (u & s' & prev' & -> & Hk & _).
      by exists u, s', prev'.
    + intros H. by exists [], s, prev.
  - destruct (xorb _ _); [|done]. intros H. by exists [], s, prev.
  - destruct s as [|c [|d s]]; [| |done].
    + intros H. by exists [], [], prev.
    + destruct (Chr.is_newline c); [|done]. intros H. by exists [], [c], prev.
Qed.

(** A pattern found in a string: one of its anchors is in the string. *)
Lemma search_from_anchor r ws : forall s prev i,
  anchors r = Some ws -> is_Some (Re.search_from r prev s i) ->
  any_in ws s = true.
Proof.
  intros s prev i Hws. revert prev i.
  induction s as [|c s IH]; intros prev i; rewrite search_from_unfold.
  - destruct (Re.rmatch r prev [] Re.finish) as [rest|] eqn:E; [|by intros [? ?]].
    intros _. apply rmatch_reads in E as (u & s' & prev' & Hs & _ & Hw).
    rewrite Hs. rewrite <- (app_nil_l (u ++ s')). apply any_in_within. by apply Hw.
  - destruct (Re.rmatch r prev (c :: s) Re.finish) as [rest|] eqn:E.
    + intros _. apply rmatch_reads in E as (u & s' & prev' & Hs & _ & Hw).
      rewrite Hs. rewrite <- (app_nil_l (u ++ s')). apply any_in_within. by apply Hw.
    + intros H. apply IH in H.
      change (c :: s) with ([c] ++ s). rewrite <- (app_nil_r s).
      by apply any_in_within.
Qed.

Lemma unrelated_patterns_anchored :
  Forall (fun p => exists ws, anchors p = Some ws
                              /\ forall t, t ∈ ws -> t ∈ block_words)
    unrelated_patterns.
Proof.
  repeat constructor; eexists; (split; [reflexivity|]);
    intros t Ht; apply list_elem_of_In in Ht; apply list_elem_of_In;
    simpl in Ht |- *; tauto.
Qed.

Lemma matches_unrelated_word q :
  matches_unrelated q = true -> any_in block_words q = true.
Proof.
  unfold matches_unrelated. intros (p & Hin & Hm)%existsb_exists.
  apply bool_decide_eq_true in Hm.
  pose proof unrelated_patterns_anchored as Hall. rewrite Forall_forall in Hall.
  destruct (Hall p (proj2 (list_elem_of_In _ _) Hin)) as (ws & Hws & Hsub).
  apply (any_in_subset ws); [done|].
  by apply (search_from_anchor p ws q None 0).
Qed.

End GuardReads.

(** X20.  The guard blocks a question only if, lower-cased, it contains none
    of the allow-listed tokens and at least one of the words the blocked
    patterns spell out: without such a word no question is refused. *)
Theorem guard_blocks_need_word (question : pystr) :
  guard_unrelated question = true ->
  any_in (greetings ++ assistant_phrases) (Py.lower question) = false
  /\ any_in block_words (Py.lower question) = true.
Proof.
  intros Hg. split.
  - destruct (any_in _ _) eqn:E; [|done].
    apply any_in_inv in E as (t & Hin & Hc).
    rewrite (guard_allows_token question t Hin Hc) in Hg. done.
  - unfold guard_unrelated in Hg.
    destruct (any_in greetings _); [done|].
    destruct (any_in assistant_phrases _); [done|].
    by apply any_in_unstrip, matches_unrelated_word.
Qed.

Lemma guard_blocks_need_word_witness :
  guard_unrelated (lit " Tell me a JOKE about cats ") = true
  /\ any_in (greetings ++ assistant_phrases)
       (Py.lower (lit " Tell me a JOKE about cats ")) = false
  /\ any_in block_words (Py.lower (lit " Tell me a JOKE about cats ")) = true.
Proof.
  assert (H1 : guard_unrelated (lit " Tell me a JOKE about cats ") = true)
    by reflexivity.
  split; [exact H1|].
  exact (guard_blocks_need_word (lit " Tell me a JOKE about cats ") H1).
Defined.

(** X21.  The guard reads a question up to letter case and surrounding
    whitespace: lower-casing or trimming the question beforehand does not
    change its verdict. *)
Theorem guard_ignores_case_and_margins (question : pystr) :
  guard_unrelated (Py.lower question) = guard_unrelated question
  /\ guard_unrelated (Py.strip question) = guard_unrelated question
  /\ guard_unrelated (Py.strip (Py.lower question)) = guard_unrelated question.
Proof.
  unfold guard_unrelated. cbv zeta.
  rewrite lower_idem.
  rewrite <- (lower_strip question), strip_idem.
  rewrite <- (lower_strip (Py.lower question)), lower_idem, strip_idem.
  done.
Qed.

(** ** The summary operations *)

(** X22.  Once [ensure_chains] has returned, both summary operations run the
    summary chain and open with the header, not with the reply that the
    summary chain is not available.  The streamed form yields the header, the
    pieces of the model and a closing line; the one-shot form returns the
    same pieces in one text, with a newline after the header and, when the
    stream failed, a blank line before the error.  Both make the same outside
    calls and leave the same globals. *)
Theorem summary_operations_agree (sv : services) (st st' : app_state) :
  ensure_chains sv st = (st', Ok ()) ->
  let s := stream_summary sv st in
  let t := summarize_sync sv st in
  let r := summary_stream sv in
  let header := lit "Summarizing documents..." in
  is_Some (summary_chain st')
  /\ (exists closing,
        s_yields s = header :: streamed r ++ [closing]
        /\ s_yields t
           = [header ++ nl ++ concat (streamed r)
              ++ match failure r with Some _ => nl ++ nl | None => [] end
              ++ closing]
        /\ match failure r with
           | Some e => closing = lit "Summary error: " ++ exn_str e
           | None => closing = nl ++ nl ++ lit "Done."
           end)
  /\ s_outside s = calls r /\ s_outside t = calls r
  /\ s_globals s = st' /\ s_globals t = st'
  /\ s_escaped s = None /\ s_escaped t = None.
Proof.
  intros E s t r header. subst s t. unfold stream_summary, summarize_sync.
  rewrite E.
  destruct (ensure_chains_ok _ _ _ E) as (c1 & c2 & -> & _).
  cbn [summary_chain]. cbv zeta. fold r.
  cbn [s_yields s_outside s_globals s_escaped].
  split; [by eexists|]. split; [|done].
  eexists. split; [reflexivity|]. split; [|by destruct (failure r)].
  change ([lit "Summarizing documents..." ++ nl] ++ ?x)
    with ((header ++ nl) :: x).
  rewrite concat_cons, concat_app. simpl concat. rewrite app_nil_r.
  f_equal. destruct (failure r); by rewrite <- ?app_assoc.
Qed.

Lemma summary_operations_agree_witness :
  ensure_chains empty_index no_chains
  = ({| qa_chain := Some QAChain; summary_chain := Some SummaryChain |}, Ok ())
  /\ s_yields (summarize_sync empty_index no_chains)
     = [lit "Summarizing documents..." ++ nl
        ++ concat (streamed (summary_stream empty_index)) ++ nl ++ nl ++ lit "Done."].
Proof.
  assert (H1 : ensure_chains empty_index no_chains
               = ({| qa_chain := Some QAChain; summary_chain := Some SummaryChain |},
                  Ok ())) by reflexivity.
  split; [exact H1|].
  destruct (summary_operations_agree empty_index no_chains _ H1)
    as (_ & (closing & _ & Ht & Hc) & _).
  rewrite Ht. change (failure (summary_stream empty_index)) with (@None exn) in *.
  by rewrite Hc.
Defined.

(** ** Saving the uploads *)

Section Extensions.

Implicit Types p s pre post name : pystr.

Local Abbreviation plain := (forallb (fun c => negb (is_slash c))).
Local Abbreviation dotless := (forallb (fun c => negb (is_dot_char c))).

Lemma take_until_hit (f : ascii -> bool) a c b :
  forallb (fun x => negb (f x)) a = true -> f c = true ->
  take_until f (a ++ c :: b) = a.
Proof.
  intros Ha Hc. induction a as [|x a IH]; simpl.
  - by rewrite Hc.
  - simpl in Ha. apply andb_true_iff in Ha as [Hx Ha].
    apply negb_true_iff in Hx. rewrite Hx. by rewrite IH.
Qed.

Lemma take_until_split (f : ascii -> bool) s :
  exists rest, s = take_until f s ++ rest
    /\ forallb (fun x => negb (f x)) (take_until f s) = true
    /\ match rest with [] => True | c :: _ => f c = true end.
Proof.
  induction s as [|c s (rest & Hs & Hall & Hrest)]; simpl.
  - by exists [].
  - destruct (f c) eqn:E.
    + by exists (c :: s).
    + exists rest. simpl. rewrite E, Hall. split; [by f_equal|done].
Qed.

Lemma forallb_rev (f : ascii -> bool) s : forallb f (rev s) = forallb f s.
Proof.
  induction s as [|c s IH]; [done|]. simpl.
  rewrite forallb_app, IH. simpl. rewrite andb_true_r. apply andb_comm.
Qed.

Lemma basename_split p :
  exists dir, p = dir ++ basename p /\ plain (basename p) = true.
Proof.
  unfold basename.
  destruct (take_until_split is_slash (rev p)) as (rest & Hs & Hplain & _).
  exists (rev rest). split; [|by rewrite forallb_rev].
  rewrite <- rev_app_distr, <- Hs. by rewrite rev_involutive.
Qed.

Lemma basename_after_slash d s :
  plain s = true -> basename (d ++ slash :: s) = s.
Proof.
  intros Hs. unfold basename. rewrite rev_app_distr. simpl rev.
  rewrite <- app_assoc. simpl app.
  rewrite take_until_hit; [apply rev_involutive|by rewrite forallb_rev|reflexivity].
Qed.

(** The extension of a base name that ends in a dot and [post], where
    [post] has no dot and something other than dots comes before. *)
Lemma splitext_ext_intro p pre post :
  basename p = pre ++ dot :: post -> dotless post = true ->
  forallb is_dot_char pre = false ->
  splitext_ext p = dot :: post.
Proof.
  intros Hb Hpost Hpre. unfold splitext_ext. rewrite Hb. cbv zeta.
  rewrite rev_app_distr. simpl rev. rewrite <- app_assoc. simpl app.
  rewrite take_until_hit; [|by rewrite forallb_rev|reflexivity].
  rewrite drop_app_length, forallb_rev, Hpre. by rewrite rev_involutive.
Qed.

Lemma is_dot_char_eq c : is_dot_char c = true -> c = dot.
Proof. unfold is_dot_char. apply Ascii.eqb_eq. Qed.

Lemma splitext_ext_inv p :
  splitext_ext p ≠ [] ->
  exists pre post,
    basename p = pre ++ dot :: post /\ dotless post = true
    /\ forallb is_dot_char pre = false /\ splitext_ext p = dot :: post.
Proof.
  unfold splitext_ext. cbv zeta.
  destruct (take_until_split is_dot_char (rev (basename p)))
    as (rest & Hs & Hpost & Hrest).
  set (post := take_until is_dot_char (rev (basename p))) in *.
  assert (drop (length post) (rev (basename p)) = rest) as ->.
  { transitivity (drop (length post) (post ++ rest)); [by rewrite <- Hs|].
    apply drop_app_length. }
  destruct rest as [|c pre]; [done|].
  apply is_dot_char_eq in Hrest as ->.
  destruct (forallb is_dot_char pre) eqn:Hpre; [done|]. intros _.
  exists (rev pre), (rev post).
  split.
  - rewrite <- (rev_involutive (basename p)). rewrite Hs.
    rewrite rev_app_distr. simpl rev. by rewrite <- app_assoc.
  - by rewrite !forallb_rev.
Qed.

Lemma filename_char_lower c :
  filename_char (Chr.lower c) = true -> filename_char c = true.
Proof. destruct c as [[] [] [] [] [] [] [] []]; vm_compute; congruence. Qed.

Lemma supported_chars e :
  Py.lower e ∈ SUPPORTED_EXTENSIONS -> forallb filename_char e = true.
Proof.
  intros H.
  assert (forallb filename_char (Py.lower e) = true) as Hlow.
  { unfold SUPPORTED_EXTENSIONS in H. rewrite !elem_of_cons, elem_of_nil in H.
    destruct H as [->|[->|[->|[]]]]; reflexivity. }
  clear H. induction e as [|c e IH]; [done|]. simpl in *.
  apply andb_true_iff in Hlow as [Hc He].
  by rewrite (filename_char_lower c Hc), IH.
Qed.

Lemma sanitize_dots name :
  forallb is_dot_char (sanitize_filename name) = forallb is_dot_char name.
Proof.
  induction name as [|c name IH]; [done|]. simpl. rewrite IH. f_equal.
  destruct (filename_char c) eqn:E; [done|].
  destruct c as [[] [] [] [] [] [] [] []]; vm_compute in E |- *; congruence.
Qed.

(** Sanitizing keeps a supported extension. *)
Lemma sanitize_ext name :
  Py.lower (splitext_ext name) ∈ SUPPORTED_EXTENSIONS ->
  exists pre post,
    sanitize_filename name = pre ++ dot :: post
    /\ splitext_ext name = dot :: post
    /\ forallb is_dot_char pre = false /\ dotless post = true.
Proof.
  intros Hsup.
  assert (splitext_ext name ≠ []) as Hne.
  { intros E. rewrite E in Hsup. unfold SUPPORTED_EXTENSIONS in Hsup.
    rewrite !elem_of_cons, elem_of_nil in Hsup.
    destruct Hsup as [H|[H|[H|[]]]]; discriminate H. }
  destruct (splitext_ext_inv name Hne) as (pre & post & Hb & Hpost & Hpre & Hext).
  destruct (basename_split name) as (dir & Hname & _).
  rewrite Hext in Hsup. apply supported_chars in Hsup.
  exists (sanitize_filename dir ++ sanitize_filename pre), post.
  split; [|split; [done|split; [|done]]].
  - rewrite Hname at 1. rewrite Hb. unfold sanitize_filename at 1.
    rewrite !map_app. fold (sanitize_filename dir). fold (sanitize_filename pre).
    fold (sanitize_filename (dot :: post)).
    by rewrite (sanitize_fixed (dot :: post) Hsup), <- app_assoc.
  - rewrite forallb_app, (sanitize_dots pre), Hpre. apply andb_false_r.
Qed.

Lemma str_of_int_chars i : forallb filename_char (Py.str_of_int i) = true.
Proof.
  unfold Py.str_of_int, lit.
  assert (forall d, forallb filename_char
                      (list_ascii_of_string (NilEmpty.string_of_uint d)) = true) as Hu.
  { induction d; simpl; auto. }
  destruct (Z.to_int i) as [d|d]; simpl; auto.
Qed.

Lemma filename_chars_plain s : forallb filename_char s = true -> plain s = true.
Proof.
  apply forallb_impl. intros c Hc. by rewrite (filename_char_not_slash c Hc).
Qed.

Lemma uploads_join s :
  plain s = true -> path_join uploads_dir s = lit "./uploads/" ++ s.
Proof.
  intros Hs. rewrite path_join_relative by by apply startswith_slash_plain.
  reflexivity.
Qed.

Lemma uploads_ext s pre post :
  s = pre ++ dot :: post -> plain s = true ->
  forallb is_dot_char pre = false -> dotless post = true ->
  splitext_ext (lit "./uploads/" ++ s) = dot :: post.
Proof.
  intros Hs Hplain Hpre Hpost.
  apply (splitext_ext_intro _ pre post); [|done|done].
  change (lit "./uploads/" ++ s) with (lit "./uploads" ++ slash :: s).
  by rewrite basename_after_slash.
Qed.

Lemma splitext_parts pre post :
  plain (pre ++ dot :: post) = true ->
  forallb is_dot_char pre = false -> dotless post = true ->
  splitext (pre ++ dot :: post) = (pre, dot :: post).
Proof.
  intros Hplain Hpre Hpost. unfold splitext. cbv zeta.
  rewrite (splitext_ext_intro _ pre post); [|by apply basename_plain|done|done].
  f_equal. rewrite length_app.
  replace (length pre + length (dot :: post) - length (dot :: post))%nat
    with (length pre) by lia.
  by rewrite take_app_length.
Qed.

End Extensions.

Section SaveUploads.

Lemma parse_file_supported w p :
  Py.lower (splitext_ext p) ∈ SUPPORTED_EXTENSIONS ->
  parse_file w p ∈ [parse_pdf w p; parse_docx w p; parse_txt w p].
Proof.
  intros H. unfold parse_file. cbv zeta.
  repeat destruct (decide _); rewrite !elem_of_cons; try tauto.
  unfold SUPPORTED_EXTENSIONS in H. rewrite !elem_of_cons, elem_of_nil in H. tauto.
Qed.

Lemma accepted_supported f temp orig :
  accepted f = Some (temp, orig) ->
  Py.lower (splitext_ext orig) ∈ SUPPORTED_EXTENSIONS.
Proof.
  unfold accepted. destruct (upload_truthy f); [|done].
  destruct (_get_file_info f) as [[[|t tp]|] [[|o on]|]]; try done.
  destruct (bool_decide _) eqn:E; [|done].
  intros [= <- <-]. by apply bool_decide_eq_true in E.
Qed.

Lemma unique_loop_some (exists_ : pystr -> bool) d root ext (fuel : nat) :
  forall i p, unique_loop exists_ fuel d root ext i = Some p ->
  exists j, p = unique_candidate d root ext j /\ exists_ p = false.
Proof.
  induction fuel as [|fuel IH]; intros i p; [done|]. simpl.
  destruct (exists_ (unique_candidate d root ext i)) eqn:E.
  - apply IH.
  - intros [= <-]. by exists i.
Qed.

(** The path chosen for a name with a supported extension: under the
    uploads directory, made of file-name characters, with the extension of
    the name. *)
Lemma make_unique_path_shape (exists_ : pystr -> bool) (fuel : nat) orig dest :
  Py.lower (splitext_ext orig) ∈ SUPPORTED_EXTENSIONS ->
  make_unique_path exists_ fuel uploads_dir orig = Some dest ->
  exists_ dest = false
  /\ exists name, dest = lit "./uploads/" ++ name
       /\ forallb filename_char name = true
       /\ splitext_ext dest = splitext_ext orig.
Proof.
  intros Hsup.
  destruct (sanitize_ext orig Hsup) as (pre & post & Hsan & Hext & Hpre & Hpost).
  pose proof (sanitize_chars orig) as Hchars.
  pose proof (sanitize_no_slash orig) as Hplain.
  unfold make_unique_path. cbv zeta. rewrite Hsan in *.
  rewrite (uploads_join _ Hplain).
  destruct (exists_ _) eqn:Efull.
  - rewrite (splitext_parts pre post Hplain Hpre Hpost).
    rewrite forallb_app in Hchars. apply andb_true_iff in Hchars as [Hc_pre Hc_ext].
    intros (j & -> & Hfree)%unique_loop_some. split; [done|].
    set (name := (pre ++ lit "_" ++ Py.str_of_int j) ++ dot :: post).
    assert (forallb filename_char name = true) as Hname.
    { unfold name. rewrite !forallb_app, Hc_pre, Hc_ext, str_of_int_chars. done. }
    assert (unique_candidate uploads_dir pre (dot :: post) j
            = lit "./uploads/" ++ name) as Hcand.
    { unfold unique_candidate. rewrite <- uploads_join by by apply filename_chars_plain.
      unfold name. by rewrite <- !app_assoc. }
    exists name. split; [done|]. split; [done|].
    rewrite Hcand, Hext.
    apply (uploads_ext name (pre ++ lit "_" ++ Py.str_of_int j) post);
      [done|by apply filename_chars_plain| |done].
    rewrite !forallb_app. simpl. apply andb_false_r.
  - intros [= <-]. split; [done|].
    exists (pre ++ dot :: post). split; [done|]. split; [done|].
    rewrite Hext. by apply (uploads_ext _ pre post).
Qed.

(** The search for a free name ends when the fuel reaches a free
    candidate. *)
Lemma make_unique_path_returns (exists_ : pystr -> bool) (fuel : nat) d name (k : Z) :
  1 <= k -> (Z.to_nat k <= fuel)%nat ->
  exists_ (unique_candidate d (splitext (sanitize_filename name)).1
             (splitext (sanitize_filename name)).2 k) = false ->
  is_Some (make_unique_path exists_ fuel d name).
Proof.
  intros Hk Hfuel Hfree. unfold make_unique_path. cbv zeta.
  destruct (exists_ (path_join d (sanitize_filename name))); [|by eexists].
  destruct (splitext (sanitize_filename name)) as [root ext]. simpl in Hfree.
  destruct (unique_loop_first exists_ d root ext fuel 1 k) as (j & _ & -> & _);
    [lia|lia|done|by eexists].
Qed.

Context {disk : Type} (fs : filesystem disk) (fuel : nat).

Lemma save_loop_cons d saved f rest :
  save_loop fs fuel d saved (f :: rest)
  = match accepted f with
    | None => save_loop fs fuel d saved rest
    | Some (temp_path, orig_name) =>
        match make_unique_path (fs_exists fs d) fuel uploads_dir orig_name with
        | None => (d, OutOfFuel)
        | Some dest =>
            match fs_copy fs d dest temp_path with
            | (d', Ok _) => save_loop fs fuel d' (saved ++ [dest]) rest
            | (d', Raise e) => (d', Raise e)
            | (d', OutOfFuel) => (d', OutOfFuel)
            end
        end
    end.
Proof.
  unfold accepted. simpl. destruct (upload_truthy f); [|done].
  destruct (_get_file_info f) as [[[|t tp]|] [[|o on]|]]; try done.
  by destruct (bool_decide _).
Qed.

Lemma save_loop_nothing files : forall d saved,
  omap accepted files = [] -> save_loop fs fuel d saved files = (d, Ok saved).
Proof.
  induction files as [|f rest IH]; intros d saved; [done|].
  rewrite save_loop_cons. simpl. destruct (accepted f); [done|]. apply IH.
Qed.

End SaveUploads.

(** X23.  For an upload that passes the three tests of [save_uploads], the
    path that [make_unique_path] chooses under ./uploads, whatever exists
    there, does not exist yet, has a name of file-name characters only and
    keeps the extension of the upload; [parse_file] therefore hands it to
    one of its three parsers and never rejects it as unsupported.  The path
    is found as soon as the fuel reaches a free candidate. *)
Theorem accepted_upload_path (f : upload) (temp_path orig_name : pystr)
  (exists_ : pystr -> bool) (k : Z) (fuel : nat) :
  accepted f = Some (temp_path, orig_name) ->
  1 <= k -> (Z.to_nat k <= fuel)%nat ->
  exists_ (unique_candidate uploads_dir
             (splitext (sanitize_filename orig_name)).1
             (splitext (sanitize_filename orig_name)).2 k) = false ->
  exists dest name,
    make_unique_path exists_ fuel uploads_dir orig_name = Some dest
    /\ exists_ dest = false
    /\ dest = lit "./uploads/" ++ name
    /\ forallb filename_char name = true
    /\ Py.lower (splitext_ext orig_name) ∈ SUPPORTED_EXTENSIONS
    /\ splitext_ext dest = splitext_ext orig_name
    /\ forall w, parse_file w dest ∈ [parse_pdf w dest; parse_docx w dest;
                                      parse_txt w dest].
Proof.
  intros Hf Hk Hfuel Hfree.
  pose proof (accepted_supported _ _ _ Hf) as Hsup.
  destruct (make_unique_path_returns exists_ fuel uploads_dir orig_name k Hk Hfuel Hfree)
    as [dest Hdest].
  destruct (make_unique_path_shape exists_ fuel orig_name dest Hsup Hdest)
    as (Hnew & name & -> & Hname & Hext).
  exists (lit "./uploads/" ++ name), name.
  split; [done|]. split; [done|]. split; [done|]. split; [done|].
  split; [done|]. split; [done|].
  intros w. apply parse_file_supported. by rewrite Hext.
Qed.

Lemma accepted_upload_path_witness :
  let f := UploadObj (Some (lit "/tmp/gradio/ab12/Lease (final).PDF"))
             (Some (lit "Lease (final).PDF")) None in
  let exists_ := fun p =>
    bool_decide (p ∈ [lit "./uploads/Lease__final_.PDF";
                      lit "./uploads/Lease__final__1.PDF"]) in
  accepted f = Some (lit "/tmp/gradio/ab12/Lease (final).PDF", lit "Lease (final).PDF")
  /\ make_unique_path exists_ 2 uploads_dir (lit "Lease (final).PDF")
     = Some (lit "./uploads/Lease__final__2.PDF")
  /\ exists dest name,
       make_unique_path exists_ 2 uploads_dir (lit "Lease (final).PDF") = Some dest
       /\ exists_ dest = false
       /\ dest = lit "./uploads/" ++ name
       /\ forallb filename_char name = true
       /\ Py.lower (splitext_ext (lit "Lease (final).PDF")) ∈ SUPPORTED_EXTENSIONS
       /\ splitext_ext dest = splitext_ext (lit "Lease (final).PDF")
       /\ forall w, parse_file w dest ∈ [parse_pdf w dest; parse_docx w dest;
                                         parse_txt w dest].
Proof.
  intros f exists_.
  assert (H1 : accepted f = Some (lit "/tmp/gradio/ab12/Lease (final).PDF",
                                  lit "Lease (final).PDF")) by reflexivity.
  assert (H2 : 1 <= 2) by lia.
  assert (H3 : (Z.to_nat 2 <= 2)%nat) by (vm_compute; lia).
  assert (H4 : exists_ (unique_candidate uploads_dir
                          (splitext (sanitize_filename (lit "Lease (final).PDF"))).1
                          (splitext (sanitize_filename (lit "Lease (final).PDF"))).2 2)
               = false) by reflexivity.
  split; [exact H1|]. split; [reflexivity|].
  exact (accepted_upload_path f _ _ exists_ 2 2 H1 H2 H3 H4).
Defined.

(** X24.  When no upload passes the tests of [save_uploads] (an empty list,
    missing entries, names without a supported extension), [index_files]
    asks nothing of the outside but the two directories of [ensure_dirs]:
    when these are made it returns that no supported file was uploaded, and
    no vector store; what [ensure_dirs] raises escapes, the call of
    [save_uploads] standing before the [try].  No file is copied, parsed or
    indexed. *)
Theorem index_files_nothing_accepted {disk : Type} (fs : filesystem disk)
  (fuel : nat) (w : disk -> world) (sv : services)
  (add_texts : list pystr -> list (gmap string pyval) -> result unit)
  (d : disk) (files : list upload) :
  omap accepted files = [] ->
  index_files fs fuel w sv add_texts d files
  = ((ensure_dirs_on fs d).1,
     (ensure_dirs_on fs d).2 ≫= fun _ =>
       Ok (lit "No supported files uploaded.", false)).
Proof.
  intros H. unfold index_files, save_uploads.
  destruct (ensure_dirs_on fs d) as [d0 [[]|e|]]; simpl; [|done|done].
  by rewrite (save_loop_nothing fs fuel files d0 [] H).
Qed.

Lemma index_files_nothing_accepted_witness :
  let fs : filesystem (list pystr) :=
    {| fs_makedirs := fun d p => (d ++ [p], Ok ());
       fs_exists := fun d p => bool_decide (p ∈ d);
       fs_copy := fun d dest temp => (d ++ [dest], Ok ()) |} in
  let files :=
    [NoUpload; UploadStr (lit "notes.md"); UploadObj None None None;
     UploadObj (Some (lit "/tmp/x1")) (Some (lit "archive.tar.gz")) None] in
  omap accepted files = []
  /\ index_files fs 5 (fun _ => two_files) empty_index (fun _ _ => Raise TypeError)
       [] files
     = ([lit "./uploads"; lit "./vectorstore"],
        Ok (lit "No supported files uploaded.", false)).
Proof.
  intros fs files.
  assert (H1 : omap accepted files = []) by reflexivity.
  split; [exact H1|].
  exact (index_files_nothing_accepted fs 5 (fun _ => two_files) empty_index
           (fun _ _ => Raise TypeError) [] files H1).
Defined.
